(** * A shallow embedding of the retrieval-and-orchestration engine

  The development follows the Python sources module by module:

  - [PyStr]         the string primitives of CPython used by the chunker
                    ([str.rfind], slicing, [str.strip]);
  - [Retriever]     [DocumentRetriever._split_text] (app/rag/retriever.py);
  - [Faiss]         numpy arrays and the contract of [faiss.IndexFlatL2],
                    with the float32 distance routine as a parameter;
  - [Float32]       one such routine, for the concrete runs;
  - [VectorStore]   app/rag/vector_store.py;
  - [Memory]        the data of app/agent/memory.py;
  - [Runtime]       the completer's messages, the environment (clock, uuid
                    source, completer, embedder) and the monad of
                    computations on the process-wide singletons;
  - [SessionMemory] the methods of [SessionMemory];
  - [Retrieval]     [DocumentRetriever.retrieve];
  - [Agent]         [AIAgent.process_query] (app/agent/ai_agent.py);
  - [Sweep], [Embeddings], [Persistence], [Ingestion], [Config], [Routes]
                    the sweep of expired sessions, the batches of the
                    embeddings generator, [save] and [load], the loading of
                    a directory and start-up, the credentials, the routes;
  - [Invariants], [Scenarios], [Examples], [Cases]
                    the predicates of the statements and concrete instances.

  Python integers are [Z]; [str] values are [string]s whose characters are
  read as code points below 256; dictionaries are [gmap]s; a float32 value
  is held as the rational it denotes, and what float32 arithmetic computes
  from such values is left to the distance routine; clock readings are
  integers. The facts about each module follow the definitions. *)

From Stdlib Require Import ZArith QArith Qabs Qround String Ascii List Lia
  Sorting.Sorted.
From stdpp Require Import base list strings gmap pretty.

Close Scope Q_scope.
Open Scope Z_scope.

(* ===================================================================== *)
(** * Python string primitives *)
(* ===================================================================== *)

Module PyStr.

Definition len (s : string) : Z := Z.of_nat (String.length s).

Definition nl : ascii := ascii_of_nat 10.

(** The two-character paragraph separator ['\n\n']. *)
Definition para : string := String nl (String nl EmptyString).

(** [s * n] for a one-character string. *)
Fixpoint replicate_char (n : nat) (c : ascii) : string :=
  match n with
  | O => EmptyString
  | S k => String c (replicate_char k c)
  end.

(** Index adjustment of [str.find]/[str.rfind] (CPython's ADJUST_INDICES):
    a negative bound counts from the end and is clamped at 0; only the
    upper bound is clamped at the length. *)
Definition adjust_end (n e : Z) : Z :=
  if n <? e then n else if e <? 0 then Z.max 0 (e + n) else e.

Definition adjust_start (n s : Z) : Z :=
  if s <? 0 then Z.max 0 (s + n) else s.

(** Index adjustment of a slice [s[a:b]]: both bounds are clamped into
    [0, len]. *)
Definition clamp_index (n i : Z) : Z :=
  if i <? 0 then Z.max 0 (i + n) else Z.min i n.

Definition slice (s : string) (a b : Z) : string :=
  let lo := clamp_index (len s) a in
  let hi := clamp_index (len s) b in
  if lo <? hi then substring (Z.to_nat lo) (Z.to_nat (hi - lo)) s
  else EmptyString.

(** Candidates [lo + cnt - 1], ..., [lo] from the highest down. *)
Fixpoint rfind_scan (s sub : string) (lo cnt : nat) : Z :=
  match cnt with
  | O => -1
  | S c =>
      if String.eqb (substring (lo + c) (String.length sub) s) sub
      then Z.of_nat (lo + c)
      else rfind_scan s sub lo c
  end.

(** [s.rfind(sub, start, end)]: the highest index [i] with
    [start <= i], [i + len(sub) <= end] and [s[i:i+len(sub)] == sub]
    (bounds adjusted as above), or [-1]. *)
Definition rfind (s sub : string) (start end_ : Z) : Z :=
  let a := adjust_start (len s) start in
  let b := adjust_end (len s) end_ in
  if b - a <? len sub then -1
  else rfind_scan s sub (Z.to_nat a) (Z.to_nat (b - a - len sub + 1)).

(** [str.isspace] on the code points below 256. *)
Definition is_space (c : ascii) : bool :=
  let n := nat_of_ascii c in
  ((9 <=? n) && (n <=? 13) || (28 <=? n) && (n <=? 32)
   || (n =? 133) || (n =? 160))%nat.

Fixpoint lstrip (s : string) : string :=
  match s with
  | EmptyString => EmptyString
  | String c r => if is_space c then lstrip r else s
  end.

Definition rstrip (s : string) : string := String.rev (lstrip (String.rev s)).

Definition strip (s : string) : string := rstrip (lstrip s).

(** Truthiness of a [str]. *)
Definition nonempty (s : string) : bool :=
  match s with EmptyString => false | _ => true end.

End PyStr.

(* ===================================================================== *)
(** * The text chunker: [DocumentRetriever._split_text] *)
(* ===================================================================== *)

Module Retriever.
Import PyStr.

Record DocumentRetriever := {
  chunk_size : Z;
  chunk_overlap : Z
}.

(** The boundary search inside the [while] body: the value of [end] after
    the nested [if]s. *)
Definition snap_end (text : string) (start end_ : Z) : Z :=
  if end_ <? len text then
    let last_newline := rfind text para start end_ in
    if negb (last_newline =? -1) && (start <? last_newline)
    then last_newline + 2
    else
      let last_period := rfind text ". " start end_ in
      if negb (last_period =? -1) && (start <? last_period)
      then last_period + 2
      else
        let last_space := rfind text " " start end_ in
        if negb (last_space =? -1) && (start <? last_space)
        then last_space + 1
        else end_
  else end_.

(** The value of [end] used by one iteration started at [start]. *)
Definition iter_end (self : DocumentRetriever) (text : string) (start : Z) : Z :=
  snap_end text start (start + chunk_size self).

(** The chunk produced by one iteration (before the emptiness test). *)
Definition iter_chunk (self : DocumentRetriever) (text : string) (start : Z) : string :=
  strip (slice text start (iter_end self text start)).

(** [start = end - self.chunk_overlap if end < text_length else text_length] *)
Definition iter_next (self : DocumentRetriever) (text : string) (start : Z) : Z :=
  let e := iter_end self text start in
  if e <? len text then e - chunk_overlap self else len text.

(** One pass through the body of the [while] loop. *)
Definition split_step (self : DocumentRetriever) (text : string)
    (st : Z * list string) : Z * list string :=
  let '(start, chunks) := st in
  let chunk := iter_chunk self text start in
  (iter_next self text start,
   if nonempty chunk then chunks ++ [chunk] else chunks).

(** The [while start < text_length] loop, bounded by [fuel] iterations:
    [None] means that the loop is still running when the fuel is spent. *)
Fixpoint split_loop (fuel : nat) (self : DocumentRetriever) (text : string)
    (st : Z * list string) : option (list string) :=
  if fst st <? len text then
    match fuel with
    | O => None
    | S f => split_loop f self text (split_step self text st)
    end
  else Some (snd st).

Definition _split_text (fuel : nat) (self : DocumentRetriever) (text : string)
    : option (list string) :=
  split_loop fuel self text (0, []).

(** The default configuration of app/config.py. *)
Definition default_retriever : DocumentRetriever :=
  {| chunk_size := 1000; chunk_overlap := 200 |}.

(** 198 letters, a paragraph break, then 2000 letters. *)
Definition stuck_text : string :=
  replicate_char 198 "x" +:+ para +:+ replicate_char 2000 "y".

End Retriever.


(* ===================================================================== *)
(** * Exceptions and configuration *)
(* ===================================================================== *)

(** The exceptions that the modelled code paths can raise. *)
Inductive exn :=
| ValueError        (* numpy: ragged input; unpacking a 1-D shape *)
| IndexError        (* shape[1] of a 1-D array; list index out of range *)
| AssertionError    (* the assertions of the faiss Python wrapper *)
| JSONDecodeError   (* json.loads *)
| ServiceError (what : string).   (* embedder or completer failure *)

Inductive result (A : Type) :=
| Ok (a : A)
| Raise (e : exn).
Arguments Ok {A} a.
Arguments Raise {A} e.

(** The fields of [Settings] (app/config.py) read by the modelled code. *)
Record Settings := {
session_ttl : Z;
max_conversation_history : Z;
top_k_results : Z
}.

Definition default_settings : Settings :=
{| session_ttl := 3600; max_conversation_history := 10; top_k_results := 3 |}.

(** Embedding vectors: the rows of a float32 array. A component is held as
  the rational number that the float32 value denotes; the conversion of a
  Python float that is not such a value is not modelled. *)
Abbreviation vector := (list Q).

(** [embeddings_generator] (app/rag/embeddings.py) wraps an external model;
  its two entry points are parameters of the development. *)
Record Embedder := {
generate_embedding : string -> result vector;
generate_embeddings_batch : list string -> result (list vector)
}.

(* ===================================================================== *)
(** * numpy arrays and the flat L2 index of faiss *)
(* ===================================================================== *)

Module Faiss.

(** The result of [np.array(embeddings, dtype=np.float32)] on a list of
    lists: an empty list gives a 1-D array of shape [(0,)], equally long
    rows give a 2-D array of shape [(n, cols)]. *)
Inductive ndarray :=
| Array1D_empty
| Array2D (cols : nat) (rows : list vector).

Definition np_array (embeddings : list vector) : result ndarray :=
  match embeddings with
  | [] => Ok Array1D_empty
  | v :: _ =>
      if forallb (fun w => Nat.eqb (length w) (length v)) embeddings
      then Ok (Array2D (length v) embeddings)
      else Raise ValueError
  end.

(** [arr.shape[1]] *)
Definition shape1 (arr : ndarray) : result nat :=
  match arr with
  | Array1D_empty => Raise IndexError
  | Array2D cols _ => Ok cols
  end.

(** [faiss.IndexFlatL2]: the dimension and the stored vectors, in
    insertion order (the position is the row id). *)
Record IndexFlatL2 := {
  d : nat;
  xb : list vector
}.

Definition new (dim : nat) : IndexFlatL2 := {| d := dim; xb := [] |}.

Definition ntotal (ix : IndexFlatL2) : nat := length (xb ix).

(** [index.add(x)]: [n, d = x.shape; assert d == self.d]. *)
Definition add (ix : IndexFlatL2) (x : ndarray) : result IndexFlatL2 :=
  match x with
  | Array1D_empty => Raise ValueError
  | Array2D cols rows =>
      if Nat.eqb cols (d ix)
      then Ok {| d := d ix; xb := xb ix ++ rows |}
      else Raise AssertionError
  end.

(** The largest float32: the distance with which faiss fills a result slot
    before the search, and which stays in a slot that no row takes. *)
Definition FLT_MAX : Q := 340282346638528859811704183484516925440%Q.

(** [fvec_L2sqr], the routine with which faiss computes the squared L2
    distance of two rows in float32 arithmetic. The order in which it adds
    the squares, and so the rounding, depends on the build of faiss: the
    routine is a parameter. [None] is a result that is no finite number (the
    arithmetic overflowed). What is used of it: a computed distance is
    never negative, and a row is at distance zero from itself. *)
Class DistanceKernel := {
  fvec_L2sqr : vector -> vector -> option Q;
  fvec_L2sqr_nonneg :
    forall x y dist, fvec_L2sqr x y = Some dist -> (0 <= dist)%Q;
  fvec_L2sqr_self :
    forall x, exists dist, fvec_L2sqr x x = Some dist /\ (dist == 0)%Q
}.

(** Stable insertion into a list ordered by distance. *)
Fixpoint insert_by_distance (x : nat * Q) (l : list (nat * Q)) : list (nat * Q) :=
  match l with
  | [] => [x]
  | y :: r =>
      if Qle_bool (snd x) (snd y) then x :: l
      else y :: insert_by_distance x r
  end.

Definition sort_by_distance (l : list (nat * Q)) : list (nat * Q) :=
  foldr insert_by_distance [] l.

(** A row takes a result slot only with a distance below the one the slot
    holds, and every slot starts at [FLT_MAX]: a distance that overflowed,
    or that is [FLT_MAX] itself, never enters the result. *)
Definition in_range (dist : option Q) : option Q :=
  match dist with
  | Some x => if Qle_bool FLT_MAX x then None else Some x
  | None => None
  end.

Section WithKernel.
Context {kernel : DistanceKernel}.

(** The rows that can enter the result, from row number [i] on, each with
    its distance to the query. *)
Fixpoint candidates_from (i : nat) (q : vector) (rows : list vector)
    : list (nat * Q) :=
  match rows with
  | [] => []
  | v :: rest =>
      match in_range (fvec_L2sqr q v) with
      | Some x => (i, x) :: candidates_from (S i) q rest
      | None => candidates_from (S i) q rest
      end
  end.

Definition candidates (ix : IndexFlatL2) (q : vector) : list (nat * Q) :=
  candidates_from 0 q (xb ix).

(** Every stored row has a distance to the query that can enter the
    result. *)
Definition all_in_range (ix : IndexFlatL2) (q : vector) : bool :=
  forallb (fun v => match in_range (fvec_L2sqr q v) with
                    | Some _ => true
                    | None => false
                    end) (xb ix).

(** [D, I = index.search(x, k)] for a single query row: [assert d == self.d],
    [assert k > 0], then the [k] nearest rows by increasing distance; the
    slots that no row takes (fewer than [k] rows are stored, or their
    distances are out of range) hold the label [-1] and [FLT_MAX]. The order
    of rows at equal distance is not specified by faiss; here the lower row
    number comes first. *)
Definition search (ix : IndexFlatL2) (q : vector) (k : Z) : result (list (Z * Q)) :=
  if negb (Nat.eqb (length q) (d ix)) then Raise AssertionError
  else if k <=? 0 then Raise AssertionError
  else
    let best := take (Z.to_nat k) (sort_by_distance (candidates ix q)) in
    Ok (map (fun p => (Z.of_nat (fst p), snd p)) best
        ++ replicate (Z.to_nat k - length best)%nat (-1, FLT_MAX)).

End WithKernel.

End Faiss.

(* ===================================================================== *)
(** * A distance routine in float32 arithmetic *)
(* ===================================================================== *)

(** One routine that meets [Faiss.DistanceKernel], used for the concrete
    runs below: IEEE 754 binary32 with rounding to nearest, ties to even,
    and the squares added in the order of the components. *)
Module Float32.

Definition pow2 (e : Z) : Q :=
  if 0 <=? e then inject_Z (2 ^ e) else (/ inject_Z (2 ^ (- e)))%Q.

(** The integer part of the binary logarithm of a positive rational. *)
Definition ilog2 (q : Q) : Z :=
  let e := Z.log2 (Qnum q) - Z.log2 (Zpos (Qden q)) in
  if Qle_bool (pow2 e) q then e else e - 1.

Definition round_half_even (q : Q) : Z :=
  let f := Qfloor q in
  match Qcompare (q - inject_Z f) (1 # 2) with
  | Lt => f
  | Eq => if Z.even f then f else f + 1
  | Gt => f + 1
  end.

(** The float32 nearest to [q]: 24 significant bits, exponents from -126
    (below it the spacing stays [2^-149]); [None] when the rounded value
    reaches [2^128]. *)
Definition round (q : Q) : option Q :=
  if Qeq_bool q 0 then Some 0%Q
  else
    let a := Qabs q in
    let t := Z.max (ilog2 a) (-126) - 23 in
    let m := (inject_Z (round_half_even (a / pow2 t)) * pow2 t)%Q in
    if Qle_bool (pow2 128) m then None
    else Some (if Qle_bool 0 q then m else (- m)%Q).

(** [acc + (x - y)^2], component after component, each operation rounded. *)
Fixpoint sum_squares (acc : Q) (x y : vector) : option Q :=
  match x, y with
  | a :: x', b :: y' =>
      match round (a - b) with
      | None => None
      | Some diff =>
          match round (diff * diff) with
          | None => None
          | Some square =>
              match round (acc + square) with
              | None => None
              | Some acc' => sum_squares acc' x' y'
              end
          end
      end
  | _, _ => Some acc
  end.

Definition l2sqr (x y : vector) : option Q := sum_squares 0 x y.

Lemma pow2_pos e : (0 < pow2 e)%Q.
Proof.
  unfold pow2. destruct (Z.leb_spec 0 e).
  - change 0%Q with (inject_Z 0). rewrite <- Zlt_Qlt.
    apply Z.pow_pos_nonneg; lia.
  - apply Qinv_lt_0_compat. change 0%Q with (inject_Z 0). rewrite <- Zlt_Qlt.
    apply Z.pow_pos_nonneg; lia.
Qed.

Lemma round_half_even_nonneg q : (0 <= q)%Q -> 0 <= round_half_even q.
Proof.
  intros Hq. unfold round_half_even.
  assert (0 <= Qfloor q) as Hf.
  { change 0 with (Qfloor 0). now apply Qfloor_resp_le. }
  destruct (Qcompare _ _); [destruct (Z.even _)| |]; lia.
Qed.

Lemma round_nonneg q r : round q = Some r -> (0 <= q)%Q -> (0 <= r)%Q.
Proof.
  unfold round. destruct (Qeq_bool q 0); [intros [= <-] _; apply Qle_refl|].
  destruct (Qle_bool (pow2 128) _); [discriminate|].
  intros [= <-] Hq. apply Qle_bool_iff in Hq as Hb. rewrite Hb.
  apply Qmult_le_0_compat; [|apply Qlt_le_weak, pow2_pos].
  change 0%Q with (inject_Z 0). rewrite <- Zle_Qle.
  apply round_half_even_nonneg.
  apply Qle_shift_div_l; [apply pow2_pos|].
  rewrite Qmult_0_l. apply Qabs_nonneg.
Qed.

Lemma round_zero q : (q == 0)%Q -> round q = Some 0%Q.
Proof. intros H. unfold round. apply Qeq_bool_iff in H. now rewrite H. Qed.

Lemma sum_squares_nonneg x :
  forall y acc dist,
    (0 <= acc)%Q -> sum_squares acc x y = Some dist -> (0 <= dist)%Q.
Proof.
  induction x as [|a x IH]; intros [|b y] acc dist Hacc; cbn [sum_squares];
    try (intros [= <-]; exact Hacc).
  destruct (round (a - b)) as [diff|]; [|discriminate].
  destruct (round (diff * diff)) as [square|] eqn:Hsq; [|discriminate].
  destruct (round (acc + square)) as [acc'|] eqn:Hacc'; [|discriminate].
  apply IH. apply (round_nonneg _ _ Hacc').
  assert (0 <= square)%Q as Hs.
  { apply (round_nonneg _ _ Hsq).
    destruct diff as [n dn]. unfold Qle, Qmult. cbn. nia. }
  apply (Qplus_le_compat 0 _ 0 _ Hacc Hs).
Qed.

Lemma sum_squares_self x : sum_squares 0 x x = Some 0%Q.
Proof.
  induction x as [|a x IH]; [reflexivity|]. cbn [sum_squares].
  rewrite (round_zero (a - a)) by ring.
  rewrite (round_zero (0 * 0)) by ring.
  rewrite (round_zero (0 + 0)) by ring.
  exact IH.
Qed.

Definition kernel : Faiss.DistanceKernel :=
  {| Faiss.fvec_L2sqr := l2sqr;
     Faiss.fvec_L2sqr_nonneg :=
       fun x y dist => sum_squares_nonneg x y 0 dist (Qle_refl 0);
     Faiss.fvec_L2sqr_self :=
       fun x => ex_intro _ 0%Q (conj (sum_squares_self x) (Qeq_refl 0)) |}.

End Float32.

(* ===================================================================== *)
(** * app/rag/vector_store.py *)
(* ===================================================================== *)

Module VectorStore.

(** [Document.metadata]: the keys written by the loader; a key may be
    missing from a dictionary built elsewhere. *)
Record Metadata := {
  source : option string;
  chunk_id : option Z;
  total_chunks : option Z
}.

Record Document := {
  content : string;
  metadata : Metadata
}.

(** The attributes of a [VectorStore] instance. *)
Record t := {
  index : option Faiss.IndexFlatL2;
  documents : list Document;
  dimension : option nat;
  is_initialized : bool
}.

(** [__init__] *)
Definition init : t :=
  {| index := None; documents := []; dimension := None;
     is_initialized := false |}.

(** [lst[i]] for a Python list: negative indices count from the end. *)
Definition py_index {A} (l : list A) (i : Z) : result A :=
  let n := Z.of_nat (length l) in
  let j := if i <? 0 then i + n else i in
  if (0 <=? j) && (j <? n) then
    match l !! Z.to_nat j with
    | Some x => Ok x
    | None => Raise IndexError
    end
  else Raise IndexError.

Section WithCollaborators.
Variable settings : Settings.
Variable embeddings_generator : Embedder.
Context {kernel : Faiss.DistanceKernel}.

(** [add_documents]: the outcome of the call and the instance as the call
    leaves it (also when it raises). *)
Definition add_documents (docs : list Document) (self : t) : result unit * t :=
  match docs with
  | [] => (Ok tt, self)
  | _ :: _ =>
      let texts := map content docs in
      match generate_embeddings_batch embeddings_generator texts with
      | Raise e => (Raise e, self)
      | Ok embeddings =>
          match Faiss.np_array embeddings with
          | Raise e => (Raise e, self)
          | Ok embeddings_array =>
              (* if self.index is None: *)
              let created :=
                match index self with
                | Some ix => Ok (ix, self)
                | None =>
                    match Faiss.shape1 embeddings_array with
                    | Raise e => Raise e
                    | Ok dim =>
                        Ok (Faiss.new dim,
                            {| index := Some (Faiss.new dim);
                               documents := documents self;
                               dimension := Some dim;
                               is_initialized := is_initialized self |})
                    end
                end in
              match created with
              | Raise e => (Raise e, self)
              | Ok (ix, self1) =>
                  (* self.index.add(embeddings_array) *)
                  match Faiss.add ix embeddings_array with
                  | Raise e => (Raise e, self1)
                  | Ok ix' =>
                      (Ok tt,
                       {| index := Some ix';
                          documents := documents self1 ++ docs;
                          dimension := dimension self1;
                          is_initialized := true |})
                  end
              end
          end
      end
  end.

(** The loop over [zip(indices[0], distances[0])]. *)
Fixpoint collect_results (docs : list Document) (hits : list (Z * Q))
    : result (list (Document * Q)) :=
  match hits with
  | [] => Ok []
  | (idx, distance) :: rest =>
      if idx <? Z.of_nat (length docs) then
        match py_index docs idx with
        | Raise e => Raise e
        | Ok doc =>
            match collect_results docs rest with
            | Raise e => Raise e
            | Ok results => Ok ((doc, distance) :: results)
            end
        end
      else collect_results docs rest
  end.

(** [k or settings.top_k_results]: [None] and [0] are falsy. *)
Definition k_or_default (k : option Z) : Z :=
  match k with
  | None => top_k_results settings
  | Some n => if n =? 0 then top_k_results settings else n
  end.

(** [search]: it reads the instance and does not change it. *)
Definition search (query : string) (k : option Z) (self : t)
    : result (list (Document * Q)) :=
  match is_initialized self, index self with
  | true, Some ix =>
      let k1 := k_or_default k in
      let k2 := Z.min k1 (Z.of_nat (length (documents self))) in
      match generate_embedding embeddings_generator query with
      | Raise e => Raise e
      | Ok query_embedding =>
          match Faiss.search ix query_embedding k2 with
          | Raise e => Raise e
          | Ok hits => collect_results (documents self) hits
          end
      end
  | _, _ => Ok []
  end.

(** [clear] *)
Definition clear (self : t) : t :=
  {| index := None; documents := [];
     dimension := dimension self;
     is_initialized := false |}.

End WithCollaborators.

End VectorStore.

(* ===================================================================== *)
(** * app/agent/memory.py: the data and the list manipulations *)
(* ===================================================================== *)

Module Memory.

Record Message := {
  role : string;
  content : string;
  timestamp : Z
}.

(** The attributes of a [SessionMemory] instance. Clock readings are
    integers in the unit of [ttl]. *)
Record t := {
  sessions : gmap string (list Message);
  session_timestamps : gmap string Z;
  max_history : Z;
  ttl : Z
}.

(** [__init__] *)
Definition init (settings : Settings) : t :=
  {| sessions := ∅; session_timestamps := ∅;
     max_history := max_conversation_history settings;
     ttl := session_ttl settings |}.

Definition is_system (m : Message) : bool := String.eqb (role m) "system".

(** [[m for m in msgs if m.role == 'system']] *)
Definition system_messages (msgs : list Message) : list Message :=
  List.filter is_system msgs.

(** [[m for m in msgs if m.role != 'system']] *)
Definition non_system_messages (msgs : list Message) : list Message :=
  List.filter (fun m => negb (is_system m)) msgs.

(** [lst[i:]] for a Python list. *)
Definition slice_from {A} (i : Z) (l : list A) : list A :=
  drop (Z.to_nat (PyStr.clamp_index (Z.of_nat (length l)) i)) l.

(** The trimming block at the end of [add_message], on the message list of
    the session. *)
Definition trimmed (max_history : Z) (msgs : list Message) : list Message :=
  system_messages msgs
  ++ slice_from (- max_history * 2) (non_system_messages msgs).

Definition trim_history (max_history : Z) (msgs : list Message) : list Message :=
  if max_history * 2 <? Z.of_nat (length msgs) then trimmed max_history msgs
  else msgs.

(** [self.sessions[session_id]] on the [defaultdict(list)]. *)
Definition session_list (self : t) (session_id : string) : list Message :=
  default [] (sessions self !! session_id).

Definition set_sessions (self : t) (s : gmap string (list Message)) : t :=
  {| sessions := s; session_timestamps := session_timestamps self;
     max_history := max_history self; ttl := ttl self |}.

Definition set_timestamps (self : t) (ts : gmap string Z) : t :=
  {| sessions := sessions self; session_timestamps := ts;
     max_history := max_history self; ttl := ttl self |}.

(** [_cleanup_session] *)
Definition cleanup_session (session_id : string) (self : t) : t :=
  {| sessions := delete session_id (sessions self);
     session_timestamps := delete session_id (session_timestamps self);
     max_history := max_history self; ttl := ttl self |}.

End Memory.

(* ===================================================================== *)
(** * The completion capability and the run-time environment *)
(* ===================================================================== *)

Module Runtime.

(** One entry of [response_message.tool_calls]. *)
Record ToolCall := {
  call_id : string;
  function_name : string;
  function_arguments : string
}.

(** [response.choices[0].message] *)
Record ChatMessage := {
  reply_content : string;
  tool_calls : list ToolCall
}.

(** The elements of the [messages] list handed to the completer. *)
Inductive ApiMessage :=
| DictMessage (role content : string)
| AssistantMessage (m : ChatMessage)
| ToolMessage (tool_call_id name content : string).

(** The decoded arguments of a [search_documents] call. *)
Record ToolArgs := {
  arg_query : option string;
  arg_num_results : option Z
}.

(** Calls that leave the process, recorded in the order they are made. *)
Inductive Event :=
| Completion (messages : list ApiMessage) (tools_offered : bool)
| IndexSearch (query : string) (k : option Z).

(** What the program obtains from outside: the configuration, the
    embedder, the distance routine of faiss, the successive readings of
    [time.time()], the successive values of [uuid.uuid4()], the completer
    (its answer may depend on how many external calls came before) and
    [json.loads] on tool arguments. *)
Record Env := {
  settings : Settings;
  embeddings_generator : Embedder;
  distance_kernel : Faiss.DistanceKernel;
  time_at : nat -> Z;
  uuid_at : nat -> string;
  completions_create : nat -> list ApiMessage -> bool -> result ChatMessage;
  json_loads : string -> result ToolArgs
}.

(** The process-wide singletons and the bookkeeping of external calls. *)
Record World := {
  session_memory : Memory.t;
  vector_store : VectorStore.t;
  clock_reads : nat;
  uuid_draws : nat;
  trace : list Event
}.

(** Computations that read and update the world and may raise. *)
Definition M (A : Type) : Type := World -> result A * World.

Definition ret {A} (a : A) : M A := fun w => (Ok a, w).

Definition bind {A B} (m : M A) (f : A -> M B) : M B :=
  fun w =>
    match m w with
    | (Ok a, w') => f a w'
    | (Raise e, w') => (Raise e, w')
    end.

Definition lift_result {A} (r : result A) : M A := fun w => (r, w).

(** Updates of single components of the world. *)
Definition set_memory (m : Memory.t) (w : World) : World :=
  {| session_memory := m; vector_store := vector_store w;
     clock_reads := clock_reads w; uuid_draws := uuid_draws w;
     trace := trace w |}.

Definition tick (w : World) : World :=
  {| session_memory := session_memory w; vector_store := vector_store w;
     clock_reads := S (clock_reads w); uuid_draws := uuid_draws w;
     trace := trace w |}.

Definition drawn (w : World) : World :=
  {| session_memory := session_memory w; vector_store := vector_store w;
     clock_reads := clock_reads w; uuid_draws := S (uuid_draws w);
     trace := trace w |}.

Definition extend_trace (evs : list Event) (w : World) : World :=
  {| session_memory := session_memory w; vector_store := vector_store w;
     clock_reads := clock_reads w; uuid_draws := uuid_draws w;
     trace := trace w ++ evs |}.

Definition get_memory : M Memory.t := fun w => (Ok (session_memory w), w).

Definition put_memory (m : Memory.t) : M unit :=
  fun w => (Ok tt, set_memory m w).

Section WithEnv.
Variable env : Env.

(** [time.time()] *)
Definition time_time : M Z :=
  fun w => (Ok (time_at env (clock_reads w)), tick w).

(** [str(uuid.uuid4())] *)
Definition uuid4 : M string :=
  fun w => (Ok (uuid_at env (uuid_draws w)), drawn w).

End WithEnv.

End Runtime.

Notation "'do' x <- m ; k" := (Runtime.bind m (fun x => k))
(at level 10, x name, m at level 100, k at level 200).
Notation "'run' m ; k" := (Runtime.bind m (fun _ => k))
(at level 10, m at level 100, k at level 200).

(* ===================================================================== *)
(** * app/agent/memory.py: the methods of [SessionMemory] *)
(* ===================================================================== *)

Module SessionMemory.
Import Memory Runtime.

(** [Message.to_dict] keeps the role and the content. *)
Definition to_dict (msg : Message) : ApiMessage :=
  DictMessage (Memory.role msg) (Memory.content msg).

Section WithEnv.
Variable env : Env.

(** [create_session] *)
Definition create_session : M string :=
  do session_id <- uuid4 env;
  do self <- get_memory;
  run put_memory (set_sessions self (<[session_id := []]> (sessions self)));
  do now <- time_time env;
  do self <- get_memory;
  run put_memory
    (set_timestamps self (<[session_id := now]> (session_timestamps self)));
  ret session_id.

(** [_is_session_valid]: the clock is read only for a known session; an
    expired session is removed before [False] is returned. *)
Definition _is_session_valid (session_id : string) : M bool :=
  do self <- get_memory;
  match sessions self !! session_id with
  | None => ret false
  | Some _ =>
      let last_access := default 0 (session_timestamps self !! session_id) in
      do now <- time_time env;
      if ttl self <? now - last_access then
        run put_memory (cleanup_session session_id self);
        ret false
      else ret true
  end.

(** [session_exists] *)
Definition session_exists (session_id : string) : M bool :=
  _is_session_valid session_id.

(** [add_message] *)
Definition add_message (session_id role content : string) : M unit :=
  do valid <- _is_session_valid session_id;
  if negb valid then ret tt
  else
    (* message = Message(role=role, content=content) *)
    do stamp <- time_time env;
    let message :=
      {| Memory.role := role; Memory.content := content;
         timestamp := stamp |} in
    (* self.sessions[session_id].append(message) *)
    do self <- get_memory;
    run put_memory
      (set_sessions self
         (<[session_id := session_list self session_id ++ [message]]>
            (sessions self)));
    (* self.session_timestamps[session_id] = time.time() *)
    do now <- time_time env;
    do self <- get_memory;
    run put_memory
      (set_timestamps self (<[session_id := now]> (session_timestamps self)));
    (* trim history if needed *)
    do self <- get_memory;
    if max_history self * 2 <? Z.of_nat (length (session_list self session_id))
    then
      put_memory
        (set_sessions self
           (<[session_id :=
                trimmed (max_history self) (session_list self session_id)]>
              (sessions self)))
    else ret tt.

(** [get_history] *)
Definition get_history (session_id : string) : M (list ApiMessage) :=
  do valid <- _is_session_valid session_id;
  if negb valid then ret []
  else
    do self <- get_memory;
    ret (map to_dict (session_list self session_id)).

End WithEnv.

End SessionMemory.

(* ===================================================================== *)
(** * app/rag/retriever.py: [DocumentRetriever.retrieve] *)
(* ===================================================================== *)

Module Retrieval.
Import Runtime.

(** The dictionaries built by [retrieve]. *)
Record RetrievedDoc := {
  doc_content : string;
  doc_source : string;
  doc_chunk_id : Z;
  doc_distance : Q
}.

Definition to_retrieved (r : VectorStore.Document * Q) : RetrievedDoc :=
  let '(doc, distance) := r in
  {| doc_content := VectorStore.content doc;
     doc_source :=
       default "unknown" (VectorStore.source (VectorStore.metadata doc));
     doc_chunk_id :=
       default 0 (VectorStore.chunk_id (VectorStore.metadata doc));
     doc_distance := distance |}.

Section WithEnv.
Variable env : Env.

(** [vector_store.search(query, k)] on the shared instance. *)
Definition vector_store_search (query : string) (k : option Z)
    : M (list (VectorStore.Document * Q)) :=
  fun w =>
    (VectorStore.search (kernel := distance_kernel env)
       (settings env) (embeddings_generator env) query k (vector_store w),
     extend_trace [IndexSearch query k] w).

(** [retrieve] *)
Definition retrieve (query : string) (k : option Z) : M (list RetrievedDoc) :=
  do results <- vector_store_search query k;
  ret (map to_retrieved results).

End WithEnv.

End Retrieval.

(* ===================================================================== *)
(** * app/agent/ai_agent.py *)
(* ===================================================================== *)

Module Agent.
Import Runtime Retrieval.

Definition SYSTEM_PROMPT : string :=
"You are a helpful AI assistant with access to company knowledge base. 
    
Your behavior:
- For questions about company policies, products, procedures, or specific factual information, use the search_documents tool to find relevant information before answering.
- For general questions, mathematical calculations, or common knowledge, you can answer directly without searching.
- Always provide clear, concise, and accurate answers.
- If you use information from documents, cite the sources.
- If you cannot find relevant information in the documents, say so clearly.

Remember: Use the search tool when the question requires company-specific information.".

(** The dictionary returned by [process_query]. *)
Record QueryResult := {
  answer : string;
  sources : list string;
  session_id : string
}.

Definition newline : string := String PyStr.nl EmptyString.

(** [f"[Document {i} - {result['source']}]\n{result['content']}\n"] *)
Definition format_result (i : nat) (r : RetrievedDoc) : string :=
  "[Document " +:+ pretty i +:+ " - " +:+ doc_source r +:+ "]" +:+ newline
  +:+ doc_content r +:+ newline.

(** [list(set([doc['source'] for doc in retrieved_docs]))]: the distinct
    sources. The order of a Python set is not specified; the model lists
    them by first occurrence, and only membership is meaningful. *)
Definition distinct_sources (docs : list RetrievedDoc) : list string :=
  remove_dups (map doc_source docs).

Section WithEnv.
Variable env : Env.

(** [self.client.chat.completions.create(...)]: [tools] tells whether
    [tools=self.TOOLS, tool_choice="auto"] is passed. *)
Definition chat_completions_create (messages : list ApiMessage) (tools : bool)
    : M ChatMessage :=
  fun w =>
    (completions_create env (length (trace w)) messages tools,
     extend_trace [Completion messages tools] w).

(** [_search_documents] *)
Definition _search_documents (query : string) (num_results : option Z)
    : M string :=
  do results <- retrieve env query num_results;
  match results with
  | [] => ret "No relevant documents found."
  | _ :: _ =>
      ret (String.concat newline (imap (fun i r => format_result (S i) r) results))
  end.

(** The body of [for tool_call in response_message.tool_calls], on the
    local variables [messages] and [sources]. *)
Definition handle_tool_call (query : string) (tool_call : ToolCall)
    (st : list ApiMessage * list string) : M (list ApiMessage * list string) :=
  let '(messages, sources) := st in
  do function_args <- lift_result (json_loads env (function_arguments tool_call));
  if String.eqb (function_name tool_call) "search_documents" then
    let q := default query (arg_query function_args) in
    let n := Some (default 3 (arg_num_results function_args)) in
    do search_results <- _search_documents q n;
    do retrieved_docs <- retrieve env q n;
    let sources := distinct_sources retrieved_docs in
    ret (messages
           ++ [ToolMessage (call_id tool_call) (function_name tool_call)
                 search_results],
         sources)
  else ret (messages, sources).

Fixpoint handle_tool_calls (query : string) (calls : list ToolCall)
    (st : list ApiMessage * list string) : M (list ApiMessage * list string) :=
  match calls with
  | [] => ret st
  | tool_call :: rest =>
      do st' <- handle_tool_call query tool_call st;
      handle_tool_calls query rest st'
  end.

(** The [else] branch at the head of [process_query]: a new session that
    holds the system prompt. *)
Definition start_session : M string :=
  do sid <- SessionMemory.create_session env;
  run SessionMemory.add_message env sid "system" SYSTEM_PROMPT;
  ret sid.

(** The head of [process_query]: reuse the session when an id is given (a
    non-empty string) and it is valid, else start a new one. *)
Definition resolve_session (session_id : option string) : M string :=
  match session_id with
  | None => start_session
  | Some sid =>
      if PyStr.nonempty sid then
        do known <- SessionMemory.session_exists env sid;
        if known then ret sid else start_session
      else start_session
  end.

(** The completion calls of [process_query] (the [try] block up to the
    choice of [final_answer]), on the local variable [messages]; the
    result is [final_answer] and [sources]. *)
Definition complete_with_tools (query : string) (messages : list ApiMessage)
    : M (string * list string) :=
  do response_message <- chat_completions_create messages true;
  match tool_calls response_message with
  | _ :: _ =>
      (* messages.append(response_message) *)
      let messages := messages ++ [AssistantMessage response_message] in
      do st <- handle_tool_calls query (tool_calls response_message)
                 (messages, []);
      do second_response <- chat_completions_create (fst st) false;
      ret (reply_content second_response, snd st)
  | [] => ret (reply_content response_message, [])
  end.

(** [process_query]. The [try ... except: raise] re-raises, so an
    exception leaves the function with the world as it is then. *)
Definition process_query (query : string) (session_id : option string)
    : M QueryResult :=
  do sid <- resolve_session session_id;
  run SessionMemory.add_message env sid "user" query;
  do messages <- SessionMemory.get_history env sid;
  do outcome <- complete_with_tools query messages;
  run SessionMemory.add_message env sid "assistant" (fst outcome);
  ret {| answer := fst outcome; sources := snd outcome; session_id := sid |}.

End WithEnv.

End Agent.

(* ===================================================================== *)
(** * Predicates used in the statements, and concrete instances *)
(* ===================================================================== *)

Module Invariants.
Import VectorStore.

(** The states of a [VectorStore] that [__init__], [add_documents] and
    [clear] produce: without an index the store is empty and not
    initialised; with an index there is one stored vector per document,
    at least one document, and the store is initialised. *)
Definition store_wf (self : t) : Prop :=
  match index self with
  | None => documents self = [] /\ is_initialized self = false
  | Some ix =>
      Faiss.ntotal ix = length (documents self)
      /\ documents self <> []
      /\ is_initialized self = true
  end.

(** The embedder returns one vector per text. *)
Definition batch_contract (e : Embedder) : Prop :=
  forall texts embeddings,
    generate_embeddings_batch e texts = Ok embeddings ->
    length embeddings = length texts.

(** Order of search hits: by non-decreasing distance. *)
Definition by_distance {A} (a b : A * Q) : Prop := (snd a <= snd b)%Q.

(** Every stored row with its number and its distance to the query; it is
    what [Faiss.candidates] gives when every distance is in range (a
    distance out of range is shown as 0 here). *)
Definition scored {kernel : Faiss.DistanceKernel} (ix : Faiss.IndexFlatL2)
    (q : vector) : list (nat * Q) :=
  imap (fun i v => (i, default 0%Q (Faiss.in_range (Faiss.fvec_L2sqr q v))))
    (Faiss.xb ix).

(** A result slot as [search] reads it: the label as an integer. *)
Definition slot (p : nat * Q) : Z * Q := (Z.of_nat (fst p), snd p).

(** The [n] last elements of a list. *)
Definition last_n {A} (n : nat) (l : list A) : list A :=
  drop (length l - n) l.

(** From the [from]-th reading of the clock on, [n] successive readings
    lie within [ttl] of each other. *)
Definition clock_within (env : Runtime.Env) (ttl : Z) (from n : nat) : Prop :=
  forall i j, (from <= i)%nat -> (i <= j)%nat -> (j < from + n)%nat ->
    Runtime.time_at env j - Runtime.time_at env i <= ttl.

(** A known session that is not expired at the reading [now]. *)
Definition session_live (self : Memory.t) (session_id : string) (now : Z) : Prop :=
  is_Some (Memory.sessions self !! session_id)
  /\ now - default 0 (Memory.session_timestamps self !! session_id)
     <= Memory.ttl self.

(** The instance after the list of a session and its time stamp are
    replaced. *)
Definition stored (session_id : string) (msgs : list Memory.Message) (now : Z)
    (self : Memory.t) : Memory.t :=
  {| Memory.sessions := <[session_id := msgs]> (Memory.sessions self);
     Memory.session_timestamps :=
       <[session_id := now]> (Memory.session_timestamps self);
     Memory.max_history := Memory.max_history self;
     Memory.ttl := Memory.ttl self |}.

(** What a session list [l] retains of the full history [h]: the system
    messages, and a final segment of the other messages that is at least
    [2 * max_history] long when there are that many. *)
Definition retains (max_history : Z) (l h : list Memory.Message) : Prop :=
  Memory.system_messages l = Memory.system_messages h
  /\ Memory.non_system_messages l `suffix_of` Memory.non_system_messages h
  /\ (Nat.min (Z.to_nat (2 * max_history))
        (length (Memory.non_system_messages h))
      <= length (Memory.non_system_messages l))%nat.

(** The list of a session after the messages [ms] are appended one by one,
    each append followed by the trimming test. *)
Fixpoint append_all (max_history : Z) (msgs ms : list Memory.Message)
    : list Memory.Message :=
  match ms with
  | [] => msgs
  | m :: rest =>
      append_all max_history (Memory.trim_history max_history (msgs ++ [m])) rest
  end.

(** Events of the two kinds. *)
Definition is_search (e : Runtime.Event) : Prop :=
  match e with Runtime.IndexSearch _ _ => True | _ => False end.

Definition is_completion (e : Runtime.Event) : bool :=
  match e with Runtime.Completion _ _ => true | _ => false end.

(** The events that may follow the first completion call of a query: the
    index searches of the tool round, then at most one completion call,
    made without the tool schema. *)
Definition tool_round (rest : list Runtime.Event) : Prop :=
  exists searches tail,
    rest = searches ++ tail
    /\ Forall is_search searches
    /\ (tail = [] \/ exists messages, tail = [Runtime.Completion messages false]).

(** The dictionaries with role ["tool"] built in the tool loop. *)
Definition is_tool_message (m : Runtime.ApiMessage) : Prop :=
  match m with Runtime.ToolMessage _ _ _ => True | _ => False end.

(** The working copy of the history after a tool round: the history handed
    to the first completion call, the assistant message that requested the
    tools, then tool results. *)
Definition working_copy (history messages : list Runtime.ApiMessage) : Prop :=
  exists reply tool_messages,
    messages = history ++ Runtime.AssistantMessage reply :: tool_messages
    /\ Forall is_tool_message tool_messages.

(** Every stored message of [w'] was already stored in [w] under the same
    session or satisfies [fresh]. *)
Definition stores_only (fresh : Memory.Message -> Prop) (w w' : Runtime.World)
    : Prop :=
  forall sid m,
    m ∈ Memory.session_list (Runtime.session_memory w') sid ->
    m ∈ Memory.session_list (Runtime.session_memory w) sid \/ fresh m.

(** A message with the given role and content. *)
Definition says (role content : string) (m : Memory.Message) : Prop :=
  Memory.role m = role /\ Memory.content m = content.

(** A step that leaves the index and the record of external calls alone. *)
Definition memory_step (w w' : Runtime.World) : Prop :=
  Runtime.vector_store w' = Runtime.vector_store w
  /\ Runtime.trace w' = Runtime.trace w.

End Invariants.

Module Scenarios.
Import Runtime.

(** [for role, content in items: session_memory.add_message(sid, role, content)] *)
Fixpoint add_messages (env : Env) (session_id : string)
    (items : list (string * string)) : M unit :=
  match items with
  | [] => ret tt
  | (role, content) :: rest =>
      run SessionMemory.add_message env session_id role content;
      add_messages env session_id rest
  end.

(** The messages that [add_messages] builds when the clock has been read
    [reads] times before: each call reads it three times and stamps its
    message with the second reading. *)
Fixpoint stamp_all (env : Env) (reads : nat) (items : list (string * string))
    : list Memory.Message :=
  match items with
  | [] => []
  | (role, content) :: rest =>
      {| Memory.role := role; Memory.content := content;
         Memory.timestamp := time_at env (S reads) |}
      :: stamp_all env (3 + reads) rest
  end.

End Scenarios.

Module Examples.
Import VectorStore.

(** An embedder of dimension [dim]: the length of the text, then zeros. *)
Definition length_vector (dim : nat) (text : string) : vector :=
  take dim (inject_Z (PyStr.len text) :: replicate (dim - 1) 0%Q).

Definition length_embedder (dim : nat) : Embedder :=
  {| generate_embedding := fun text => Ok (length_vector dim text);
     generate_embeddings_batch :=
       fun texts => Ok (map (length_vector dim) texts) |}.

Definition chunk (text src : string) : Document :=
  {| content := text;
     metadata := {| source := Some src; chunk_id := Some 0;
                    total_chunks := Some 1 |} |}.

Definition three_docs : list Document :=
  [chunk "a" "a.txt"; chunk "bb" "b.txt"; chunk "ccc" "c.txt"].

(** A store holding three documents of dimension 1. *)
Definition store3 : t := snd (add_documents (length_embedder 1) three_docs init).

(** A store holding one document of dimension 4. *)
Definition store_dim4 : t :=
  snd (add_documents (length_embedder 4) [chunk "a" "a.txt"] init).

(** ** A run with two tool calls *)

Definition call_a : Runtime.ToolCall :=
  {| Runtime.call_id := "call_1"; Runtime.function_name := "search_documents";
     Runtime.function_arguments := "ARGS_A" |}.

Definition call_b : Runtime.ToolCall :=
  {| Runtime.call_id := "call_2"; Runtime.function_name := "search_documents";
     Runtime.function_arguments := "ARGS_B" |}.

(** The completer asks for two searches when the tools are offered and
    answers in plain text otherwise. *)
Definition two_call_completer (n : nat) (messages : list Runtime.ApiMessage)
    (tools : bool) : result Runtime.ChatMessage :=
  if tools
  then Ok {| Runtime.reply_content := ""; Runtime.tool_calls := [call_a; call_b] |}
  else Ok {| Runtime.reply_content := "final answer"; Runtime.tool_calls := [] |}.

(** The completer answers directly. *)
Definition direct_completer (n : nat) (messages : list Runtime.ApiMessage)
    (tools : bool) : result Runtime.ChatMessage :=
  Ok {| Runtime.reply_content := "4"; Runtime.tool_calls := [] |}.

(** The decoded arguments of the two calls: one result for the query ["a"],
    one result for the query ["bb"]. *)
Definition decode_args (arguments : string) : result Runtime.ToolArgs :=
  if String.eqb arguments "ARGS_A"
  then Ok {| Runtime.arg_query := Some "a"; Runtime.arg_num_results := Some 1 |}
  else if String.eqb arguments "ARGS_B"
  then Ok {| Runtime.arg_query := Some "bb"; Runtime.arg_num_results := Some 1 |}
  else Raise JSONDecodeError.

(** An environment with a clock that stands still. *)
Definition env_with (completer : nat -> list Runtime.ApiMessage -> bool ->
                                 result Runtime.ChatMessage)
    (s : Settings) : Runtime.Env :=
  {| Runtime.settings := s;
     Runtime.embeddings_generator := length_embedder 1;
     Runtime.distance_kernel := Float32.kernel;
     Runtime.time_at := fun _ => 1000;
     Runtime.uuid_at := fun n => "session-" +:+ pretty n;
     Runtime.completions_create := completer;
     Runtime.json_loads := decode_args |}.

Definition two_call_env : Runtime.Env := env_with two_call_completer default_settings.

Definition direct_env : Runtime.Env := env_with direct_completer default_settings.

(** The process after start-up: no session, the three documents indexed. *)
Definition world0 : Runtime.World :=
  {| Runtime.session_memory := Memory.init default_settings;
     Runtime.vector_store := store3;
     Runtime.clock_reads := 0;
     Runtime.uuid_draws := 0;
     Runtime.trace := [] |}.

(** ** Worlds with one session *)

Definition short_settings : Settings :=
  {| session_ttl := 3600; max_conversation_history := 1; top_k_results := 3 |}.

Definition short_env : Runtime.Env := env_with direct_completer short_settings.

Definition message (role content : string) : Memory.Message :=
  {| Memory.role := role; Memory.content := content; Memory.timestamp := 1000 |}.

(** The session ["s"] holds [msgs] and was last active at [stamp]. *)
Definition world_with (s : Settings) (msgs : list Memory.Message) (stamp : Z)
    : Runtime.World :=
  {| Runtime.session_memory :=
       {| Memory.sessions := {[ "s" := msgs ]};
          Memory.session_timestamps := {[ "s" := stamp ]};
          Memory.max_history := max_conversation_history s;
          Memory.ttl := session_ttl s |};
     Runtime.vector_store := store3;
     Runtime.clock_reads := 0;
     Runtime.uuid_draws := 0;
     Runtime.trace := [] |}.

Definition one_exchange : list Memory.Message :=
  [message "user" "a"; message "assistant" "b"].

Definition twenty_five : list (string * string) := replicate 25 ("user", "hi").

End Examples.

(* ===================================================================== *)
(** * app/agent/memory.py: the sweep and the session count *)
(* ===================================================================== *)

Module Sweep.
Import Memory Runtime.

(** [[sid for sid, timestamp in self.session_timestamps.items()
      if current_time - timestamp > self.ttl]]. The order of the items does
    not matter for what follows. *)
Definition expired_sessions (self : Memory.t) (current_time : Z) : list string :=
  map fst
    (List.filter (fun item : string * Z => ttl self <? current_time - snd item)
       (map_to_list (session_timestamps self))).

Section WithEnv.
Variable env : Env.

(** [cleanup_expired_sessions] *)
Definition cleanup_expired_sessions : M unit :=
  do current_time <- time_time env;
  do self <- get_memory;
  put_memory
    (foldl (fun m session_id => cleanup_session session_id m) self
       (expired_sessions self current_time)).

(** [get_session_count] *)
Definition get_session_count : M nat :=
  do self <- get_memory;
  ret (size (sessions self)).

End WithEnv.

End Sweep.

(* ===================================================================== *)
(** * app/rag/embeddings.py: batches sent to the embedding service *)
(* ===================================================================== *)

Module Embeddings.

(** [lst[a:b]] for a Python list. *)
Definition list_slice {A} (l : list A) (a b : Z) : list A :=
  let n := Z.of_nat (length l) in
  let lo := PyStr.clamp_index n a in
  let hi := PyStr.clamp_index n b in
  take (Z.to_nat (hi - lo)) (drop (Z.to_nat lo) l).

(** [range(start, stop, step)] as the list of its values; a zero step
    raises. *)
Definition py_range (start stop step : Z) : result (list Z) :=
  if step =? 0 then Raise ValueError
  else
    let count :=
      if 0 <? step then (stop - start + step - 1) / step
      else (start - stop - step - 1) / (- step) in
    Ok (map (fun j => start + Z.of_nat j * step) (seq 0 (Z.to_nat count))).

(** The attributes of an [EmbeddingsGenerator]: the flag, the local model
    ([model.encode] on one text and on a list) and the service
    ([client.embeddings.create(...)] followed by the extraction of
    [item.embedding] from [response.data]). *)
Record EmbeddingsGenerator := {
  use_local : bool;
  encode : string -> result vector;
  encode_all : list string -> result (list vector);
  embeddings_create : list string -> result (list vector)
}.

(** The [for i in range(0, len(texts), batch_size)] loop of the service
    branch, on the values of [i] still to come. *)
Fixpoint embed_batches (self : EmbeddingsGenerator) (texts : list string)
    (batch_size : Z) (starts : list Z) (embeddings : list vector)
    : result (list vector) :=
  match starts with
  | [] => Ok embeddings
  | i :: rest =>
      let batch := list_slice texts i (i + batch_size) in
      match embeddings_create self batch with
      | Raise e => Raise e
      | Ok batch_embeddings =>
          embed_batches self texts batch_size rest
            (embeddings ++ batch_embeddings)
      end
  end.

(** [generate_embeddings_batch] *)
Definition generate_embeddings_batch (self : EmbeddingsGenerator)
    (texts : list string) (batch_size : Z) : result (list vector) :=
  if use_local self then encode_all self texts
  else
    match py_range 0 (Z.of_nat (length texts)) batch_size with
    | Raise e => Raise e
    | Ok starts => embed_batches self texts batch_size starts []
    end.

(** [generate_embedding]: the service is called with the single text and
    [response.data[0].embedding] is returned. *)
Definition generate_embedding (self : EmbeddingsGenerator) (text : string)
    : result vector :=
  if use_local self then encode self text
  else
    match embeddings_create self [text] with
    | Raise e => Raise e
    | Ok data =>
        match data with
        | v :: _ => Ok v
        | [] => Raise IndexError
        end
    end.

(** The interface the vector store uses: [generate_embeddings_batch] is
    called with the default [batch_size=100]. *)
Definition as_embedder (self : EmbeddingsGenerator) : Embedder :=
  Build_Embedder (generate_embedding self)
    (fun texts => generate_embeddings_batch self texts 100).

End Embeddings.

(* ===================================================================== *)
(** * app/rag/vector_store.py: [save] and [load] *)
(* ===================================================================== *)

Module Persistence.
Import VectorStore.

(** What a file holds: an index written by [faiss.write_index]; the marker
    that [faiss.write_index] writes for [None] in place of an index, and
    that [faiss.read_index] reads back as [None]; a list of documents
    written by [pickle.dump]; a pickle of another object ([sized]: [len]
    accepts the object); or something neither reader accepts. *)
Inductive FileContent :=
| IndexFile (ix : Faiss.IndexFlatL2)
| NullIndexFile
| PickleFile (docs : list Document)
| PickleObject (sized : bool)
| Unreadable.

(** [faiss.read_index] on the content of a file; [None]: it raises. *)
Definition read_index (file : FileContent)
    : option (option Faiss.IndexFlatL2) :=
  match file with
  | IndexFile ix => Some (Some ix)
  | NullIndexFile => Some None
  | _ => None
  end.

(** The files, by path. *)
Abbreviation Disk := (gmap string FileContent).

(** [os.path.join(path, name)] for a relative [name]. *)
Definition path_join (path name : string) : string :=
  match String.rev path with
  | EmptyString => name
  | String c _ =>
      if Ascii.eqb c "/" then path +:+ name else path +:+ "/" +:+ name
  end.

(** [path or settings.vector_store_path] *)
Definition path_or (default : string) (path : option string) : string :=
  match path with
  | Some p => if PyStr.nonempty p then p else default
  | None => default
  end.

(** The outcome of [save]: the disk after the two files are written, for a
    store with an index and for a store whose index is [None], or nothing
    done (the store is not initialised). The directory is taken to exist
    and the writes to succeed. *)
Inductive SaveOutcome :=
| Saved (disk : Disk)
| NotSaved
| SavedNullIndex (disk : Disk).

(** How [load] leaves: it returns [flag] with the instance in the state
    [self]; or it has bound [self.documents] to an unpickled object that is
    not a list of documents and set [is_initialized], a state that
    [VectorStore.t] does not hold: [ix] is the index just read and [flag]
    the value returned. *)
Inductive LoadOutcome :=
| Returned (flag : bool) (self : t)
| ForeignDocuments (flag : bool) (ix : option Faiss.IndexFlatL2).

Section WithSettings.
(** [settings.vector_store_path] *)
Variable vector_store_path : string.

(** [save] *)
Definition save (path : option string) (self : t) (disk : Disk) : SaveOutcome :=
  if negb (is_initialized self) then NotSaved
  else
    let path := path_or vector_store_path path in
    let index_path := path_join path "faiss.index" in
    let docs_path := path_join path "documents.pkl" in
    match index self with
    | None =>
        let disk := <[index_path := NullIndexFile]> disk in
        SavedNullIndex (<[docs_path := PickleFile (documents self)]> disk)
    | Some ix =>
        let disk := <[index_path := IndexFile ix]> disk in
        Saved (<[docs_path := PickleFile (documents self)]> disk)
    end.

(** [load]. The index is assigned before the documents are read, so a
    failure of [pickle.load] leaves the new index with the old documents.
    The documents and the flag are assigned before the log line evaluates
    [len(self.documents)] inside the [try]: on an object without [len] the
    call returns [False] after both assignments. *)
Definition load (path : option string) (self : t) (disk : Disk) : LoadOutcome :=
  let path := path_or vector_store_path path in
  let index_path := path_join path "faiss.index" in
  let docs_path := path_join path "documents.pkl" in
  match disk !! index_path, disk !! docs_path with
  | Some index_file, Some docs_file =>
      match read_index index_file with
      | Some ix =>
          let self1 :=
            {| index := ix; documents := documents self;
               dimension := dimension self;
               is_initialized := is_initialized self |} in
          match docs_file with
          | PickleFile docs =>
              Returned true
                {| index := ix; documents := docs;
                   dimension := dimension self1; is_initialized := true |}
          | PickleObject sized => ForeignDocuments sized ix
          | _ => Returned false self1
          end
      | None => Returned false self
      end
  | _, _ => Returned false self
  end.

End WithSettings.

End Persistence.

(* ===================================================================== *)
(** * app/rag/retriever.py: loading a directory, start-up *)
(* ===================================================================== *)

Module Ingestion.
Import VectorStore Persistence.

(** [filename.endswith(suffix)] *)
Definition endswith (s suffix : string) : bool :=
  String.prefix (String.rev suffix) (String.rev s).

(** A directory as [os.listdir] shows it: the entries in the order they are
    listed, each with its text, or [None] when opening or decoding the file
    raises. *)
Abbreviation Directory := (list (string * option string)).

(** The [Document] objects built for the chunks of one file. *)
Definition chunk_documents (filename : string) (chunks : list string)
    : list Document :=
  imap (fun i chunk =>
          {| content := chunk;
             metadata := {| source := Some filename;
                            chunk_id := Some (Z.of_nat i);
                            total_chunks := Some (Z.of_nat (length chunks)) |} |})
    chunks.

(** The [for filename in os.listdir(directory)] loop. [None]: a call of
    [_split_text] is still running when the fuel is spent. *)
Fixpoint load_entries (fuel : nat) (self : Retriever.DocumentRetriever)
    (entries : Directory) (documents : list Document)
    : option (list Document) :=
  match entries with
  | [] => Some documents
  | (filename, file) :: rest =>
      if endswith filename ".txt" then
        match file with
        | None => load_entries fuel self rest documents
        | Some text =>
            match Retriever._split_text fuel self text with
            | None => None
            | Some chunks =>
                load_entries fuel self rest
                  (documents ++ chunk_documents filename chunks)
            end
        end
      else load_entries fuel self rest documents
  end.

(** [load_documents_from_directory]; the directory is [None] when the path
    does not exist. *)
Definition load_documents_from_directory (fuel : nat)
    (self : Retriever.DocumentRetriever) (directory : option Directory)
    : option (list Document) :=
  match directory with
  | None => Some []
  | Some entries => load_entries fuel self entries []
  end.

(** What [initialize_vector_store] leaves: the outcome of the call, the
    shared store and the disk. *)
Record StartUp := {
  outcome : result unit;
  store : VectorStore.t;
  disk : Disk
}.

(** The start-up ends in such a state, or [load] has left the shared
    instance with documents that are not a list of documents: what the
    start-up does then depends on that object and is not followed. *)
Inductive StartUpOutcome :=
| Started (s : StartUp)
| OnForeignDocuments.

(** [initialize_vector_store]. [None]: the chunker does not return. *)
Definition initialize_vector_store (fuel : nat)
    (self : Retriever.DocumentRetriever) (vector_store_path : string)
    (emb : Embedder) (directory : option Directory)
    (vector_store : VectorStore.t) (files : Disk) : option StartUpOutcome :=
  match load vector_store_path None vector_store files with
  | ForeignDocuments _ _ => Some OnForeignDocuments
  | Returned true store1 =>
      Some (Started {| outcome := Ok tt; store := store1; disk := files |})
  | Returned false store1 =>
      match load_documents_from_directory fuel self directory with
      | None => None
      | Some [] =>
          Some (Started {| outcome := Ok tt; store := store1; disk := files |})
      | Some (doc :: docs) =>
          match add_documents emb (doc :: docs) store1 with
          | (Raise e, store2) =>
              Some (Started {| outcome := Raise e; store := store2;
                               disk := files |})
          | (Ok _, store2) =>
              match save vector_store_path None store2 files with
              | Saved files' | SavedNullIndex files' =>
                  Some (Started {| outcome := Ok tt; store := store2;
                                   disk := files' |})
              | NotSaved =>
                  Some (Started {| outcome := Ok tt; store := store2;
                                   disk := files |})
              end
          end
      end
  end.

End Ingestion.

(* ===================================================================== *)
(** * app/config.py: credentials *)
(* ===================================================================== *)

Module Config.

(** The credential fields of [Settings]; an unset variable is [None]. *)
Record Credentials := {
  openai_api_key : option string;
  openai_model : string;
  azure_openai_endpoint : option string;
  azure_openai_api_key : option string;
  azure_openai_deployment_name : option string
}.

(** Truthiness of an optional string. *)
Definition truthy (v : option string) : bool :=
  match v with
  | Some s => PyStr.nonempty s
  | None => false
  end.

(** The validator [empty_str_to_none]. *)
Definition empty_str_to_none (v : option string) : option string :=
  match v with
  | Some EmptyString => None
  | _ => v
  end.

(** The checks of [Settings.__init__]. *)
Definition validate (c : Credentials) : result Credentials :=
  let has_openai := truthy (openai_api_key c) in
  let has_azure :=
    truthy (azure_openai_endpoint c) && truthy (azure_openai_api_key c) in
  if negb has_openai && negb has_azure then Raise ValueError
  else if truthy (azure_openai_endpoint c)
          && negb (truthy (azure_openai_api_key c))
  then Raise ValueError
  else Ok c.

(** The property [is_azure_openai]. *)
Definition is_azure_openai (c : Credentials) : bool :=
  truthy (azure_openai_endpoint c) && truthy (azure_openai_api_key c).

(** [s.rstrip('/')] *)
Fixpoint lstrip_slash (s : string) : string :=
  match s with
  | EmptyString => EmptyString
  | String c r => if Ascii.eqb c "/" then lstrip_slash r else s
  end.

Definition rstrip_slash (s : string) : string :=
  String.rev (lstrip_slash (String.rev s)).

(** What [AIAgent.__init__] passes to the client and keeps as model. *)
Record ClientSetup := {
  api_key : option string;
  base_url : option string;
  model : string
}.

(** [x or default] on an optional string. *)
Definition or_default (v : option string) (default : string) : string :=
  match v with
  | Some s => if PyStr.nonempty s then s else default
  | None => default
  end.

(** [AIAgent.__init__] *)
Definition agent_setup (c : Credentials) : ClientSetup :=
  if is_azure_openai c then
    {| api_key := azure_openai_api_key c;
       base_url :=
         Some (rstrip_slash (default EmptyString (azure_openai_endpoint c))
               +:+ "/openai/v1");
       model := or_default (azure_openai_deployment_name c) "gpt-4" |}
  else
    {| api_key := openai_api_key c;
       base_url := None;
       model := openai_model c |}.

End Config.

(* ===================================================================== *)
(** * app/api/routes.py and app/models.py *)
(* ===================================================================== *)

Module Routes.
Import Runtime Agent.

(** [QueryRequest] *)
Record QueryRequest := {
  query : string;
  request_session_id : option string
}.

(** [Field(..., min_length=1, max_length=2000)] on [query]. *)
Definition valid_request (request : QueryRequest) : bool :=
  (1 <=? PyStr.len (query request)) && (PyStr.len (query request) <=? 2000).

(** The responses of the [/ask] route: the body of a 200, the validation
    error raised before the handler runs, and the 500 built from an
    exception of the agent. *)
Inductive Response :=
| Answered (body : QueryResult)
| Unprocessable
| ServerError (e : exn).

Section WithEnv.
Variable env : Env.

(** The [/ask] route with the validation of its request model. *)
Definition ask_question (request : QueryRequest) (w : World) : Response * World :=
  if valid_request request then
    match process_query env (query request) (request_session_id request) w with
    | (Ok body, w') => (Answered body, w')
    | (Raise e, w') => (ServerError e, w')
    end
  else (Unprocessable, w).

(** The field [vector_store_initialized] of the [/health] response. *)
Definition health_check (w : World) : bool :=
  VectorStore.is_initialized (vector_store w).

End WithEnv.

End Routes.

(* ===================================================================== *)
(** * Further predicates on texts and chunks *)
(* ===================================================================== *)

Module Shapes.

(** The first character, if any, is not white space. *)
Definition starts_clean (s : string) : Prop :=
  match s with
  | String c _ => PyStr.is_space c = false
  | EmptyString => True
  end.

(** The last character, if any, is not white space. *)
Definition ends_clean (s : string) : Prop := starts_clean (String.rev s).

(** What [_split_text] promises of a chunk: not empty, nothing to strip. *)
Definition clean_chunk (s : string) : Prop :=
  s <> EmptyString /\ starts_clean s /\ ends_clean s.

(** A text without any space and without any line feed: none of the three
    boundary searches of the chunker can succeed in it. *)
Definition boundary_free (text : string) : Prop :=
  forall i c, String.get i text = Some c -> c <> " "%char /\ c <> PyStr.nl.

End Shapes.

(* ===================================================================== *)
(** * Further predicates on answers *)
(* ===================================================================== *)

Module Citations.

(** The source under which [retrieve] reports a document. *)
Definition reported_source (doc : VectorStore.Document) : string :=
  default "unknown" (VectorStore.source (VectorStore.metadata doc)).

(** A list of sources without repetition, each the reported source of a
    document of the store. *)
Definition cites (store : VectorStore.t) (sources : list string) : Prop :=
  NoDup sources
  /\ forall src,
       src ∈ sources ->
       exists doc,
         doc ∈ VectorStore.documents store /\ reported_source doc = src.

End Citations.

(* ===================================================================== *)
(** * Further predicates on loaded documents *)
(* ===================================================================== *)

Module Provenance.
Import VectorStore.

(** The documents that one entry of the directory contributes. *)
Definition entry_documents (fuel : nat) (self : Retriever.DocumentRetriever)
    (entry : string * option string) : list Document :=
  match entry with
  | (filename, Some text) =>
      if Ingestion.endswith filename ".txt"
      then Ingestion.chunk_documents filename
             (default [] (Retriever._split_text fuel self text))
      else []
  | (_, None) => []
  end.

(** A document cut from a readable [.txt] entry of the directory: its
    content is one of the chunks into which [_split_text] cuts the text of
    that file, and its metadata carries the name of the file, the position
    of the chunk among them and their number. *)
Definition from_directory (fuel : nat) (self : Retriever.DocumentRetriever)
    (entries : Ingestion.Directory) (doc : Document) : Prop :=
  exists filename text chunks i,
    (filename, Some text) ∈ entries
    /\ Ingestion.endswith filename ".txt" = true
    /\ Retriever._split_text fuel self text = Some chunks
    /\ chunks !! i = Some (content doc)
    /\ metadata doc
       = {| source := Some filename; chunk_id := Some (Z.of_nat i);
            total_chunks := Some (Z.of_nat (length chunks)) |}.

End Provenance.

(* ===================================================================== *)
(** * The index searches of a tool round *)
(* ===================================================================== *)

Module ToolRound.
Import Runtime.

(** The index searches that one tool call makes when it is handled without
    an exception: [_search_documents] searches once for the text handed to
    the completer, and [retrieve] is called again for the sources. *)
Definition searches_of_call (env : Env) (query : string) (tool_call : ToolCall)
    : list Event :=
  match json_loads env (function_arguments tool_call) with
  | Ok args =>
      if String.eqb (function_name tool_call) "search_documents" then
        let q := default query (arg_query args) in
        let n := Some (default 3 (arg_num_results args)) in
        [IndexSearch q n; IndexSearch q n]
      else []
  | Raise _ => []
  end.

Definition searches_of_calls (env : Env) (query : string)
    (calls : list ToolCall) : list Event :=
  flat_map (searches_of_call env query) calls.

End ToolRound.

(* ===================================================================== *)
(** * Further concrete instances *)
(* ===================================================================== *)

Module Cases.

(** The process before any document is indexed. *)
Definition world_without_index : Runtime.World :=
  {| Runtime.session_memory := Memory.init default_settings;
     Runtime.vector_store := VectorStore.init;
     Runtime.clock_reads := 0;
     Runtime.uuid_draws := 0;
     Runtime.trace := [] |}.

(** A completer that is out of service. *)
Definition failing_completer (n : nat) (messages : list Runtime.ApiMessage)
    (tools : bool) : result Runtime.ChatMessage :=
  Raise (ServiceError "completer unavailable").

Definition failing_env : Runtime.Env :=
  Examples.env_with failing_completer default_settings.

(** An environment whose clock jumps far ahead after its first reading. *)
Definition jumping_env : Runtime.Env :=
  {| Runtime.settings := default_settings;
     Runtime.embeddings_generator := Examples.length_embedder 1;
     Runtime.distance_kernel := Float32.kernel;
     Runtime.time_at := fun n => match n with O => 1000 | S _ => 10000 end;
     Runtime.uuid_at := fun n => "session-" +:+ pretty n;
     Runtime.completions_create := Examples.direct_completer;
     Runtime.json_loads := Examples.decode_args |}.

(** A generator that uses the service; the service embeds each text of a
    batch by its length. *)
Definition cloud_generator : Embeddings.EmbeddingsGenerator :=
  {| Embeddings.use_local := false;
     Embeddings.encode := fun text => Raise (ServiceError "no local model");
     Embeddings.encode_all := fun texts => Raise (ServiceError "no local model");
     Embeddings.embeddings_create :=
       fun batch => Ok (map (Examples.length_vector 2) batch) |}.

Definition five_texts : list string := ["a"; "bb"; "ccc"; "dddd"; "eeeee"].

(** A disk that holds nothing. *)
Definition empty_disk : Persistence.Disk := ∅.

(** A small chunker and a directory with two text files, a file of another
    kind and a text file that cannot be read. *)
Definition small_retriever : Retriever.DocumentRetriever :=
  {| Retriever.chunk_size := 10; Retriever.chunk_overlap := 2 |}.

Definition small_directory : Ingestion.Directory :=
  [("a.txt", Some "hello world. this is a test");
   ("notes.md", Some "not indexed");
   ("b.txt", None);
   ("c.txt", Some "short")].

(** The first start-up of a process with that directory and no file on
    disk. *)
Definition first_start : option Ingestion.StartUpOutcome :=
  Ingestion.initialize_vector_store 10 small_retriever "./data/vector_store"
    (Examples.length_embedder 2) (Some small_directory) VectorStore.init
    empty_disk.

(** What that start-up leaves (the initial state when it does not
    return). *)
Definition after_first_start : Ingestion.StartUp :=
  match first_start with
  | Some (Ingestion.Started s) => s
  | _ => {| Ingestion.outcome := Ok tt; Ingestion.store := VectorStore.init;
            Ingestion.disk := empty_disk |}
  end.

(** Credentials with an OpenAI key only, and with both Azure settings. *)
Definition openai_only : Config.Credentials :=
  {| Config.openai_api_key := Some "sk-test";
     Config.openai_model := "gpt-4-turbo-preview";
     Config.azure_openai_endpoint := None;
     Config.azure_openai_api_key := None;
     Config.azure_openai_deployment_name := None |}.

Definition azure_pair : Config.Credentials :=
  {| Config.openai_api_key := None;
     Config.openai_model := "gpt-4-turbo-preview";
     Config.azure_openai_endpoint := Some "https://example.test//";
     Config.azure_openai_api_key := Some "azure-key";
     Config.azure_openai_deployment_name := None |}.

(** A disk whose documents file is damaged. *)
Definition damaged_disk : Persistence.Disk :=
  {[ "store/faiss.index" := Persistence.IndexFile (Faiss.new 4);
     "store/documents.pkl" := Persistence.Unreadable ]}.

(** A configuration that asks for no history:
    [MAX_CONVERSATION_HISTORY=0]. *)
Definition no_history_settings : Settings :=
  {| session_ttl := 3600; max_conversation_history := 0; top_k_results := 3 |}.

Definition no_history_env : Runtime.Env :=
  Examples.env_with Examples.direct_completer no_history_settings.

(** An embedder with one large component: the text ["a"] is embedded as
    [[2^64]], every other text as [[0]]. *)
Definition wide_vector (text : string) : vector :=
  if String.eqb text "a" then [inject_Z (2 ^ 64)] else [0%Q].

Definition wide_embedder : Embedder :=
  {| generate_embedding := fun text => Ok (wide_vector text);
     generate_embeddings_batch := fun texts => Ok (map wide_vector texts) |}.

Definition wide_store : VectorStore.t :=
  snd (VectorStore.add_documents wide_embedder
         [Examples.chunk "a" "a.txt"; Examples.chunk "bb" "b.txt"]
         VectorStore.init).

(** A disk whose documents file holds a pickled integer. *)
Definition foreign_disk : Persistence.Disk :=
  {[ "store/faiss.index" := Persistence.IndexFile (Faiss.new 4);
     "store/documents.pkl" := Persistence.PickleObject false ]}.

End Cases.

(* ===================================================================== *)
(** * Facts about the chunker *)
(* ===================================================================== *)

Section ChunkerFacts.
Import PyStr Retriever.

Lemma split_loop_eq fuel self text st :
  split_loop fuel self text st =
  if fst st <? len text then
    match fuel with
    | O => None
    | S f => split_loop f self text (split_step self text st)
    end
  else Some (snd st).
Proof. destruct fuel; reflexivity. Qed.

Lemma split_step_fst self text start chunks :
  fst (split_step self text (start, chunks)) = iter_next self text start.
Proof. reflexivity. Qed.

(** A loop whose start position comes back to itself never leaves. *)
Lemma split_loop_fixed_start self text start :
  start < len text ->
  iter_next self text start = start ->
  forall fuel chunks, split_loop fuel self text (start, chunks) = None.
Proof.
  intros Hlt Hnext fuel.
  induction fuel as [|fuel IH]; intros chunks; rewrite split_loop_eq; cbn [fst].
  - apply Z.ltb_lt in Hlt. now rewrite Hlt.
  - apply Z.ltb_lt in Hlt. rewrite Hlt.
    destruct (split_step self text (start, chunks)) as [s' c'] eqn:E.
    assert (s' = start) as ->.
    { rewrite <- Hnext, <- (split_step_fst self text start chunks), E.
      reflexivity. }
    apply IH.
Qed.

Lemma stuck_text_len : len stuck_text = 2200.
Proof. vm_compute. reflexivity. Qed.

Lemma stuck_text_next : iter_next default_retriever stuck_text 0 = 0.
Proof. vm_compute. reflexivity. Qed.

(** The first iteration on [stuck_text] cuts at the paragraph break. *)
Lemma stuck_text_end : iter_end default_retriever stuck_text 0 = 200.
Proof. vm_compute. reflexivity. Qed.

(** ** Bounds on [rfind] *)

Lemma rfind_scan_range s sub lo cnt :
  rfind_scan s sub lo cnt = -1 \/
  (Z.of_nat lo <= rfind_scan s sub lo cnt < Z.of_nat lo + Z.of_nat cnt).
Proof.
  induction cnt as [|c IH]; cbn [rfind_scan].
  - now left.
  - destruct (String.eqb _ sub).
    + right. lia.
    + destruct IH as [IH|IH]; [now left | right; lia].
Qed.

Lemma rfind_range s sub start end_ :
  rfind s sub start end_ = -1 \/
  (adjust_start (len s) start <= rfind s sub start end_
   /\ rfind s sub start end_ + len sub <= adjust_end (len s) end_).
Proof.
  unfold rfind.
  destruct (Z.ltb_spec (adjust_end (len s) end_ - adjust_start (len s) start)
              (len sub)) as [Hlt|Hge]; [now left|].
  assert (0 <= adjust_start (len s) start) as Ha.
  { unfold adjust_start. destruct (Z.ltb_spec start 0); lia. }
  destruct (rfind_scan_range s sub (Z.to_nat (adjust_start (len s) start))
              (Z.to_nat (adjust_end (len s) end_ - adjust_start (len s) start
                         - len sub + 1))) as [H|H]; [now left | right].
  rewrite !Z2Nat.id in H by lia. lia.
Qed.

Lemma len_nonneg s : 0 <= len s.
Proof. unfold len. lia. Qed.

(** A hit of a non-empty pattern below an in-range [end] stays inside the
    text. *)
Lemma rfind_hit_inside s sub start end_ :
  0 < len sub -> end_ < len s ->
  rfind s sub start end_ <> -1 ->
  rfind s sub start end_ + len sub < len s.
Proof.
  intros Hsub Hend Hhit.
  destruct (rfind_range s sub start end_) as [H|[Ha Hb]]; [contradiction|].
  assert (0 <= adjust_start (len s) start) as Ha0.
  { unfold adjust_start. destruct (Z.ltb_spec start 0); lia. }
  unfold adjust_end in Hb.
  destruct (Z.ltb_spec (len s) end_); [lia|].
  destruct (Z.ltb_spec end_ 0); lia.
Qed.

(** Snapping never moves [end] to or past the end of the text. *)
Lemma snap_end_inside text start end_ :
  end_ < len text -> snap_end text start end_ < len text.
Proof.
  intros Hend. unfold snap_end.
  apply Z.ltb_lt in Hend as Hb. rewrite Hb.
  assert (len para = 2) as Hp by reflexivity.
  assert (len ". " = 2) as Hd by reflexivity.
  assert (len " " = 1) as Hs by reflexivity.
  repeat match goal with
  | |- context [negb (?r =? -1) && _] =>
      let E := fresh "E" in
      destruct (Z.eqb_spec r (-1)) as [E|E]; cbn [negb andb]
  | |- context [if ?a <? ?b then _ else _] =>
      destruct (Z.ltb_spec a b)
  end; try lia.
  all: match goal with
       | |- rfind ?t ?sub ?a ?b + _ < _ =>
           pose proof (rfind_hit_inside t sub a b); lia
       end.
Qed.

(** With an overlap that is not smaller than the chunk size the loop keeps
    [start + chunk_size] below the length of the text for ever. *)
Lemma iter_next_large_overlap self text start :
  0 <= chunk_size self <= chunk_overlap self ->
  start + chunk_size self < len text ->
  iter_next self text start + chunk_size self < len text.
Proof.
  intros Hcfg Hinv. unfold iter_next, iter_end.
  pose proof (snap_end_inside text start (start + chunk_size self) Hinv) as Hs.
  apply Z.ltb_lt in Hs as Hb. rewrite Hb. lia.
Qed.

Lemma split_loop_large_overlap self text :
  0 <= chunk_size self <= chunk_overlap self ->
  forall fuel start chunks,
    start + chunk_size self < len text ->
    split_loop fuel self text (start, chunks) = None.
Proof.
  intros Hcfg fuel.
  induction fuel as [|fuel IH]; intros start chunks Hinv;
    rewrite split_loop_eq; cbn [fst];
    (assert ((start <? len text) = true) as -> by (apply Z.ltb_lt; lia)).
  - reflexivity.
  - destruct (split_step self text (start, chunks)) as [s' c'] eqn:E.
    apply IH.
    assert (s' = iter_next self text start) as ->.
    { rewrite <- (split_step_fst self text start chunks), E. reflexivity. }
    now apply iter_next_large_overlap.
Qed.

(** Whenever [chunk_overlap >= chunk_size] and the text is longer than one
    chunk, [_split_text] does not return. *)
Lemma split_text_diverges_large_overlap self text :
  0 <= chunk_size self <= chunk_overlap self ->
  chunk_size self < len text ->
  forall fuel, _split_text fuel self text = None.
Proof.
  intros Hcfg Hlen fuel. unfold _split_text.
  apply split_loop_large_overlap; [assumption | lia].
Qed.

(** On a text of 2500 letters without any boundary the default
    configuration yields three chunks, of 1000, 1000 and 900 letters. *)
Example split_text_2500 :
  option_map (map String.length)
    (_split_text 3 default_retriever (replicate_char 2500 "a"))
  = Some [1000; 1000; 900]%nat.
Proof. vm_compute. reflexivity. Qed.

Example split_text_empty : _split_text 0 default_retriever "" = Some [].
Proof. reflexivity. Qed.

(** C2 (the code at a failing input). With the default configuration
    (chunk size 1000, overlap 200) and a text whose only paragraph break
    ends at position 200, the first iteration snaps [end] to 200 and sets
    [start] back to 0: the start position does not increase and the loop
    is still running after any number of iterations. *)
Theorem split_text_default_config_diverges :
  Retriever.iter_next Retriever.default_retriever Retriever.stuck_text 0 = 0
  /\ forall fuel,
       Retriever._split_text fuel Retriever.default_retriever
         Retriever.stuck_text = None.
Proof.
  split; [exact stuck_text_next|].
  intros fuel. unfold _split_text.
  apply split_loop_fixed_start.
  - rewrite stuck_text_len. lia.
  - exact stuck_text_next.
Qed.

End ChunkerFacts.

(* ===================================================================== *)
(** * Facts about the vector store *)
(* ===================================================================== *)

Section VectorStoreFacts.
Import VectorStore Invariants.

(** ** numpy and faiss *)

Lemma np_array_Ok embeddings arr :
  Faiss.np_array embeddings = Ok arr ->
  (embeddings = [] /\ arr = Faiss.Array1D_empty)
  \/ (exists cols, arr = Faiss.Array2D cols embeddings
                   /\ embeddings <> []
                   /\ Forall (fun v => length v = cols) embeddings).
Proof.
  unfold Faiss.np_array. destruct embeddings as [|v rest].
  - intros [= <-]. now left.
  - destruct (forallb _ _) eqn:E; [|discriminate].
    intros [= <-]. right. exists (length v). repeat split; [discriminate|].
    apply Forall_forall. intros w Hw.
    rewrite forallb_forall in E. apply list_elem_of_In in Hw.
    apply E in Hw. now apply Nat.eqb_eq in Hw.
Qed.

Lemma np_array_Raise embeddings e :
  Faiss.np_array embeddings = Raise e -> e = ValueError.
Proof.
  unfold Faiss.np_array. destruct embeddings as [|v rest]; [discriminate|].
  destruct (forallb _ _); [discriminate | now intros [= <-]].
Qed.

(** A batch containing a vector of the wrong length is not accepted by an
    index of dimension [d]. *)
Lemma faiss_add_mismatch ix embeddings arr :
  Faiss.np_array embeddings = Ok arr ->
  Exists (fun v => length v <> Faiss.d ix) embeddings ->
  exists e, (e = ValueError \/ e = AssertionError) /\ Faiss.add ix arr = Raise e.
Proof.
  intros Harr Hbad.
  destruct (np_array_Ok _ _ Harr) as [[-> ->]|(cols & -> & _ & Hall)].
  - exists ValueError. split; [now left | reflexivity].
  - cbn [Faiss.add]. destruct (Nat.eqb_spec cols (Faiss.d ix)) as [->|Hne].
    + exfalso. apply Exists_exists in Hbad as (v & Hv & Hlen).
      rewrite Forall_forall in Hall. now apply Hlen, Hall.
    + exists AssertionError. split; [now right | reflexivity].
Qed.

(** C3. Whatever the earlier calls were, once the store has an index (its
    dimension was fixed by the first batch), [add_documents] on a non-empty
    batch for which the embedder yields a vector of another length raises
    (the dimension assertion of the index, or numpy's error when the batch
    is ragged), and the instance (documents, index, dimension, flag) is what
    it was. *)
Theorem add_documents_dimension_mismatch_rejected
    (emb : Embedder) (docs : list Document) (self : t)
    (ix : Faiss.IndexFlatL2) (embeddings : list vector) :
  index self = Some ix ->
  docs <> [] ->
  generate_embeddings_batch emb (map content docs) = Ok embeddings ->
  Exists (fun v => length v <> Faiss.d ix) embeddings ->
  exists e,
    (e = ValueError \/ e = AssertionError)
    /\ add_documents emb docs self = (Raise e, self).
Proof.
  intros Hix Hdocs Hemb Hbad. unfold add_documents.
  destruct docs as [|doc docs']; [contradiction|].
  rewrite Hemb.
  destruct (Faiss.np_array embeddings) as [arr|e] eqn:Harr.
  - rewrite Hix.
    destruct (faiss_add_mismatch ix embeddings arr Harr Hbad) as (e & He & ->).
    now exists e.
  - exists e. split; [left; now apply np_array_Raise with embeddings | reflexivity].
Qed.

(** The store built with dimension 4 rejects a batch of dimension 3. *)
Lemma add_documents_dimension_mismatch_witness :
  exists e,
    (e = ValueError \/ e = AssertionError)
    /\ add_documents (Examples.length_embedder 3) Examples.three_docs
         Examples.store_dim4
       = (Raise e, Examples.store_dim4).
Proof.
  apply (add_documents_dimension_mismatch_rejected
           (Examples.length_embedder 3) Examples.three_docs
           Examples.store_dim4
           {| Faiss.d := 4; Faiss.xb := [Examples.length_vector 4 "a"] |}
           (map (Examples.length_vector 3) (map content Examples.three_docs))).
  - vm_compute. reflexivity.
  - discriminate.
  - reflexivity.
  - apply Exists_cons_hd. vm_compute. lia.
Defined.

(** A successful call keeps the dimension of an existing index. *)
Lemma add_documents_keeps_index_dimension emb docs self ix r self' :
  index self = Some ix ->
  add_documents emb docs self = (r, self') ->
  exists ix', index self' = Some ix' /\ Faiss.d ix' = Faiss.d ix.
Proof.
  intros Hix. unfold add_documents.
  destruct docs as [|doc docs']; [intros [= <- <-]; eauto|].
  destruct (generate_embeddings_batch emb _) as [embeddings|e];
    [|intros [= <- <-]; eauto].
  destruct (Faiss.np_array embeddings) as [arr|e];
    [|intros [= <- <-]; eauto].
  rewrite Hix.
  destruct arr as [|cols rows]; cbn [Faiss.add]; [intros [= <- <-]; eauto|].
  destruct (Nat.eqb cols (Faiss.d ix)); intros [= <- <-]; cbn; eauto.
Qed.

(** The first accepted batch fixes the dimension: both the index and the
    [dimension] attribute take the common length of its vectors. *)
Lemma add_documents_first_batch emb docs self embeddings cols :
  index self = None ->
  docs <> [] ->
  generate_embeddings_batch emb (map content docs) = Ok embeddings ->
  embeddings <> [] ->
  Forall (fun v => length v = cols) embeddings ->
  add_documents emb docs self =
  (Ok tt,
   {| index := Some {| Faiss.d := cols; Faiss.xb := embeddings |};
      documents := documents self ++ docs;
      dimension := Some cols;
      is_initialized := true |}).
Proof.
  intros Hix Hdocs Hemb Hne Hall. unfold add_documents.
  destruct docs as [|doc docs']; [contradiction|].
  rewrite Hemb, Hix.
  assert (Faiss.np_array embeddings = Ok (Faiss.Array2D cols embeddings)) as ->.
  { unfold Faiss.np_array. destruct embeddings as [|v rest]; [contradiction|].
    inversion Hall as [|? ? Hv Hrest]; subst.
    assert (forallb (fun w => Nat.eqb (length w) (length v)) (v :: rest) = true)
      as ->; [|reflexivity].
    apply forallb_forall. intros w Hw. apply Nat.eqb_eq.
    apply list_elem_of_In in Hw. rewrite Forall_forall in Hall.
    now apply Hall. }
  cbn. rewrite Nat.eqb_refl. reflexivity.
Qed.

(** C10. [add_documents] on an empty list returns at once: the document
    list, the index, the dimension and the flag are the ones of the
    instance before the call (an uninitialised store stays so). *)
Theorem add_documents_empty_is_noop (emb : Embedder) (self : t) :
  add_documents emb [] self = (Ok tt, self)
  /\ documents (snd (add_documents emb [] self)) = documents self
  /\ index (snd (add_documents emb [] self)) = index self
  /\ dimension (snd (add_documents emb [] self)) = dimension self
  /\ is_initialized (snd (add_documents emb [] self)) = is_initialized self.
Proof. repeat split. Qed.

(** ** [clear] *)

(** After [clear] nothing is stored and there is no index, so the next
    accepted batch fixes the dimension anew. *)
Lemma clear_then_add_fixes_fresh_dimension emb docs self embeddings cols :
  documents (clear self) = []
  /\ index (clear self) = None
  /\ is_initialized (clear self) = false
  /\ (docs <> [] ->
      generate_embeddings_batch emb (map content docs) = Ok embeddings ->
      embeddings <> [] ->
      Forall (fun v => length v = cols) embeddings ->
      add_documents emb docs (clear self) =
      (Ok tt,
       {| index := Some {| Faiss.d := cols; Faiss.xb := embeddings |};
          documents := docs;
          dimension := Some cols;
          is_initialized := true |})).
Proof.
  repeat split. intros Hdocs Hemb Hne Hall.
  now rewrite (add_documents_first_batch emb docs (clear self) embeddings cols).
Qed.

(** [clear] does not touch the [dimension] attribute. *)
Lemma clear_dimension self : dimension (clear self) = dimension self.
Proof. reflexivity. Qed.

(** C9 (the code at a failing input). A store whose first batch had
    dimension 4 still records [dimension = 4] after [clear], whereas a new
    instance records none; the documents and the index are dropped. *)
Theorem clear_leaves_dimension_attribute :
  VectorStore.dimension Examples.store_dim4 = Some 4%nat
  /\ VectorStore.dimension (VectorStore.clear Examples.store_dim4) = Some 4%nat
  /\ VectorStore.dimension VectorStore.init = None
  /\ VectorStore.documents (VectorStore.clear Examples.store_dim4) = []
  /\ VectorStore.index (VectorStore.clear Examples.store_dim4) = None.
Proof. repeat split. Qed.

(** ** Well-formed stores *)

Lemma store_wf_init : store_wf init.
Proof. now split. Qed.

Lemma store_wf_clear self : store_wf (clear self).
Proof. now split. Qed.

Lemma store_wf_add_documents emb docs self :
  batch_contract emb -> store_wf self ->
  store_wf (snd (add_documents emb docs self)).
Proof.
  intros Hc Hwf. unfold add_documents.
  destruct docs as [|doc docs']; [exact Hwf|].
  destruct (generate_embeddings_batch emb _) as [embeddings|e] eqn:Hemb;
    [|exact Hwf].
  apply Hc in Hemb as Hlen. rewrite length_map in Hlen.
  destruct (Faiss.np_array embeddings) as [arr|e] eqn:Harr; [|exact Hwf].
  destruct (np_array_Ok _ _ Harr) as [[-> ->]|(cols & -> & _ & Hall)];
    [discriminate|].
  unfold store_wf in Hwf |- *.
  destruct (index self) as [ix|] eqn:Hix; cbn.
  - destruct (Nat.eqb cols (Faiss.d ix)); cbn; [|now rewrite Hix].
    destruct Hwf as (Hn & Hd & Hi). unfold Faiss.ntotal in *. cbn.
    rewrite !length_app, Hn, Hlen. repeat split.
    intros Heq. apply app_eq_nil in Heq as [_ ?]. discriminate.
  - rewrite Nat.eqb_refl. cbn. destruct Hwf as (Hd & Hi).
    unfold Faiss.ntotal. cbn. rewrite Hd, Hlen. repeat split.
    discriminate.
Qed.

End VectorStoreFacts.

(* ===================================================================== *)
(** * Facts about similarity search *)
(* ===================================================================== *)

Section SearchFacts.
Import VectorStore Invariants.
Context {kernel : Faiss.DistanceKernel}.

(** ** The flat index *)

Lemma insert_by_distance_Permutation x l :
  Faiss.insert_by_distance x l ≡ₚ x :: l.
Proof.
  induction l as [|y r IH]; cbn; [reflexivity|].
  destruct (Qle_bool (snd x) (snd y)); [reflexivity|].
  rewrite IH. apply Permutation_swap.
Qed.

Lemma sort_by_distance_Permutation l : Faiss.sort_by_distance l ≡ₚ l.
Proof.
  induction l as [|x l IH]; cbn; [reflexivity|].
  fold (Faiss.sort_by_distance l).
  now rewrite insert_by_distance_Permutation, IH.
Qed.

Lemma insert_by_distance_sorted x l :
  StronglySorted by_distance l ->
  StronglySorted by_distance (Faiss.insert_by_distance x l).
Proof.
  induction 1 as [|y r Hr IH Hy]; cbn.
  - repeat constructor.
  - destruct (Qle_bool (snd x) (snd y)) eqn:E.
    + apply Qle_bool_iff in E.
      constructor; [now constructor|].
      constructor; [exact E|].
      eapply Forall_impl; [exact Hy|].
      intros z Hz. unfold by_distance in *. now apply Qle_trans with (snd y).
    + constructor; [exact IH|].
      rewrite insert_by_distance_Permutation. constructor; [|exact Hy].
      unfold by_distance. apply Qlt_le_weak, Qnot_le_lt.
      intros Hle. apply Qle_bool_iff in Hle. congruence.
Qed.

Lemma sort_by_distance_sorted l :
  StronglySorted by_distance (Faiss.sort_by_distance l).
Proof.
  induction l as [|x l IH]; cbn; [constructor|].
  now apply insert_by_distance_sorted.
Qed.

Lemma StronglySorted_take {A} (R : A -> A -> Prop) n l :
  StronglySorted R l -> StronglySorted R (take n l).
Proof.
  intros H. revert n.
  induction H as [|x l Hl IH Hx]; intros [|n]; cbn; try constructor.
  - apply IH.
  - now apply Forall_take.
Qed.

(** ** The rows that enter the result *)

Lemma in_range_Some dist x :
  Faiss.in_range dist = Some x -> dist = Some x /\ (x < Faiss.FLT_MAX)%Q.
Proof.
  unfold Faiss.in_range. destruct dist as [y|]; [|discriminate].
  destruct (Qle_bool Faiss.FLT_MAX y) eqn:E; [discriminate|].
  intros [= ->]. split; [reflexivity|]. apply Qnot_le_lt. intros H.
  apply Qle_bool_iff in H. congruence.
Qed.

Lemma in_range_intro x :
  (x < Faiss.FLT_MAX)%Q -> Faiss.in_range (Some x) = Some x.
Proof.
  intros H. unfold Faiss.in_range.
  destruct (Qle_bool Faiss.FLT_MAX x) eqn:E; [|reflexivity].
  apply Qle_bool_iff in E. exfalso. exact (Qlt_not_le _ _ H E).
Qed.

Lemma candidates_from_elem q rows :
  forall i j x,
    (j, x) ∈ Faiss.candidates_from i q rows ->
    exists n v,
      j = (i + n)%nat /\ rows !! n = Some v
      /\ Faiss.fvec_L2sqr q v = Some x /\ (x < Faiss.FLT_MAX)%Q.
Proof.
  induction rows as [|v rows IH]; intros i j x; cbn [Faiss.candidates_from].
  - intros H. inversion H.
  - assert ((j, x) ∈ Faiss.candidates_from (S i) q rows ->
            exists n w,
              j = (i + n)%nat /\ (v :: rows) !! n = Some w
              /\ Faiss.fvec_L2sqr q w = Some x /\ (x < Faiss.FLT_MAX)%Q)
      as Hrest.
    { intros H. apply IH in H as (n & w & -> & Hw & Hd & Hlt).
      exists (S n), w. repeat split; auto; lia. }
    destruct (Faiss.in_range (Faiss.fvec_L2sqr q v)) as [y|] eqn:E;
      [|exact Hrest].
    intros H. apply elem_of_cons in H as [[= -> ->]|H]; [|now apply Hrest].
    apply in_range_Some in E as [E Hlt].
    exists 0%nat, v. rewrite Nat.add_0_r. auto.
Qed.

Lemma candidates_from_complete q rows :
  forall i n v x,
    rows !! n = Some v ->
    Faiss.fvec_L2sqr q v = Some x ->
    (x < Faiss.FLT_MAX)%Q ->
    ((i + n)%nat, x) ∈ Faiss.candidates_from i q rows.
Proof.
  induction rows as [|w rows IH]; intros i [|n] v x;
    cbn [Faiss.candidates_from]; try discriminate.
  - intros [= ->] Hx Hlt. rewrite Hx, (in_range_intro x Hlt), Nat.add_0_r.
    apply elem_of_cons. now left.
  - cbn. intros Hv Hx Hlt. replace (i + S n)%nat with (S i + n)%nat by lia.
    pose proof (IH (S i) n v x Hv Hx Hlt) as H.
    destruct (Faiss.in_range (Faiss.fvec_L2sqr q w));
      [apply elem_of_cons; now right | exact H].
Qed.

Lemma candidates_elem ix q j x :
  (j, x) ∈ Faiss.candidates ix q ->
  exists v,
    Faiss.xb ix !! j = Some v
    /\ Faiss.fvec_L2sqr q v = Some x /\ (x < Faiss.FLT_MAX)%Q.
Proof.
  intros H. apply candidates_from_elem in H as (n & v & -> & Hv & Hx & Hlt).
  exists v. auto.
Qed.

(** When every distance is in range, the candidates are all the rows. *)
Lemma candidates_all_in_range ix q :
  Faiss.all_in_range ix q = true -> Faiss.candidates ix q = scored ix q.
Proof.
  unfold Faiss.all_in_range, Faiss.candidates, scored.
  generalize (Faiss.xb ix). intros rows.
  assert (forall i,
            forallb (fun v => match Faiss.in_range (Faiss.fvec_L2sqr q v) with
                              | Some _ => true
                              | None => false
                              end) rows = true ->
            Faiss.candidates_from i q rows
            = imap (fun n v =>
                      ((i + n)%nat,
                       default 0%Q (Faiss.in_range (Faiss.fvec_L2sqr q v))))
                rows) as H.
  { induction rows as [|v rows IH]; intros i;
      cbn [forallb Faiss.candidates_from imap]; [reflexivity|].
    destruct (Faiss.in_range (Faiss.fvec_L2sqr q v)) as [x|]; [|discriminate].
    cbn [andb default]. intros Hall. rewrite Nat.add_0_r. f_equal.
    rewrite (IH (S i) Hall). apply imap_ext. intros n w _. cbn. f_equal. lia. }
  apply (H 0%nat).
Qed.

Lemma scored_length ix q : length (scored ix q) = Faiss.ntotal ix.
Proof. unfold scored. apply length_imap. Qed.

Lemma scored_elem ix q i dist :
  (i, dist) ∈ scored ix q -> is_Some (Faiss.xb ix !! i).
Proof.
  unfold scored. intros H.
  apply elem_of_lookup_imap in H as (j & v & [= -> ->] & Hv). eauto.
Qed.

(** ** The loop over the hits *)

Lemma py_index_in_range {A} (l : list A) (i : nat) x :
  l !! i = Some x -> py_index l (Z.of_nat i) = Ok x.
Proof.
  intros Hx. unfold py_index.
  apply lookup_lt_Some in Hx as Hlt.
  destruct (Z.ltb_spec (Z.of_nat i) 0); [lia|].
  destruct (Z.leb_spec 0 (Z.of_nat i)); [|lia].
  destruct (Z.ltb_spec (Z.of_nat i) (Z.of_nat (length l))); [|lia].
  cbn. now rewrite Nat2Z.id, Hx.
Qed.

Lemma py_index_nat {A} (l : list A) (i : nat) x :
  py_index l (Z.of_nat i) = Ok x -> l !! i = Some x.
Proof.
  unfold py_index. destruct (Z.ltb_spec (Z.of_nat i) 0); [lia|].
  destruct (_ && _); [|discriminate]. rewrite Nat2Z.id.
  destruct (l !! i); [|discriminate]. now intros [= ->].
Qed.

Lemma py_index_elem {A} (l : list A) i x :
  py_index l i = Ok x -> x ∈ l.
Proof.
  unfold py_index. destruct (_ && _); [|discriminate].
  destruct (l !! _) as [y|] eqn:E; [|discriminate].
  intros [= <-]. now apply list_elem_of_lookup_2 in E.
Qed.

(** A label from [-1] up to the last position reads a document: [-1] reads
    the last one. *)
Lemma py_index_defined {A} (l : list A) i :
  -1 <= i < Z.of_nat (length l) -> l <> [] -> exists x, py_index l i = Ok x.
Proof.
  intros Hi Hne. unfold py_index.
  assert (0 < length l)%nat as Hpos.
  { destruct l; [contradiction | cbn; lia]. }
  set (j := if i <? 0 then i + Z.of_nat (length l) else i).
  assert (0 <= j < Z.of_nat (length l)) as Hj.
  { subst j. destruct (Z.ltb_spec i 0); lia. }
  destruct (Z.leb_spec 0 j); [|lia].
  destruct (Z.ltb_spec j (Z.of_nat (length l))); [|lia]. cbn [andb].
  destruct (lookup_lt_is_Some_2 l (Z.to_nat j)) as [x ->]; [lia | eauto].
Qed.

Lemma collect_results_hits (docs : list Document) (hits : list (Z * Q)) :
  docs <> [] ->
  Forall (fun h => -1 <= fst h < Z.of_nat (length docs)) hits ->
  exists res,
    collect_results docs hits = Ok res
    /\ Forall2 (fun h r => py_index docs (fst h) = Ok (fst r)
                           /\ snd r = snd h) hits res.
Proof.
  intros Hne. induction 1 as [|[idx dist] hits Hi Hrest IH]; cbn.
  - exists []. split; [reflexivity | constructor].
  - cbn in Hi. destruct IH as (res & -> & Hres).
    destruct (Z.ltb_spec idx (Z.of_nat (length docs))); [|lia].
    destruct (py_index_defined docs idx Hi Hne) as [doc Hdoc]. rewrite Hdoc.
    exists ((doc, dist) :: res). split; [reflexivity|].
    constructor; [now split | exact Hres].
Qed.

Lemma Forall2_distances {A B} (P : A * Q -> B * Q -> Prop)
    (hits : list (A * Q)) (res : list (B * Q)) :
  Forall2 (fun h r => P h r /\ snd r = snd h) hits res ->
  map snd res = map snd hits.
Proof.
  induction 1 as [|p r best res [_ Hd] _ IH]; cbn; [reflexivity|].
  now rewrite Hd, IH.
Qed.

Lemma sorted_by_distance_map_snd {A} (l : list (A * Q)) :
  StronglySorted by_distance l -> StronglySorted Qle (map snd l).
Proof.
  induction 1 as [|x l Hl IH Hx]; cbn; constructor; [exact IH|].
  apply Forall_forall. intros dist Hin.
  apply list_elem_of_In, in_map_iff in Hin as (y & <- & Hy).
  rewrite Forall_forall in Hx. apply Hx. now apply list_elem_of_In.
Qed.

Lemma StronglySorted_app_intro {A} (R : A -> A -> Prop) l1 l2 :
  StronglySorted R l1 -> StronglySorted R l2 ->
  (forall x y, x ∈ l1 -> y ∈ l2 -> R x y) ->
  StronglySorted R (l1 ++ l2).
Proof.
  induction 1 as [|x l1 Hl1 IH Hx]; intros H2 Hcross; cbn; [exact H2|].
  constructor.
  - apply IH; [exact H2|]. intros a b Ha Hb. apply Hcross; [|exact Hb].
    apply elem_of_cons. now right.
  - apply Forall_app. split; [exact Hx|].
    apply Forall_forall. intros y Hy. apply Hcross; [|exact Hy].
    apply elem_of_cons. now left.
Qed.

Lemma map_replicate {A B} (f : A -> B) n x :
  map f (replicate n x) = replicate n (f x).
Proof. induction n as [|n IH]; cbn; [reflexivity | now rewrite IH]. Qed.

Lemma StronglySorted_replicate n (x : Q) : StronglySorted Qle (replicate n x).
Proof.
  induction n as [|n IH]; cbn; constructor; [exact IH|].
  apply Forall_forall. intros y Hy. apply elem_of_replicate in Hy as [-> _].
  apply Qle_refl.
Qed.

(** ** [VectorStore.search] *)

(** On a well-formed store that holds documents, [search] reads one
    document for every slot that faiss returns: the [min k count] nearest
    rows in range, then the slots that no row took. *)
Lemma search_hits settings emb self query k qv ix :
  store_wf self ->
  index self = Some ix ->
  generate_embedding emb query = Ok qv ->
  length qv = Faiss.d ix ->
  0 < k_or_default settings k ->
  let n := Z.to_nat (Z.min (k_or_default settings k)
                       (Z.of_nat (length (documents self)))) in
  let best := take n (Faiss.sort_by_distance (Faiss.candidates ix qv)) in
  exists res,
    search settings emb query k self = Ok res
    /\ Forall2 (fun h r => py_index (documents self) (fst h) = Ok (fst r)
                           /\ snd r = snd h)
         (map slot best
          ++ replicate (n - length best)%nat (-1, Faiss.FLT_MAX))
         res.
Proof.
  intros Hwf Hix Hqv Hdim Hk n best. unfold store_wf in Hwf.
  rewrite Hix in Hwf. destruct Hwf as (Hn & Hne & Hinit). unfold search.
  rewrite Hinit, Hix, Hqv. unfold Faiss.search.
  rewrite Hdim, Nat.eqb_refl. cbn [negb].
  assert (0 < length (documents self))%nat as Hpos.
  { destruct (documents self); [contradiction | cbn; lia]. }
  destruct (Z.leb_spec (Z.min (k_or_default settings k)
                          (Z.of_nat (length (documents self)))) 0); [lia|].
  fold n. fold best. apply collect_results_hits; [exact Hne|].
  apply Forall_app. split.
  - apply Forall_forall. intros h Hh.
    apply list_elem_of_fmap in Hh as ([j x] & -> & Hin). cbn.
    apply subseteq_take in Hin.
    rewrite (sort_by_distance_Permutation (Faiss.candidates ix qv)) in Hin.
    apply candidates_elem in Hin as (v & Hv & _).
    apply lookup_lt_Some in Hv. unfold Faiss.ntotal in Hn. lia.
  - apply Forall_forall. intros h Hh.
    apply elem_of_replicate in Hh as [-> _]. cbn. lia.
Qed.

(** C4 (as stated) fails for a requested [k] of 0: [k or
    settings.top_k_results] replaces it by the default, and three results
    come back. *)
Lemma search_with_k_zero_returns_default_count :
  exists res,
    VectorStore.search (kernel := Float32.kernel) default_settings
      (Examples.length_embedder 1) "q" (Some 0) Examples.store3 = Ok res
    /\ length res = 3%nat
    /\ ~ (Z.of_nat (length res) <= 0).
Proof.
  eexists. split; [vm_compute; reflexivity|].
  split; [reflexivity | cbn; lia].
Qed.

(** C4 (amended). On a well-formed store: without documents [search]
    returns the empty list and raises nothing; otherwise, for a query
    whose embedding has the dimension of the index and an effective [k]
    (the requested one, or [top_k_results] when the request is absent or 0)
    that is positive, it returns [min k count] pairs, by non-decreasing
    distance, each made of a stored document and a distance. This holds
    for every distance routine, whatever its rounding and overflow. *)
Theorem search_returns_nearest_documents
    (settings : Settings) (emb : Embedder) (self : t)
    (query : string) (k : option Z) :
  store_wf self ->
  (documents self = [] -> search settings emb query k self = Ok [])
  /\ (forall qv,
        generate_embedding emb query = Ok qv ->
        (forall ix, index self = Some ix -> length qv = Faiss.d ix) ->
        0 < k_or_default settings k ->
        exists res,
          search settings emb query k self = Ok res
          /\ Z.of_nat (length res)
             = Z.min (k_or_default settings k)
                 (Z.of_nat (length (documents self)))
          /\ StronglySorted Qle (map snd res)
          /\ Forall (fun r => fst r ∈ documents self) res).
Proof.
  intros Hwf. pose proof Hwf as Hwf'. unfold store_wf in Hwf'.
  destruct (index self) as [ix|] eqn:Hix.
  - destruct Hwf' as (Hn & Hne & Hinit).
    split; [intros; contradiction|].
    intros qv Hqv Hdim Hk.
    destruct (search_hits settings emb self query k qv ix Hwf Hix Hqv
                (Hdim ix eq_refl) Hk) as (res & Hres & Hrows).
    set (n := Z.to_nat (Z.min (k_or_default settings k)
                          (Z.of_nat (length (documents self))))) in *.
    set (sorted := Faiss.sort_by_distance (Faiss.candidates ix qv)) in *.
    assert (0 < length (documents self))%nat as Hpos.
    { destruct (documents self); [contradiction | cbn; lia]. }
    exists res. split; [exact Hres|]. split; [|split].
    + rewrite <- (Forall2_length _ _ _ Hrows).
      rewrite length_app, length_map, length_replicate.
      rewrite length_take. subst n. lia.
    + rewrite (Forall2_distances _ _ _ Hrows), map_app.
      apply StronglySorted_app_intro.
      * unfold slot. rewrite map_map. cbn.
        apply sorted_by_distance_map_snd, StronglySorted_take,
          sort_by_distance_sorted.
      * rewrite map_replicate. apply StronglySorted_replicate.
      * intros x y Hx Hy. rewrite map_replicate in Hy.
        apply elem_of_replicate in Hy as [-> _].
        apply list_elem_of_fmap in Hx as (h & -> & Hh).
        apply list_elem_of_fmap in Hh as ([j d] & -> & Hin). cbn.
        apply subseteq_take in Hin. subst sorted.
        rewrite (sort_by_distance_Permutation _) in Hin.
        apply candidates_elem in Hin as (v & _ & _ & Hlt).
        now apply Qlt_le_weak.
    + clear -Hrows. induction Hrows as [|h r hits res [Hd _] _ IH];
        constructor; [|exact IH].
      now apply py_index_elem in Hd.
  - destruct Hwf' as (Hd & Hinit). unfold search. rewrite Hinit.
    split; [reflexivity|].
    intros qv _ _ Hk. exists []. rewrite Hd. cbn.
    repeat split; try constructor. lia.
Qed.

End SearchFacts.

(* ===================================================================== *)
(** * Facts about history trimming *)
(* ===================================================================== *)

Section TrimFacts.
Import Memory Invariants.

Lemma system_messages_app l1 l2 :
  system_messages (l1 ++ l2) = system_messages l1 ++ system_messages l2.
Proof. apply List.filter_app. Qed.

Lemma non_system_messages_app l1 l2 :
  non_system_messages (l1 ++ l2)
  = non_system_messages l1 ++ non_system_messages l2.
Proof. apply List.filter_app. Qed.

Lemma system_of_system l : system_messages (system_messages l) = system_messages l.
Proof.
  unfold system_messages. induction l as [|m l IH]; cbn; [reflexivity|].
  destruct (is_system m) eqn:E; cbn; [rewrite E|]; now rewrite ?IH.
Qed.

Lemma non_system_of_system l : non_system_messages (system_messages l) = [].
Proof.
  unfold system_messages, non_system_messages.
  induction l as [|m l IH]; cbn; [reflexivity|].
  destruct (is_system m) eqn:E; cbn; [rewrite E|]; now rewrite ?IH.
Qed.

Lemma non_system_of_non_system l :
  non_system_messages (non_system_messages l) = non_system_messages l.
Proof.
  unfold non_system_messages. induction l as [|m l IH]; cbn; [reflexivity|].
  destruct (is_system m) eqn:E; cbn; [|rewrite E; cbn]; now rewrite ?IH.
Qed.

Lemma system_of_non_system l : system_messages (non_system_messages l) = [].
Proof.
  unfold system_messages, non_system_messages.
  induction l as [|m l IH]; cbn; [reflexivity|].
  destruct (is_system m) eqn:E; cbn; [|rewrite E; cbn]; now rewrite ?IH.
Qed.

Lemma non_system_length l : (length (non_system_messages l) <= length l)%nat.
Proof. apply List.filter_length_le. Qed.

(** A suffix of a list without system messages has none either. *)
Lemma suffix_of_non_system k l :
  k `suffix_of` non_system_messages l ->
  system_messages k = [] /\ non_system_messages k = k.
Proof.
  intros [pre Hk].
  pose proof (system_of_non_system l) as Hs.
  pose proof (non_system_of_non_system l) as Hn.
  rewrite Hk in Hs, Hn.
  rewrite system_messages_app in Hs. rewrite non_system_messages_app in Hn.
  apply app_eq_nil in Hs as [_ Hs]. split; [exact Hs|].
  apply (f_equal (@length _)) in Hn as Hlen. rewrite !length_app in Hlen.
  pose proof (non_system_length pre). pose proof (non_system_length k).
  assert (length (non_system_messages pre) = length pre) as Hpre by lia.
  apply app_inj_1 in Hn as [_ Hn]; [exact Hn | exact Hpre].
Qed.

(** [lst[-n:]] keeps the last [n] elements when [n] is positive. *)
Lemma slice_from_neg {A} (n : Z) (l : list A) :
  0 < n -> slice_from (- n) l = last_n (Z.to_nat n) l.
Proof.
  intros Hn. unfold slice_from, last_n, PyStr.clamp_index.
  destruct (Z.ltb_spec (- n) 0); [|lia].
  f_equal. lia.
Qed.

Lemma last_n_suffix {A} n (l : list A) : last_n n l `suffix_of` l.
Proof. apply suffix_drop. Qed.

Lemma last_n_length {A} n (l : list A) :
  length (last_n n l) = Nat.min n (length l).
Proof. unfold last_n. rewrite length_drop. lia. Qed.

(** The last [n] elements of a list are those of any suffix that has at
    least [n] elements. *)
Lemma last_n_of_suffix {A} n (k l : list A) :
  k `suffix_of` l -> (n <= length k)%nat -> last_n n k = last_n n l.
Proof.
  intros [pre ->] Hn. unfold last_n. rewrite length_app.
  replace (length pre + length k - n)%nat
    with (length pre + (length k - n))%nat by lia.
  now rewrite drop_app_add.
Qed.

Lemma trimmed_eq max_history l :
  0 < max_history ->
  trimmed max_history l
  = system_messages l
    ++ last_n (Z.to_nat (2 * max_history)) (non_system_messages l).
Proof.
  intros Hmax. unfold trimmed.
  replace (- max_history * 2) with (- (2 * max_history)) by lia.
  now rewrite slice_from_neg by lia.
Qed.

(** The trimming test fires as soon as the non-system messages alone
    exceed the bound. *)
Lemma trim_history_over max_history l :
  0 < max_history ->
  2 * max_history < Z.of_nat (length (non_system_messages l)) ->
  trim_history max_history l
  = system_messages l
    ++ last_n (Z.to_nat (2 * max_history)) (non_system_messages l).
Proof.
  intros Hmax Hover. unfold trim_history.
  pose proof (non_system_length l).
  destruct (Z.ltb_spec (max_history * 2) (Z.of_nat (length l))); [|lia].
  now apply trimmed_eq.
Qed.

Lemma retains_refl max_history h : retains max_history h h.
Proof. repeat split; [reflexivity | lia]. Qed.

Lemma retains_step max_history l h m :
  0 < max_history ->
  retains max_history l h ->
  retains max_history (trim_history max_history (l ++ [m])) (h ++ [m]).
Proof.
  intros Hmax (Hs & Hsuf & Hlen).
  assert (retains max_history (l ++ [m]) (h ++ [m])) as (Hs' & Hsuf' & Hlen').
  { unfold retains.
    rewrite !system_messages_app, !non_system_messages_app, !length_app.
    repeat split.
    - now rewrite Hs.
    - now apply suffix_app.
    - lia. }
  unfold trim_history.
  destruct (Z.ltb_spec (max_history * 2) (Z.of_nat (length (l ++ [m]))));
    [|now repeat split].
  rewrite trimmed_eq by assumption.
  set (x := l ++ [m]) in *. set (n := Z.to_nat (2 * max_history)) in *.
  pose proof (last_n_suffix n (non_system_messages x)) as Hlast.
  destruct (suffix_of_non_system _ _ Hlast) as [Hls Hln].
  unfold retains. rewrite system_messages_app, non_system_messages_app.
  rewrite system_of_system, non_system_of_system, Hls, Hln, app_nil_r.
  cbn [app]. repeat split.
  - exact Hs'.
  - now transitivity (non_system_messages x).
  - rewrite last_n_length. lia.
Qed.

Lemma retains_append_all max_history ms :
  0 < max_history ->
  forall l h, retains max_history l h ->
    retains max_history (append_all max_history l ms) (h ++ ms).
Proof.
  intros Hmax. induction ms as [|m ms IH]; intros l h Hr; cbn.
  - now rewrite app_nil_r.
  - replace (h ++ m :: ms) with ((h ++ [m]) ++ ms)
      by now rewrite <- app_assoc.
    apply IH. now apply retains_step.
Qed.

(** Appending one by one and trimming each time ends, once the non-system
    messages exceed the bound, with all system messages followed by the
    last [2 * max_history] non-system messages of the whole history. *)
Lemma append_all_over max_history msgs ms :
  0 < max_history -> ms <> [] ->
  2 * max_history < Z.of_nat (length (non_system_messages (msgs ++ ms))) ->
  append_all max_history msgs ms
  = system_messages (msgs ++ ms)
    ++ last_n (Z.to_nat (2 * max_history)) (non_system_messages (msgs ++ ms)).
Proof.
  intros Hmax Hne Hover.
  destruct (exists_last Hne) as (ms' & m & ->).
  assert (append_all max_history msgs (ms' ++ [m])
          = trim_history max_history (append_all max_history msgs ms' ++ [m]))
    as ->.
  { clear. revert msgs. induction ms' as [|x ms' IH]; intros msgs; cbn;
      [reflexivity | apply IH]. }
  pose proof (retains_append_all max_history ms' Hmax msgs msgs
                (retains_refl _ _)) as (Hs & Hsuf & Hlen).
  set (l := append_all max_history msgs ms') in *.
  set (h := msgs ++ ms') in *.
  replace (msgs ++ ms' ++ [m]) with (h ++ [m]) in *
    by (subst h; now rewrite <- app_assoc).
  set (n := Z.to_nat (2 * max_history)) in *.
  rewrite non_system_messages_app, length_app in Hover.
  assert (length (non_system_messages [m]) <= 1)%nat as Hm
    by apply (non_system_length [m]).
  assert (n <= length (non_system_messages (l ++ [m])))%nat as Hn.
  { rewrite non_system_messages_app, length_app. lia. }
  unfold trim_history.
  pose proof (non_system_length l) as Hl.
  destruct (Z.ltb_spec (max_history * 2) (Z.of_nat (length (l ++ [m])))) as [_|Hno].
  - rewrite trimmed_eq by assumption. fold n.
    rewrite !system_messages_app, Hs. f_equal.
    apply last_n_of_suffix; [|exact Hn].
    rewrite !non_system_messages_app. now apply suffix_app.
  - exfalso. rewrite length_app in Hno. cbn in Hno.
    rewrite non_system_messages_app, length_app in Hn.
    assert (length (non_system_messages [m]) = 1 ->
            n <= length (non_system_messages l))%nat by lia.
    lia.
Qed.

End TrimFacts.

(* ===================================================================== *)
(** * Facts about the session store *)
(* ===================================================================== *)

Section SessionFacts.
Import Memory Runtime SessionMemory Invariants Scenarios.
Variable env : Env.

Ltac run_steps :=
  cbv [bind ret get_memory put_memory time_time uuid4 lift_result];
  cbv beta iota.

Lemma is_session_valid_absent sid w :
  sessions (session_memory w) !! sid = None ->
  _is_session_valid env sid w = (Ok false, w).
Proof. intros H. unfold _is_session_valid. run_steps. now rewrite H. Qed.

Lemma is_session_valid_live sid w :
  session_live (session_memory w) sid (time_at env (clock_reads w)) ->
  _is_session_valid env sid w = (Ok true, tick w).
Proof.
  intros [[msgs H] Hlive]. unfold _is_session_valid. run_steps. rewrite H.
  destruct (Z.ltb_spec (ttl (session_memory w))
              (time_at env (clock_reads w)
               - default 0 (session_timestamps (session_memory w) !! sid)));
    [lia | reflexivity].
Qed.

Lemma is_session_valid_expired sid w msgs :
  sessions (session_memory w) !! sid = Some msgs ->
  ttl (session_memory w)
  < time_at env (clock_reads w)
    - default 0 (session_timestamps (session_memory w) !! sid) ->
  _is_session_valid env sid w
  = (Ok false, set_memory (cleanup_session sid (session_memory w)) (tick w)).
Proof.
  intros H Hexp. unfold _is_session_valid. run_steps. rewrite H.
  destruct (Z.ltb_spec (ttl (session_memory w))
              (time_at env (clock_reads w)
               - default 0 (session_timestamps (session_memory w) !! sid)));
    [reflexivity | lia].
Qed.

(** The three outcomes above are the only ones. *)
Lemma is_session_valid_cases sid w :
  (sessions (session_memory w) !! sid = None
   /\ _is_session_valid env sid w = (Ok false, w))
  \/ (session_live (session_memory w) sid (time_at env (clock_reads w))
      /\ _is_session_valid env sid w = (Ok true, tick w))
  \/ (is_Some (sessions (session_memory w) !! sid)
      /\ ttl (session_memory w)
         < time_at env (clock_reads w)
           - default 0 (session_timestamps (session_memory w) !! sid)
      /\ _is_session_valid env sid w
         = (Ok false,
            set_memory (cleanup_session sid (session_memory w)) (tick w))).
Proof.
  destruct (sessions (session_memory w) !! sid) as [msgs|] eqn:H.
  - right.
    destruct (Z.lt_ge_cases (ttl (session_memory w))
                (time_at env (clock_reads w)
                 - default 0 (session_timestamps (session_memory w) !! sid))).
    + right. split; [eauto|]. split; [assumption|].
      now apply is_session_valid_expired with msgs.
    + left. assert (session_live (session_memory w) sid
                      (time_at env (clock_reads w))) as Hl.
      { split; [rewrite H; eauto | assumption]. }
      split; [exact Hl | now apply is_session_valid_live].
  - left. split; [reflexivity | now apply is_session_valid_absent].
Qed.

Lemma create_session_spec w :
  create_session env w
  = (Ok (uuid_at env (uuid_draws w)),
     set_memory
       (stored (uuid_at env (uuid_draws w)) [] (time_at env (clock_reads w))
          (session_memory w))
       (tick (drawn w))).
Proof. reflexivity. Qed.

(** [add_message] on a live session: three readings of the clock, the
    stamped message appended, the time stamp refreshed, the list trimmed. *)
Lemma add_message_live sid role content w msgs :
  sessions (session_memory w) !! sid = Some msgs ->
  session_live (session_memory w) sid (time_at env (clock_reads w)) ->
  add_message env sid role content w
  = (Ok tt,
     set_memory
       (stored sid
          (trim_history (max_history (session_memory w))
             (msgs ++ [{| Memory.role := role; Memory.content := content;
                          timestamp := time_at env (S (clock_reads w)) |}]))
          (time_at env (S (S (clock_reads w))))
          (session_memory w))
       (tick (tick (tick w)))).
Proof.
  intros H Hlive. unfold add_message.
  unfold bind at 1. rewrite (is_session_valid_live sid w Hlive).
  cbv [negb]. run_steps.
  cbv [set_memory tick session_memory clock_reads vector_store uuid_draws trace
       set_sessions set_timestamps session_list
       sessions session_timestamps max_history ttl].
  destruct w as [[ss ts mh tl] vs cr ud tr]. cbn in H |- *.
  rewrite H. cbn [default]. rewrite lookup_insert_eq. cbn [default].
  unfold trim_history, stored. cbn.
  destruct (Z.ltb_spec (mh * 2) (Z.of_nat (length (msgs ++
    [{| Memory.role := role; Memory.content := content;
        timestamp := time_at env (S cr) |}])))).
  - unfold set_memory. cbn. now rewrite insert_insert_eq.
  - reflexivity.
Qed.

(** [add_message] on an unknown or expired session stores nothing. *)
Lemma add_message_dropped sid role content w :
  ~ session_live (session_memory w) sid (time_at env (clock_reads w)) ->
  sessions (session_memory (snd (add_message env sid role content w))) !! sid
  = None.
Proof.
  intros Hdead. unfold add_message. unfold bind at 1.
  destruct (is_session_valid_cases sid w) as [[H ->]|[[Hl _]|(Hs & Hexp & ->)]].
  - exact H.
  - contradiction.
  - cbn. apply lookup_delete_eq.
Qed.

Lemma get_history_live sid w msgs :
  sessions (session_memory w) !! sid = Some msgs ->
  session_live (session_memory w) sid (time_at env (clock_reads w)) ->
  get_history env sid w
  = (Ok (map to_dict msgs),
     tick w).
Proof.
  intros H Hlive. unfold get_history.
  unfold bind at 1. rewrite (is_session_valid_live sid w Hlive).
  cbv [negb]. run_steps. unfold session_list. cbn. now rewrite H.
Qed.

End SessionFacts.


(* ===================================================================== *)
(** * Facts about the orchestrator: external calls *)
(* ===================================================================== *)

Section AgentTraceFacts.
Import Memory Runtime SessionMemory Retrieval Agent Invariants.
Variable env : Env.

Lemma extend_trace_nil w : extend_trace [] w = w.
Proof. destruct w. unfold extend_trace. cbn. now rewrite app_nil_r. Qed.

Lemma extend_trace_app evs1 evs2 w :
  extend_trace evs2 (extend_trace evs1 w) = extend_trace (evs1 ++ evs2) w.
Proof. unfold extend_trace. cbn. now rewrite app_assoc. Qed.

Lemma retrieve_world query k w :
  snd (retrieve env query k w) = extend_trace [IndexSearch query k] w.
Proof.
  unfold retrieve, bind, vector_store_search.
  now destruct (VectorStore.search _ _ _ _ _).
Qed.

Lemma search_documents_world query k w :
  snd (_search_documents env query k w) = extend_trace [IndexSearch query k] w.
Proof.
  unfold _search_documents, bind.
  pose proof (retrieve_world query k w) as H.
  destruct (retrieve env query k w) as [[results|e] w1]; cbn in H; subst w1;
    [|reflexivity].
  now destruct results.
Qed.

(** One tool call only searches the index. *)
Lemma handle_tool_call_world query tool_call st w :
  exists searches,
    snd (handle_tool_call env query tool_call st w) = extend_trace searches w
    /\ Forall is_search searches.
Proof.
  unfold handle_tool_call. destruct st as [messages sources].
  unfold bind at 1, lift_result.
  destruct (json_loads env (function_arguments tool_call)) as [args|e].
  - destruct (String.eqb (function_name tool_call) "search_documents").
    + set (q := default query (arg_query args)).
      set (n := Some (default 3 (arg_num_results args))).
      unfold bind at 1.
      pose proof (search_documents_world q n w) as H1.
      destruct (_search_documents env q n w) as [[text|e] w1]; cbn in H1; subst w1.
      * unfold bind at 1.
        pose proof (retrieve_world q n (extend_trace [IndexSearch q n] w)) as H2.
        destruct (retrieve env q n _) as [[docs|e] w2]; cbn in H2; subst w2;
          rewrite extend_trace_app;
          (eexists; split; [reflexivity | repeat constructor]).
      * eexists; split; [reflexivity | repeat constructor].
    + exists []. rewrite extend_trace_nil. split; [reflexivity | constructor].
  - exists []. rewrite extend_trace_nil. split; [reflexivity | constructor].
Qed.

Lemma handle_tool_calls_world query calls :
  forall st w,
  exists searches,
    snd (handle_tool_calls env query calls st w) = extend_trace searches w
    /\ Forall is_search searches.
Proof.
  induction calls as [|tool_call rest IH]; intros st w; cbn [handle_tool_calls].
  - exists []. rewrite extend_trace_nil. split; [reflexivity | constructor].
  - unfold bind at 1.
    destruct (handle_tool_call_world query tool_call st w) as (s1 & H1 & F1).
    destruct (handle_tool_call env query tool_call st w) as [[st'|e] w1];
      cbn in H1; subst w1.
    + destruct (IH st' (extend_trace s1 w)) as (s2 & H2 & F2).
      rewrite H2, extend_trace_app. exists (s1 ++ s2).
      split; [reflexivity | now apply Forall_app].
    + now exists s1.
Qed.

(** The completion calls of one query: the first one offers the tools; what
    follows is one tool round, and nothing when the first reply asks for no
    tool. *)
Lemma complete_with_tools_world query messages w :
  exists rest,
    snd (complete_with_tools env query messages w)
    = extend_trace (Completion messages true :: rest) w
    /\ tool_round rest
    /\ forall reply,
         completions_create env (length (trace w)) messages true = Ok reply ->
         tool_calls reply = [] ->
         rest = []
         /\ fst (complete_with_tools env query messages w)
            = Ok (reply_content reply, []).
Proof.
  destruct (complete_with_tools env query messages w) as [r w'] eqn:E.
  cbn [fst snd]. unfold complete_with_tools in E.
  unfold bind at 1, chat_completions_create at 1 in E.
  destruct (completions_create env (length (trace w)) messages true)
    as [reply|e].
  - destruct (tool_calls reply) as [|c cs] eqn:Hcalls.
    + injection E as <- <-.
      exists []. split; [reflexivity|]. split.
      * exists [], []. repeat split; [constructor | now left].
      * intros r [= <-] _. split; reflexivity.
    + set (w1 := extend_trace [Completion messages true] w) in E.
      set (ms := messages ++ [AssistantMessage reply]) in E.
      unfold bind at 1 in E.
      destruct (handle_tool_calls_world query (c :: cs) (ms, []) w1)
        as (searches & Hs & Fs).
      destruct (handle_tool_calls env query (c :: cs) (ms, []) w1)
        as [[st|e] w2]; cbn in Hs; subst w2.
      * unfold bind, chat_completions_create, ret in E.
        exists (searches ++ [Completion (fst st) false]).
        split; [|split].
        -- destruct (completions_create env _ (fst st) false);
             injection E as <- <-; subst w1; now rewrite !extend_trace_app.
        -- exists searches, [Completion (fst st) false].
           repeat split; [exact Fs | right; eauto].
        -- intros r0 [= <-] Hnil. congruence.
      * injection E as <- <-.
        exists searches. subst w1. rewrite extend_trace_app.
        split; [reflexivity|]. split.
        -- exists searches, []. rewrite app_nil_r.
           repeat split; [exact Fs | now left].
        -- intros r [= <-] Hnil. congruence.
  - injection E as <- <-.
    exists []. split; [reflexivity|]. split.
    + exists [], []. repeat split; [constructor | now left].
    + intros r [=].
Qed.

(** ** The session operations make no external call *)

Lemma is_session_valid_memory_step sid w :
  exists b w', _is_session_valid env sid w = (Ok b, w') /\ memory_step w w'.
Proof.
  destruct (is_session_valid_cases env sid w) as [[_ ->]|[[_ ->]|(_ & _ & ->)]];
    eexists _, _; (split; [reflexivity | now split]).
Qed.

Lemma add_message_memory_step sid role content w :
  exists w', add_message env sid role content w = (Ok tt, w') /\ memory_step w w'.
Proof.
  unfold add_message. unfold bind at 1.
  destruct (is_session_valid_memory_step sid w) as ([|] & w1 & -> & Hv & Ht);
    cbn [negb].
  - cbv [bind ret get_memory put_memory time_time].
    destruct (_ <? _); eexists; (split; [reflexivity|]); now split.
  - eexists; split; [reflexivity | now split].
Qed.

Lemma get_history_memory_step sid w :
  exists h w', get_history env sid w = (Ok h, w') /\ memory_step w w'.
Proof.
  unfold get_history. unfold bind at 1.
  destruct (is_session_valid_memory_step sid w) as ([|] & w1 & -> & Hv & Ht);
    cbn [negb]; eexists _, _; (split; [reflexivity | now split]).
Qed.

Lemma resolve_session_memory_step session_id w :
  exists sid w', resolve_session env session_id w = (Ok sid, w')
                 /\ memory_step w w'.
Proof.
  assert (forall w0, memory_step w w0 ->
            exists sid w',
              start_session env w0 = (Ok sid, w') /\ memory_step w w') as Hfresh.
  { intros w0 [Hv Ht]. unfold start_session.
    unfold bind at 1. rewrite create_session_spec.
    unfold bind at 1.
    destruct (add_message_memory_step (uuid_at env (uuid_draws w0)) "system"
                SYSTEM_PROMPT
                (set_memory
                   (stored (uuid_at env (uuid_draws w0)) []
                      (time_at env (clock_reads w0)) (session_memory w0))
                   (tick (drawn w0))))
      as (w1 & -> & Hv1 & Ht1).
    eexists _, _. split; [reflexivity|]. split; cbn in *; congruence. }
  unfold resolve_session. destruct session_id as [sid|].
  - destruct (PyStr.nonempty sid).
    + unfold bind at 1, session_exists.
      destruct (is_session_valid_memory_step sid w) as ([|] & w1 & -> & Hm).
      * eexists _, _. split; [reflexivity | exact Hm].
      * now apply Hfresh.
    + apply Hfresh. now split.
  - apply Hfresh. now split.
Qed.

End AgentTraceFacts.

(* ===================================================================== *)
(** * Facts about the orchestrator: one tool round *)
(* ===================================================================== *)

Section AgentRoundFacts.
Import Memory Runtime SessionMemory Retrieval Agent Invariants.

Lemma searches_are_not_completions evs :
  Forall is_search evs -> List.filter is_completion evs = [].
Proof.
  induction 1 as [|e evs He _ IH]; [reflexivity|].
  destruct e; [contradiction | exact IH].
Qed.

Lemma tool_round_completions rest :
  tool_round rest -> (length (List.filter is_completion rest) <= 1)%nat.
Proof.
  intros (searches & tail & -> & Fs & Htail).
  rewrite List.filter_app, (searches_are_not_completions _ Fs).
  destruct Htail as [->|[ms ->]]; cbn; lia.
Qed.

(** C7. Whatever the completer, the embedder and the session are, the
    external calls of one [process_query] are: a completion call that offers
    the tools, then index searches only, then at most one more completion
    call, made without the tools; so at most two completion calls. When the
    first reply carries no tool call there is no further event (no search)
    and the result is the reply content with an empty source list. *)
Theorem process_query_single_tool_round
    (env : Env) (query : string) (session_id : option string) (w : World) :
  exists messages rest,
    trace (snd (process_query env query session_id w))
    = trace w ++ Completion messages true :: rest
    /\ tool_round rest
    /\ (length (List.filter is_completion (Completion messages true :: rest))
        <= 2)%nat
    /\ forall reply,
         completions_create env (length (trace w)) messages true = Ok reply ->
         tool_calls reply = [] ->
         rest = []
         /\ exists sid,
              fst (process_query env query session_id w)
              = Ok {| answer := reply_content reply; sources := [];
                      Agent.session_id := sid |}.
Proof.
  destruct (process_query env query session_id w) as [r w'] eqn:E.
  cbn [fst snd]. unfold process_query in E.
  unfold bind at 1 in E.
  destruct (resolve_session_memory_step env session_id w)
    as (sid & w1 & Hr & Hv1 & Ht1).
  rewrite Hr in E. unfold bind at 1 in E.
  destruct (add_message_memory_step env sid "user" query w1)
    as (w2 & Ha & Hv2 & Ht2).
  rewrite Ha in E. unfold bind at 1 in E.
  destruct (get_history_memory_step env sid w2) as (h & w3 & Hg & Hv3 & Ht3).
  rewrite Hg in E. unfold bind at 1 in E.
  destruct (complete_with_tools_world env query h w3)
    as (rest & Hw & Hround & Hdirect).
  assert (trace w3 = trace w) as Htr by congruence.
  rewrite Htr in Hdirect.
  exists h, rest.
  destruct (complete_with_tools env query h w3) as [[outcome|e] w4];
    cbn [fst snd] in Hw, Hdirect; subst w4.
  - unfold bind at 1 in E.
    destruct (add_message_memory_step env sid "assistant" (fst outcome)
                (extend_trace (Completion h true :: rest) w3))
      as (w5 & Ha5 & Hv5 & Ht5).
    rewrite Ha5 in E. unfold ret in E. injection E as <- <-.
    split; [rewrite Ht5; cbn; now rewrite Htr|].
    split; [exact Hround|].
    split; [cbn; pose proof (tool_round_completions rest Hround); lia|].
    intros reply Hreply Hnil.
    destruct (Hdirect reply Hreply Hnil) as [-> [= ->]].
    split; [reflexivity | now exists sid].
  - injection E as <- <-.
    split; [cbn; now rewrite Htr|].
    split; [exact Hround|].
    split; [cbn; pose proof (tool_round_completions rest Hround); lia|].
    intros reply Hreply Hnil.
    destruct (Hdirect reply Hreply Hnil) as [_ [=]].
Qed.

(** The direct completer of the examples answers without a tool call. *)
Lemma process_query_single_tool_round_witness :
  exists messages,
    trace (snd (process_query Examples.direct_env "What is 2+2?" None
                  Examples.world0))
    = [Completion messages true]
    /\ exists sid,
         fst (process_query Examples.direct_env "What is 2+2?" None
                Examples.world0)
         = Ok {| answer := "4"; sources := []; Agent.session_id := sid |}.
Proof.
  destruct (process_query_single_tool_round Examples.direct_env "What is 2+2?"
              None Examples.world0)
    as (messages & rest & Htrace & _ & _ & Hdirect).
  destruct (Hdirect {| reply_content := "4"; tool_calls := [] |}
              eq_refl eq_refl) as [-> Hres].
  exists messages. split; [exact Htrace | exact Hres].
Defined.

(** ** The returned sources *)

Lemma distinct_sources_spec docs :
  NoDup (distinct_sources docs)
  /\ forall src,
       src ∈ distinct_sources docs
       <-> exists doc, doc ∈ docs /\ doc_source doc = src.
Proof.
  unfold distinct_sources. split; [apply NoDup_remove_dups|].
  intros src. rewrite elem_of_remove_dups, list_elem_of_fmap.
  split; intros (doc & H1 & H2); exists doc; now split.
Qed.

(** A [search_documents] call replaces the sources collected so far by the
    distinct sources of its own results. *)
Lemma handle_tool_call_sources env query tool_call messages sources st' w :
  function_name tool_call = "search_documents" ->
  fst (handle_tool_call env query tool_call (messages, sources) w) = Ok st' ->
  exists args docs w1,
    json_loads env (function_arguments tool_call) = Ok args
    /\ fst (retrieve env (default query (arg_query args))
              (Some (default 3 (arg_num_results args))) w1) = Ok docs
    /\ vector_store w1 = vector_store w
    /\ snd st' = distinct_sources docs.
Proof.
  intros Hname. unfold handle_tool_call.
  unfold bind at 1, lift_result.
  destruct (json_loads env (function_arguments tool_call)) as [args|e];
    [|discriminate].
  rewrite Hname, String.eqb_refl.
  set (q := default query (arg_query args)).
  set (n := Some (default 3 (arg_num_results args))).
  unfold bind at 1.
  pose proof (search_documents_world env q n w) as Hw.
  destruct (_search_documents env q n w) as [[text|e] w1]; [|discriminate].
  cbn [snd] in Hw. unfold bind at 1.
  remember (retrieve env q n w1) as rr eqn:E.
  destruct rr as [[docs|e] w2]; [|discriminate].
  intros [= <-]. exists args, docs, w1.
  repeat split; [fold q n; now rewrite <- E | now subst w1].
Qed.

(** C1 (the code at a failing input). The first reply asks for two
    searches; the first retrieves a chunk of a.txt, the second a chunk of
    b.txt. Both results are handed to the completer, yet the returned
    sources are those of the last call only. *)
Theorem process_query_sources_of_last_call_only :
  fst (Agent.process_query Examples.two_call_env "question" None Examples.world0)
  = Ok {| Agent.answer := "final answer"; Agent.sources := ["b.txt"];
          Agent.session_id := "session-0" |}
  /\ fst (Retrieval.retrieve Examples.two_call_env "a" (Some 1) Examples.world0)
     = Ok [{| doc_content := "a"; doc_source := "a.txt"; doc_chunk_id := 0;
              doc_distance := 0 |}]
  /\ fst (Retrieval.retrieve Examples.two_call_env "bb" (Some 1) Examples.world0)
     = Ok [{| doc_content := "bb"; doc_source := "b.txt"; doc_chunk_id := 0;
              doc_distance := 0 |}]
  /\ ~ "a.txt" ∈ ["b.txt"].
Proof.
  split; [vm_compute; reflexivity|].
  split; [vm_compute; reflexivity|].
  split; [vm_compute; reflexivity|].
  intros H. apply list_elem_of_In in H. destruct H as [H|[]]. discriminate.
Qed.

End AgentRoundFacts.

(* ===================================================================== *)
(** * Facts about the orchestrator: what is persisted *)
(* ===================================================================== *)

Section AgentMemoryFacts.
Import Memory Runtime SessionMemory Retrieval Agent Invariants.
Variable env : Env.

(** ** The working copy *)

Lemma handle_tool_call_messages query tool_call st st' w :
  fst (handle_tool_call env query tool_call st w) = Ok st' ->
  exists tool_messages,
    fst st' = fst st ++ tool_messages /\ Forall is_tool_message tool_messages.
Proof.
  unfold handle_tool_call. destruct st as [messages sources].
  unfold bind at 1, lift_result.
  destruct (json_loads env (function_arguments tool_call)) as [args|e];
    [|discriminate].
  destruct (String.eqb (function_name tool_call) "search_documents").
  - unfold bind at 1.
    destruct (_search_documents env _ _ w) as [[text|e] w1]; [|discriminate].
    unfold bind at 1.
    destruct (retrieve env _ _ w1) as [[docs|e] w2]; [|discriminate].
    intros [= <-]. eexists. split; [reflexivity | repeat constructor].
  - intros [= <-]. exists []. now rewrite app_nil_r.
Qed.

Lemma handle_tool_calls_messages query calls :
  forall st st' w,
    fst (handle_tool_calls env query calls st w) = Ok st' ->
    exists tool_messages,
      fst st' = fst st ++ tool_messages /\ Forall is_tool_message tool_messages.
Proof.
  induction calls as [|tool_call rest IH]; intros st st' w; cbn [handle_tool_calls].
  - intros [= <-]. exists []. now rewrite app_nil_r.
  - unfold bind at 1.
    destruct (handle_tool_call env query tool_call st w) as [[st1|e] w1] eqn:E;
      [|discriminate].
    destruct (handle_tool_call_messages query tool_call st st1 w)
      as (tm1 & E1 & F1); [now rewrite E|].
    intros H2. destruct (IH st1 st' w1 H2) as (tm2 & E2 & F2).
    exists (tm1 ++ tm2). rewrite E2, E1, app_assoc.
    split; [reflexivity | now apply Forall_app].
Qed.

(** A completion call made without the tools receives the working copy. *)
Lemma complete_with_tools_working_copy query messages w m2 :
  Completion m2 false ∈ trace (snd (complete_with_tools env query messages w)) ->
  Completion m2 false ∈ trace w \/ working_copy messages m2.
Proof.
  unfold complete_with_tools. unfold bind at 1, chat_completions_create at 1.
  destruct (completions_create env (length (trace w)) messages true)
    as [reply|e]; cbn [snd].
  - destruct (tool_calls reply) as [|c cs] eqn:Hcalls.
    + cbn. rewrite elem_of_app, list_elem_of_singleton.
      intros [H|[=]]. now left.
    + set (w1 := extend_trace [Completion messages true] w).
      set (ms := messages ++ [AssistantMessage reply]).
      unfold bind at 1.
      destruct (handle_tool_calls_world env query (c :: cs) (ms, []) w1)
        as (searches & Hs & Fs).
      destruct (handle_tool_calls env query (c :: cs) (ms, []) w1)
        as [[st|e] w2] eqn:E; cbn in Hs; subst w2.
      * destruct (handle_tool_calls_messages query (c :: cs) (ms, []) st w1)
          as (tms & Etms & Ftms); [now rewrite E|].
        unfold bind, chat_completions_create, ret.
        assert (forall x : result ChatMessage,
                  trace (snd (match x with
                              | Ok a => (Ok (reply_content a, snd st),
                                         extend_trace [Completion (fst st) false]
                                           (extend_trace searches w1))
                              | Raise e0 =>
                                  (Raise e0,
                                   extend_trace [Completion (fst st) false]
                                     (extend_trace searches w1))
                              end))
                  = ((trace w ++ [Completion messages true]) ++ searches)
                    ++ [Completion (fst st) false]) as Htr
          by (intros [?|?]; reflexivity).
        rewrite Htr. rewrite !elem_of_app, !list_elem_of_singleton.
        intros [[[H|[=]]|H]|[= ->]].
        -- now left.
        -- rewrite Forall_forall in Fs. destruct (Fs _ H).
        -- right. exists reply, tms. split; [|exact Ftms].
           rewrite Etms. subst ms. cbn. now rewrite <- app_assoc.
      * cbn. rewrite !elem_of_app, !list_elem_of_singleton.
        intros [[H|[=]]|H]; [now left|].
        rewrite Forall_forall in Fs. destruct (Fs _ H).
  - cbn. rewrite elem_of_app, list_elem_of_singleton.
    intros [H|[=]]. now left.
Qed.

(** ** Nothing but the question and the answer reaches the store *)

Lemma stores_only_refl fresh w : stores_only fresh w w.
Proof. intros sid m H. now left. Qed.

Lemma stores_only_trans fresh w1 w2 w3 :
  stores_only fresh w1 w2 -> stores_only fresh w2 w3 -> stores_only fresh w1 w3.
Proof.
  intros S12 S23 sid m Hm.
  destruct (S23 sid m Hm) as [Hm2|Hf]; [|now right].
  destruct (S12 sid m Hm2) as [Hm1|Hf]; [now left | now right].
Qed.

Lemma stores_only_weaken (f g : Message -> Prop) w w' :
  (forall m, f m -> g m) -> stores_only f w w' -> stores_only g w w'.
Proof.
  intros Hfg S sid m Hm. destruct (S sid m Hm) as [H|H]; [now left | right; auto].
Qed.

Lemma stores_only_same_memory fresh w w' :
  session_memory w' = session_memory w -> stores_only fresh w w'.
Proof. intros E sid m H. rewrite E in H. now left. Qed.

Lemma trim_history_subset max_history msgs m :
  m ∈ trim_history max_history msgs -> m ∈ msgs.
Proof.
  unfold trim_history, trimmed. destruct (_ <? _); [|easy].
  rewrite elem_of_app. intros [H|H].
  - apply list_elem_of_In, List.filter_In in H as [H _].
    now apply list_elem_of_In.
  - unfold slice_from in H. apply subseteq_drop in H.
    apply list_elem_of_In, List.filter_In in H as [H _].
    now apply list_elem_of_In.
Qed.

Lemma session_list_cleanup sid sid' self m :
  m ∈ session_list (cleanup_session sid self) sid' -> m ∈ session_list self sid'.
Proof.
  unfold session_list, cleanup_session. cbn.
  destruct (decide (sid = sid')) as [->|Hne].
  - rewrite lookup_delete_eq. cbn. intros H. inversion H.
  - now rewrite lookup_delete_ne.
Qed.

Lemma session_list_stored sid sid' msgs now self m :
  m ∈ session_list (stored sid msgs now self) sid' ->
  (sid' = sid /\ m ∈ msgs) \/ m ∈ session_list self sid'.
Proof.
  unfold session_list, stored. cbn.
  destruct (decide (sid = sid')) as [->|Hne].
  - rewrite lookup_insert_eq. cbn. left. now split.
  - rewrite lookup_insert_ne by assumption. now right.
Qed.

Lemma is_session_valid_stores_only fresh sid w :
  stores_only fresh w (snd (_is_session_valid env sid w)).
Proof.
  destruct (is_session_valid_cases env sid w) as [[_ ->]|[[_ ->]|(_ & _ & ->)]];
    cbn [snd].
  - apply stores_only_refl.
  - now apply stores_only_same_memory.
  - intros sid' m H. left. cbn in H. now apply session_list_cleanup in H.
Qed.

Lemma add_message_stores_only sid role content w :
  stores_only (says role content) w (snd (add_message env sid role content w)).
Proof.
  destruct (is_session_valid_cases env sid w)
    as [[Habs Hv]|[[Hlive Hv]|(Hsome & Hexp & Hv)]].
  - unfold add_message. unfold bind at 1. rewrite Hv. apply stores_only_refl.
  - destruct Hlive as [[msgs Hmsgs] Hlive].
    rewrite (add_message_live env sid role content w msgs Hmsgs)
      by (split; [rewrite Hmsgs; eauto | exact Hlive]).
    intros sid' m H. cbn in H.
    apply session_list_stored in H as [[-> H]|H]; [|now left].
    apply trim_history_subset, elem_of_app in H as [H|H].
    + left. unfold session_list. now rewrite Hmsgs.
    + right. apply list_elem_of_singleton in H as ->. now split.
  - unfold add_message. unfold bind at 1. rewrite Hv. cbn [negb snd].
    intros sid' m H. left. cbn in H. now apply session_list_cleanup in H.
Qed.

Lemma get_history_stores_only fresh sid w :
  stores_only fresh w (snd (get_history env sid w)).
Proof.
  unfold get_history. unfold bind at 1.
  pose proof (is_session_valid_stores_only fresh sid w) as H.
  destruct (_is_session_valid env sid w) as [[[|]|e] w1]; cbn [negb snd] in *;
    exact H.
Qed.

Lemma start_session_stores_only w :
  stores_only (says "system" SYSTEM_PROMPT) w (snd (start_session env w)).
Proof.
  unfold start_session. unfold bind at 1. rewrite create_session_spec.
  unfold bind at 1.
  set (w1 := set_memory _ (tick (drawn w))).
  pose proof (add_message_stores_only (uuid_at env (uuid_draws w)) "system"
                SYSTEM_PROMPT w1) as H.
  destruct (add_message_memory_step env (uuid_at env (uuid_draws w)) "system"
              SYSTEM_PROMPT w1) as (w2 & E & _).
  rewrite E in H |- *. cbn [snd] in *.
  intros sid m Hm. destruct (H sid m Hm) as [Hm1|Hf]; [|now right].
  subst w1. cbn in Hm1.
  apply session_list_stored in Hm1 as [[_ Hnil]|Hm1]; [inversion Hnil | now left].
Qed.

Lemma resolve_session_stores_only session_id w :
  stores_only (says "system" SYSTEM_PROMPT) w
    (snd (resolve_session env session_id w)).
Proof.
  unfold resolve_session. destruct session_id as [sid|];
    [|apply start_session_stores_only].
  destruct (PyStr.nonempty sid); [|apply start_session_stores_only].
  unfold bind at 1, session_exists.
  pose proof (is_session_valid_stores_only (says "system" SYSTEM_PROMPT) sid w)
    as H.
  destruct (_is_session_valid env sid w) as [[[|]|e] w1]; cbn [snd] in *;
    try exact H.
  eapply stores_only_trans; [exact H | apply start_session_stores_only].
Qed.

(** Whatever happens during a query (an unknown or expired session, a
    session that expires meanwhile, a failing completer or embedder), the
    messages it adds to the store are the system prompt of a new session,
    the question and, when it returns, the answer it returns: neither the
    assistant message that requested the tools nor a tool result. *)
Lemma process_query_stores_question_and_answer query session_id w :
  stores_only
    (fun m =>
       says "system" SYSTEM_PROMPT m
       \/ says "user" query m
       \/ exists res,
            fst (process_query env query session_id w) = Ok res
            /\ says "assistant" (answer res) m)
    w (snd (process_query env query session_id w)).
Proof.
  destruct (process_query env query session_id w) as [r w'] eqn:E.
  cbn [fst snd]. unfold process_query in E.
  unfold bind at 1 in E.
  pose proof (resolve_session_stores_only session_id w) as S1.
  destruct (resolve_session_memory_step env session_id w) as (sid & w1 & Hr & _).
  rewrite Hr in E, S1. cbn [snd] in S1. unfold bind at 1 in E.
  pose proof (add_message_stores_only sid "user" query w1) as S2.
  destruct (add_message_memory_step env sid "user" query w1) as (w2 & Ha & _).
  rewrite Ha in E, S2. cbn [snd] in S2. unfold bind at 1 in E.
  destruct (get_history_memory_step env sid w2) as (h & w3 & Hg & _).
  rewrite Hg in E. unfold bind at 1 in E.
  destruct (complete_with_tools_world env query h w3) as (rest & Hw & _ & _).
  destruct (complete_with_tools env query h w3) as [[outcome|e] w4];
    cbn [snd] in Hw; subst w4.
  - unfold bind at 1 in E.
    pose proof (add_message_stores_only sid "assistant" (fst outcome)
                  (extend_trace (Completion h true :: rest) w3)) as S5.
    destruct (add_message_memory_step env sid "assistant" (fst outcome)
                (extend_trace (Completion h true :: rest) w3)) as (w5 & Ha5 & _).
    rewrite Ha5 in E, S5. cbn [snd] in S5. unfold ret in E.
    injection E as <- <-.
    set (F := fun m => _ \/ _ \/ _).
    apply stores_only_trans with w1;
      [apply (stores_only_weaken _ F _ _ (fun m H => or_introl H) S1)|].
    apply stores_only_trans with w2;
      [apply (stores_only_weaken _ F _ _
                (fun m H => or_intror (or_introl H)) S2)|].
    apply stores_only_trans with w3.
    { pose proof (get_history_stores_only F sid w2) as S3.
      now rewrite Hg in S3. }
    apply stores_only_trans with (extend_trace (Completion h true :: rest) w3);
      [now apply stores_only_same_memory|].
    apply (stores_only_weaken _ F _ _) in S5; [exact S5|].
    intros m Hm. right. right. eexists. split; [reflexivity | exact Hm].
  - injection E as <- <-.
    set (F := fun m => _ \/ _ \/ _).
    apply stores_only_trans with w1;
      [apply (stores_only_weaken _ F _ _ (fun m H => or_introl H) S1)|].
    apply stores_only_trans with w2;
      [apply (stores_only_weaken _ F _ _
                (fun m H => or_intror (or_introl H)) S2)|].
    apply stores_only_trans with w3.
    { pose proof (get_history_stores_only F sid w2) as S3.
      now rewrite Hg in S3. }
    now apply stores_only_same_memory.
Qed.

(** ** The stored session *)

Lemma stored_stored sid l1 t1 l2 t2 self :
  stored sid l2 t2 (stored sid l1 t1 self) = stored sid l2 t2 self.
Proof. unfold stored. cbn. now rewrite !insert_insert_eq. Qed.

Lemma session_live_stored sid l t self now :
  now - t <= ttl self -> session_live (stored sid l t self) sid now.
Proof.
  intros H. unfold session_live, stored. cbn. rewrite !lookup_insert_eq.
  split; [eauto | exact H].
Qed.

(** Once the session is resolved and stays live while the query is
    processed, a successful [process_query] leaves in the store the list it
    found, followed by the question and by the answer (each append followed
    by the trimming test). *)
Lemma process_query_after_resolve query sid0 w sid w1 base res w' :
  resolve_session env sid0 w = (Ok sid, w1) ->
  sessions (session_memory w1) !! sid = Some base ->
  session_live (session_memory w1) sid (time_at env (clock_reads w1)) ->
  clock_within env (ttl (session_memory w1)) (clock_reads w1) 7 ->
  process_query env query sid0 w = (Ok res, w') ->
  Agent.session_id res = sid
  /\ session_memory w'
     = stored sid
         (trim_history (max_history (session_memory w1))
            (trim_history (max_history (session_memory w1))
               (base ++ [{| role := "user"; content := query;
                            timestamp := time_at env (1 + clock_reads w1) |}])
             ++ [{| role := "assistant"; content := answer res;
                    timestamp := time_at env (5 + clock_reads w1) |}]))
         (time_at env (6 + clock_reads w1))
         (session_memory w1)
  /\ forall m2,
       Completion m2 false ∈ trace w' ->
       Completion m2 false ∈ trace w1
       \/ working_copy
            (map to_dict
               (trim_history (max_history (session_memory w1))
                  (base ++ [{| role := "user"; content := query;
                               timestamp := time_at env (1 + clock_reads w1) |}])))
            m2.
Proof.
  intros Hres Hbase Hlive Hclock E.
  unfold process_query in E. unfold bind at 1 in E. rewrite Hres in E.
  unfold bind at 1 in E.
  rewrite (add_message_live env sid "user" query w1 base Hbase Hlive) in E.
  set (user := {| role := "user"; content := query;
                  timestamp := time_at env (S (clock_reads w1)) |}) in *.
  set (l1 := trim_history (max_history (session_memory w1)) (base ++ [user])) in *.
  set (m1 := stored sid l1 (time_at env (S (S (clock_reads w1))))
               (session_memory w1)) in *.
  set (w2 := set_memory m1 (tick (tick (tick w1)))) in *.
  assert (sessions (session_memory w2) !! sid = Some l1) as Hl1
    by apply lookup_insert_eq.
  unfold bind at 1 in E.
  rewrite (get_history_live env sid w2 l1 Hl1) in E.
  2:{ apply session_live_stored. apply Hclock; cbn; lia. }
  unfold bind at 1 in E.
  set (h := map to_dict l1) in *.
  pose proof (complete_with_tools_working_copy query h (tick w2)) as Hcopy.
  destruct (complete_with_tools_world env query h (tick w2))
    as (rest & Hw & _ & _).
  destruct (complete_with_tools env query h (tick w2)) as [[outcome|e] w4];
    [|discriminate].
  cbn [snd] in Hw, Hcopy. subst w4.
  unfold bind at 1 in E.
  rewrite (add_message_live env sid "assistant" (fst outcome)
             (extend_trace (Completion h true :: rest) (tick w2)) l1) in E.
  2:{ exact Hl1. }
  2:{ apply (session_live_stored sid l1 _ (session_memory w1)).
      apply Hclock; cbn; lia. }
  unfold ret in E. injection E as <- <-. cbn [Agent.session_id answer].
  split; [reflexivity|]. split.
  - cbn. subst m1. now rewrite stored_stored.
  - intros m2 Hin. cbn in Hin. apply Hcopy in Hin. exact Hin.
Qed.

End AgentMemoryFacts.

(* ===================================================================== *)
(** * Trimming, expiry and persistence of sessions *)
(* ===================================================================== *)

Section SessionClaims.
Import Memory Runtime SessionMemory Retrieval Agent Invariants Scenarios.

(** ** Appending a sequence of messages *)

Lemma clock_within_tail env ttl from k n :
  clock_within env ttl from (k + n) -> clock_within env ttl (k + from) n.
Proof. intros H i j Hi Hij Hj. apply H; lia. Qed.

Lemma add_messages_live env sid items :
  forall w msgs,
    sessions (session_memory w) !! sid = Some msgs ->
    (items <> [] ->
     session_live (session_memory w) sid (time_at env (clock_reads w))) ->
    clock_within env (ttl (session_memory w)) (clock_reads w)
      (3 * length items) ->
    sessions (session_memory (snd (add_messages env sid items w))) !! sid
    = Some (append_all (max_history (session_memory w)) msgs
              (stamp_all env (clock_reads w) items)).
Proof.
  induction items as [|[role content] rest IH]; intros w msgs Hmsgs Hlive Hclock.
  - exact Hmsgs.
  - cbn [add_messages stamp_all append_all]. unfold bind at 1.
    rewrite (add_message_live env sid role content w msgs Hmsgs)
      by (apply Hlive; discriminate).
    set (m := {| Memory.role := role; Memory.content := content;
                 timestamp := time_at env (S (clock_reads w)) |}).
    set (l1 := trim_history (max_history (session_memory w)) (msgs ++ [m])).
    set (w1 := set_memory
                 (stored sid l1 (time_at env (S (S (clock_reads w))))
                    (session_memory w))
                 (tick (tick (tick w)))).
    apply (IH w1 l1).
    + apply lookup_insert_eq.
    + intros Hrest. apply session_live_stored.
      destruct rest as [|item rest']; [contradiction|].
      apply Hclock; cbn [length]; cbn; lia.
    + apply (clock_within_tail env _ (clock_reads w) 3).
      cbn [length] in Hclock.
      replace (3 + 3 * length rest)%nat with (3 * S (length rest))%nat by lia.
      exact Hclock.
Qed.

Lemma stamp_all_length env reads items :
  length (stamp_all env reads items) = length items.
Proof.
  revert reads. induction items as [|[role content] rest IH]; intros reads;
    cbn; [reflexivity | now rewrite IH].
Qed.

Lemma stamp_all_non_system env items :
  Forall (fun item => fst item <> "system") items ->
  forall reads,
    system_messages (stamp_all env reads items) = []
    /\ non_system_messages (stamp_all env reads items)
       = stamp_all env reads items.
Proof.
  induction 1 as [|[role content] rest Hrole _ IH]; intros reads;
    cbn [stamp_all]; [now split|].
  cbn in Hrole. apply String.eqb_neq in Hrole.
  destruct (IH (3 + reads)%nat) as [IH1 IH2].
  unfold system_messages, non_system_messages in *.
  cbn [List.filter].
  assert (is_system {| Memory.role := role; Memory.content := content;
                       timestamp := time_at env (S reads) |} = false) as ->
    by exact Hrole.
  cbn [negb].
  split; [exact IH1 | now rewrite IH2].
Qed.

(** With a positive [max_history] the trimming is the one intended. On a
    live session with a positive [max_history], as soon as the
    non-system messages (the new one included) exceed [2 * max_history],
    [add_message] leaves all system messages followed by the
    [2 * max_history] most recent non-system messages, in their order. In
    particular with [max_history = 10], after 25 non-system messages are
    appended the session holds its system messages and the 20 last of the
    appended messages. *)
Theorem add_message_trims_to_recent (env : Env) :
  (forall (w : World) (sid role content : string) (msgs : list Message),
     let self := session_memory w in
     let m := {| Memory.role := role; Memory.content := content;
                 timestamp := time_at env (S (clock_reads w)) |} in
     0 < max_history self ->
     sessions self !! sid = Some msgs ->
     session_live self sid (time_at env (clock_reads w)) ->
     2 * max_history self
     < Z.of_nat (length (non_system_messages (msgs ++ [m]))) ->
     sessions (session_memory (snd (add_message env sid role content w))) !! sid
     = Some (system_messages (msgs ++ [m])
             ++ last_n (Z.to_nat (2 * max_history self))
                  (non_system_messages (msgs ++ [m]))))
  /\ (forall (w : World) (sid : string) (items : list (string * string))
        (msgs : list Message),
        let self := session_memory w in
        max_history self = 10 ->
        sessions self !! sid = Some msgs ->
        session_live self sid (time_at env (clock_reads w)) ->
        clock_within env (ttl self) (clock_reads w) 75 ->
        length items = 25%nat ->
        Forall (fun item => fst item <> "system") items ->
        sessions (session_memory (snd (add_messages env sid items w))) !! sid
        = Some (system_messages msgs
                ++ last_n 20 (stamp_all env (clock_reads w) items))).
Proof.
  split.
  - intros w sid role content msgs self m Hmax Hmsgs Hlive Hover.
    rewrite (add_message_live env sid role content w msgs Hmsgs Hlive).
    cbn. rewrite lookup_insert_eq. f_equal.
    now apply trim_history_over.
  - intros w sid items msgs self Hmax Hmsgs Hlive Hclock Hlen Hroles.
    rewrite (add_messages_live env sid items w msgs Hmsgs (fun _ => Hlive))
      by (rewrite Hlen; exact Hclock).
    f_equal. fold self. rewrite Hmax.
    destruct (stamp_all_non_system env items Hroles (clock_reads w))
      as [Hsys Hnon].
    pose proof (stamp_all_length env (clock_reads w) items) as Hl.
    rewrite append_all_over.
    + rewrite system_messages_app, non_system_messages_app, Hsys, Hnon,
        app_nil_r.
      f_equal. change (Z.to_nat (2 * 10)) with 20%nat.
      symmetry. apply last_n_of_suffix; [|lia].
      now apply suffix_app_r.
    + lia.
    + intros Hnil. rewrite Hnil in Hl. cbn in Hl. lia.
    + rewrite non_system_messages_app, Hnon, length_app. lia.
Qed.

(** ** New sessions *)

(** The three lists of a new session are short enough to escape trimming. *)
Lemma trim_history_new_session max_history t1 t2 t3 query reply :
  0 < max_history ->
  let sys := {| role := "system"; content := SYSTEM_PROMPT; timestamp := t1 |} in
  let usr := {| role := "user"; content := query; timestamp := t2 |} in
  let ans := {| role := "assistant"; content := reply; timestamp := t3 |} in
  trim_history max_history [sys] = [sys]
  /\ trim_history max_history [sys; usr] = [sys; usr]
  /\ trim_history max_history [sys; usr; ans] = [sys; usr; ans].
Proof.
  intros Hmax sys usr ans. unfold trim_history.
  assert (forall l : list Message, (length l <= 2)%nat ->
            last_n (Z.to_nat (2 * max_history)) l = l) as Hlast.
  { intros l Hl. unfold last_n.
    replace (length l - Z.to_nat (2 * max_history))%nat with 0%nat by lia.
    reflexivity. }
  repeat split.
  - destruct (Z.ltb_spec (max_history * 2) (Z.of_nat (length [sys])));
      [cbn in *; lia | reflexivity].
  - destruct (Z.ltb_spec (max_history * 2) (Z.of_nat (length [sys; usr])));
      [cbn in *; lia | reflexivity].
  - destruct (Z.ltb_spec (max_history * 2) (Z.of_nat (length [sys; usr; ans])));
      [|reflexivity].
    rewrite trimmed_eq by assumption.
    change (system_messages [sys; usr; ans]) with [sys].
    change (non_system_messages [sys; usr; ans]) with [usr; ans].
    rewrite Hlast by (cbn; lia). reflexivity.
Qed.

Lemma start_session_spec env w :
  0 < max_history (session_memory w) ->
  time_at env (S (clock_reads w)) - time_at env (clock_reads w)
  <= ttl (session_memory w) ->
  start_session env w
  = (Ok (uuid_at env (uuid_draws w)),
     set_memory
       (stored (uuid_at env (uuid_draws w))
          [{| role := "system"; content := SYSTEM_PROMPT;
              timestamp := time_at env (2 + clock_reads w) |}]
          (time_at env (3 + clock_reads w))
          (session_memory w))
       (tick (tick (tick (tick (drawn w)))))).
Proof.
  intros Hmax Hclock. unfold start_session.
  unfold bind at 1. rewrite create_session_spec.
  unfold bind at 1.
  rewrite (add_message_live env _ "system" SYSTEM_PROMPT _ []).
  - unfold ret. f_equal. cbn [session_memory set_memory clock_reads tick drawn
                              max_history stored app].
    destruct (trim_history_new_session (max_history (session_memory w))
                (time_at env (S (S (clock_reads w)))) 0 0 "" "" Hmax)
      as [-> _].
    unfold set_memory. cbn. now rewrite stored_stored.
  - apply lookup_insert_eq.
  - apply session_live_stored. exact Hclock.
Qed.

(** A query that comes with an identifier which is unknown or expired is
    served in a new session; the check has removed the expired session. *)
Lemma resolve_session_not_live env sid w :
  PyStr.nonempty sid = true ->
  ~ session_live (session_memory w) sid (time_at env (clock_reads w)) ->
  let w0 := snd (session_exists env sid w) in
  fst (session_exists env sid w) = Ok false
  /\ sessions (session_memory w0) !! sid = None
  /\ max_history (session_memory w0) = max_history (session_memory w)
  /\ ttl (session_memory w0) = ttl (session_memory w)
  /\ uuid_draws w0 = uuid_draws w
  /\ resolve_session env (Some sid) w = start_session env w0.
Proof.
  intros Hne Hdead. unfold resolve_session, session_exists.
  rewrite Hne. unfold bind at 1.
  destruct (is_session_valid_cases env sid w)
    as [[Habs ->]|[[Hlive _]|(Hsome & Hexp & ->)]].
  - cbn [fst snd]. now repeat split.
  - contradiction.
  - cbn [fst snd]. repeat split. cbn. apply lookup_delete_eq.
Qed.

Lemma process_query_new_session env query sid0 w w0 res w' :
  resolve_session env sid0 w = start_session env w0 ->
  0 < max_history (session_memory w0) ->
  clock_within env (ttl (session_memory w0)) (clock_reads w0) 11 ->
  process_query env query sid0 w = (Ok res, w') ->
  let new := uuid_at env (uuid_draws w0) in
  Agent.session_id res = new
  /\ sessions (session_memory w')
     = <[new :=
           [{| role := "system"; content := SYSTEM_PROMPT;
               timestamp := time_at env (2 + clock_reads w0) |};
            {| role := "user"; content := query;
               timestamp := time_at env (5 + clock_reads w0) |};
            {| role := "assistant"; content := answer res;
               timestamp := time_at env (9 + clock_reads w0) |}]]>
         (sessions (session_memory w0)).
Proof.
  intros Hres Hmax Hclock Hrun new.
  rewrite start_session_spec in Hres; [|exact Hmax | apply Hclock; lia].
  set (sys := {| role := "system"; content := SYSTEM_PROMPT;
                 timestamp := time_at env (2 + clock_reads w0) |}) in *.
  destruct (process_query_after_resolve env query sid0 w _ _ [sys] res w' Hres)
    as (Hid & Hmem & _); try exact Hrun.
  - apply lookup_insert_eq.
  - apply session_live_stored. apply Hclock; cbn; lia.
  - intros i j Hi Hij Hj. cbn in Hi, Hj. apply Hclock; lia.
  - split; [exact Hid|]. rewrite Hmem. cbn [session_memory set_memory
      clock_reads tick drawn max_history stored sessions].
    destruct (trim_history_new_session (max_history (session_memory w0))
                (time_at env (2 + clock_reads w0))
                (time_at env (5 + clock_reads w0))
                (time_at env (9 + clock_reads w0))
                query (answer res) Hmax) as (_ & H2 & H3).
    fold sys in H2, H3. cbn [app].
    change (time_at env (1 + S (S (S (S (clock_reads w0))))))
      with (time_at env (5 + clock_reads w0)).
    change (time_at env (5 + S (S (S (S (clock_reads w0))))))
      with (time_at env (9 + clock_reads w0)).
    rewrite H2. cbn [app]. rewrite H3. now rewrite insert_insert_eq.
Qed.

(** C6. [session_exists] answers [True] only for a session that is present
    and whose last activity is at most [ttl] old; when it finds a session
    expired it removes the session and its time stamp and answers [False];
    and a query presented with an identifier that is unknown or expired is
    served, when it succeeds, in a new session: a newly drawn identifier
    whose history is the system prompt, the question and the answer. *)
Theorem expired_session_is_evicted_and_replaced (env : Env) :
  (forall (sid : string) (w w' : World),
     session_exists env sid w = (Ok true, w') ->
     session_live (session_memory w) sid (time_at env (clock_reads w)))
  /\ (forall (sid : string) (w : World),
        is_Some (sessions (session_memory w) !! sid) ->
        ttl (session_memory w)
        < time_at env (clock_reads w)
          - default 0 (session_timestamps (session_memory w) !! sid) ->
        fst (session_exists env sid w) = Ok false
        /\ sessions (session_memory (snd (session_exists env sid w))) !! sid
           = None
        /\ session_timestamps (session_memory (snd (session_exists env sid w)))
             !! sid = None)
  /\ (forall (query sid : string) (w : World) (res : QueryResult) (w' : World),
        PyStr.nonempty sid = true ->
        ~ session_live (session_memory w) sid (time_at env (clock_reads w)) ->
        let w0 := snd (session_exists env sid w) in
        0 < max_history (session_memory w) ->
        clock_within env (ttl (session_memory w)) (clock_reads w0) 11 ->
        process_query env query (Some sid) w = (Ok res, w') ->
        let new := uuid_at env (uuid_draws w) in
        Agent.session_id res = new
        /\ sessions (session_memory w') !! new
           = Some [{| role := "system"; content := SYSTEM_PROMPT;
                      timestamp := time_at env (2 + clock_reads w0) |};
                   {| role := "user"; content := query;
                      timestamp := time_at env (5 + clock_reads w0) |};
                   {| role := "assistant"; content := answer res;
                      timestamp := time_at env (9 + clock_reads w0) |}]
        /\ (sid <> new -> sessions (session_memory w') !! sid = None)).
Proof.
  split; [|split].
  - intros sid w w' H. unfold session_exists in H.
    destruct (is_session_valid_cases env sid w)
      as [[_ E]|[[Hlive _]|(_ & _ & E)]]; [congruence | exact Hlive | congruence].
  - intros sid w [msgs Hmsgs] Hexp. unfold session_exists.
    rewrite (is_session_valid_expired env sid w msgs Hmsgs Hexp).
    cbn. rewrite !lookup_delete_eq. now repeat split.
  - intros query sid w res w' Hne Hdead w0 Hmax Hclock Hrun new.
    destruct (resolve_session_not_live env sid w Hne Hdead)
      as (_ & Hgone & Hmh & Httl & Hdraws & Hres).
    fold w0 in Hgone, Hmh, Httl, Hdraws, Hres.
    destruct (process_query_new_session env query (Some sid) w w0 res w' Hres)
      as (Hid & Hmem); try exact Hrun.
    + now rewrite Hmh.
    + now rewrite Httl.
    + rewrite Hdraws in Hid, Hmem. fold new in Hid, Hmem.
      split; [exact Hid|]. rewrite Hmem. split.
      * apply lookup_insert_eq.
      * intros Hneq. rewrite lookup_insert_ne by congruence. exact Hgone.
Qed.


(** ** Instances *)

Ltac compare_by_computation :=
  vm_compute; first [reflexivity | let H := fresh in intros H; discriminate H].

Ltac still_clock :=
  let i := fresh "i" in let j := fresh "j" in
  intros i j _ _ _; compare_by_computation.

Ltac live_by_computation :=
  split; [vm_compute; eexists; reflexivity | compare_by_computation].

Lemma add_message_trims_to_recent_witness :
  sessions
    (session_memory
       (snd (add_message Examples.short_env "s" "user" "c"
               (Examples.world_with Examples.short_settings
                  Examples.one_exchange 1000)))) !! "s"
  = Some [Examples.message "assistant" "b"; Examples.message "user" "c"]
  /\ sessions
       (session_memory
          (snd (add_messages Examples.direct_env "s" Examples.twenty_five
                  (Examples.world_with default_settings
                     [Examples.message "system" "be brief"] 1000)))) !! "s"
     = Some (Examples.message "system" "be brief"
             :: replicate 20 (Examples.message "user" "hi")).
Proof.
  destruct (add_message_trims_to_recent Examples.short_env) as [H1 _].
  destruct (add_message_trims_to_recent Examples.direct_env) as [_ H2].
  split.
  - rewrite (H1 (Examples.world_with Examples.short_settings
                   Examples.one_exchange 1000)
               "s" "user" "c" Examples.one_exchange).
    + vm_compute. reflexivity.
    + compare_by_computation.
    + reflexivity.
    + live_by_computation.
    + compare_by_computation.
  - rewrite (H2 (Examples.world_with default_settings
                   [Examples.message "system" "be brief"] 1000)
               "s" Examples.twenty_five
               [Examples.message "system" "be brief"]).
    + vm_compute. reflexivity.
    + reflexivity.
    + reflexivity.
    + live_by_computation.
    + still_clock.
    + reflexivity.
    + apply Forall_forall. intros item Hin.
      apply elem_of_replicate in Hin as [-> _]. discriminate.
Defined.

(** C5. With [max_history = 0] the trimming removes nothing: a session that
    holds a system message and one user message is sent a second user
    message; its two messages that are not system messages exceed
    [2 * max_history = 0], the trimming branch runs, and the slice
    [[-0:]] keeps both, where the most recent [2 * max_history] messages
    are none. *)
Theorem add_message_with_zero_max_history_trims_nothing :
  let before := [Examples.message "system" "be brief";
                 Examples.message "user" "a"] in
  let after :=
    default []
      (sessions
         (session_memory
            (snd (add_message Cases.no_history_env "s" "user" "b"
                    (Examples.world_with Cases.no_history_settings
                       before 1000)))) !! "s") in
  max_history
    (session_memory (Examples.world_with Cases.no_history_settings before 1000))
  = 0
  /\ after = before ++ [Examples.message "user" "b"]
  /\ 2 * 0 < Z.of_nat (length (non_system_messages after))
  /\ after
     <> system_messages after
        ++ last_n (Z.to_nat (2 * 0)) (non_system_messages after).
Proof.
  cbv zeta. split; [reflexivity|]. split; [vm_compute; reflexivity|].
  split; [vm_compute; reflexivity|]. vm_compute. discriminate.
Qed.

Lemma search_returns_nearest_documents_witness :
  store_wf Examples.store3
  /\ exists res,
       VectorStore.search (kernel := Float32.kernel) default_settings
         (Examples.length_embedder 1) "qq" (Some 2) Examples.store3 = Ok res
       /\ length res = 2%nat
       /\ StronglySorted Qle (map snd res).
Proof.
  assert (store_wf Examples.store3) as Hwf.
  { vm_compute. repeat split. discriminate. }
  split; [exact Hwf|].
  destruct (search_returns_nearest_documents (kernel := Float32.kernel)
              default_settings (Examples.length_embedder 1) Examples.store3
              "qq" (Some 2) Hwf)
    as [_ H].
  destruct (H (Examples.length_vector 1 "qq") eq_refl)
    as (res & Hres & Hlen & Hsorted & _).
  - intros ix Hix. vm_compute in Hix. injection Hix as <-. reflexivity.
  - compare_by_computation.
  - exists res. split; [exact Hres|]. split; [|exact Hsorted].
    assert (Z.of_nat (length res) = 2) as Hlen2 by exact Hlen.
    lia.
Defined.

Lemma expired_session_is_evicted_and_replaced_witness :
  session_live
    (session_memory
       (Examples.world_with default_settings [Examples.message "user" "a"] 1000))
    "s" 1000
  /\ sessions
       (session_memory
          (snd (session_exists Examples.direct_env "s"
                  (Examples.world_with default_settings
                     [Examples.message "user" "a"] (-5000))))) !! "s"
     = None
  /\ sessions
       (session_memory
          (snd (process_query Examples.direct_env "What is 2+2?" (Some "gone")
                  Examples.world0))) !! "session-0"
     = Some [Examples.message "system" SYSTEM_PROMPT;
             Examples.message "user" "What is 2+2?";
             Examples.message "assistant" "4"].
Proof.
  destruct (expired_session_is_evicted_and_replaced Examples.direct_env)
    as (Ha & Hb & Hc).
  split; [|split].
  - apply (Ha "s" (Examples.world_with default_settings
                     [Examples.message "user" "a"] 1000)
             (tick (Examples.world_with default_settings
                      [Examples.message "user" "a"] 1000))).
    vm_compute. reflexivity.
  - apply (Hb "s" (Examples.world_with default_settings
                     [Examples.message "user" "a"] (-5000))).
    + vm_compute. eexists. reflexivity.
    + compare_by_computation.
  - pose (p := process_query Examples.direct_env "What is 2+2?" (Some "gone")
                 Examples.world0).
    assert (p = (Ok {| answer := "4"; sources := [];
                       Agent.session_id := "session-0" |}, snd p)) as Hrun.
    { transitivity (fst p, snd p); [apply surjective_pairing|].
    apply (f_equal (fun x => (x, snd p))). vm_compute. reflexivity. }
    assert (~ session_live (session_memory Examples.world0) "gone"
                (time_at Examples.direct_env (clock_reads Examples.world0)))
      as Hdead.
    { intros [[msgs Hmsgs] _]. vm_compute in Hmsgs. discriminate Hmsgs. }
    assert (0 < max_history (session_memory Examples.world0)) as Hmax
      by compare_by_computation.
    assert (clock_within Examples.direct_env
              (ttl (session_memory Examples.world0))
              (clock_reads
                 (snd (session_exists Examples.direct_env "gone"
                         Examples.world0))) 11) as Hclock
      by still_clock.
    destruct (Hc "What is 2+2?" "gone" Examples.world0 _ (snd p) eq_refl
                Hdead Hmax Hclock Hrun) as (_ & Hmem & _).
    exact Hmem.
Defined.


End SessionClaims.

(* ===================================================================== *)
(** * More about the chunker: clean chunks, short texts, progress *)
(* ===================================================================== *)

Section ChunkerShapeFacts.
Import PyStr Retriever Shapes.

(** ** Strings as lists of characters *)

Lemma list_of_rev_app s1 s2 :
  list_ascii_of_string (String.rev_app s1 s2)
  = List.rev (list_ascii_of_string s1) ++ list_ascii_of_string s2.
Proof.
  revert s2. induction s1 as [|c s1 IH]; intros s2; cbn; [reflexivity|].
  rewrite IH. cbn. now rewrite <- app_assoc.
Qed.

Lemma list_of_rev s :
  list_ascii_of_string (String.rev s) = List.rev (list_ascii_of_string s).
Proof. unfold String.rev. rewrite list_of_rev_app. cbn. apply app_nil_r. Qed.

Lemma list_of_string_inj s1 s2 :
  list_ascii_of_string s1 = list_ascii_of_string s2 -> s1 = s2.
Proof.
  intros H. rewrite <- (string_of_list_ascii_of_string s1),
    <- (string_of_list_ascii_of_string s2). now rewrite H.
Qed.

Lemma string_rev_involutive s : String.rev (String.rev s) = s.
Proof.
  apply list_of_string_inj. now rewrite !list_of_rev, List.rev_involutive.
Qed.

Lemma starts_clean_list s :
  starts_clean s <->
  match list_ascii_of_string s with
  | c :: _ => is_space c = false
  | [] => True
  end.
Proof. destruct s; reflexivity. Qed.

(** ** [strip] *)

Lemma lstrip_starts_clean s : starts_clean (lstrip s).
Proof.
  induction s as [|c s IH]; cbn; [exact I|].
  destruct (is_space c) eqn:E; [exact IH | exact E].
Qed.

Lemma lstrip_is_suffix s :
  exists pre,
    list_ascii_of_string s = pre ++ list_ascii_of_string (lstrip s).
Proof.
  induction s as [|c s [pre IH]]; cbn; [now exists []|].
  destruct (is_space c).
  - exists (c :: pre). cbn. now rewrite IH.
  - now exists [].
Qed.

Lemma strip_ends_clean s : ends_clean (strip s).
Proof.
  unfold ends_clean, strip, rstrip. rewrite string_rev_involutive.
  apply lstrip_starts_clean.
Qed.

Lemma strip_starts_clean s : starts_clean (strip s).
Proof.
  unfold strip, rstrip. set (t := lstrip s).
  pose proof (lstrip_starts_clean s) as Ht. fold t in Ht.
  destruct (lstrip_is_suffix (String.rev t)) as [pre Hpre].
  set (u := lstrip (String.rev t)) in *.
  apply starts_clean_list. rewrite list_of_rev.
  rewrite list_of_rev in Hpre.
  apply (f_equal (@List.rev ascii)) in Hpre.
  rewrite List.rev_involutive, List.rev_app_distr in Hpre.
  apply starts_clean_list in Ht. rewrite Hpre in Ht.
  destruct (List.rev (list_ascii_of_string u)); [exact I | exact Ht].
Qed.

Lemma nonempty_true s : nonempty s = true -> s <> EmptyString.
Proof. destruct s; [discriminate | discriminate]. Qed.

(** ** Every chunk is clean *)

Lemma split_loop_clean fuel self text :
  forall st chunks,
    Forall clean_chunk (snd st) ->
    split_loop fuel self text st = Some chunks ->
    Forall clean_chunk chunks.
Proof.
  induction fuel as [|fuel IH]; intros [start acc] chunks Hacc;
    rewrite split_loop_eq; cbn [fst snd];
    destruct (start <? len text); try discriminate;
    try (intros [= <-]; exact Hacc).
  apply IH. cbn [split_step snd].
  destruct (nonempty (iter_chunk self text start)) eqn:E; [|exact Hacc].
  apply Forall_app. split; [exact Hacc|].
  constructor; [|constructor].
  split; [now apply nonempty_true|].
  unfold iter_chunk. split; [apply strip_starts_clean | apply strip_ends_clean].
Qed.

(** X1. Whenever [_split_text] returns, none of its chunks is empty and none
    begins or ends with white space. *)
Theorem split_text_chunks_are_clean
    (fuel : nat) (self : DocumentRetriever) (text : string)
    (chunks : list string) :
  _split_text fuel self text = Some chunks ->
  Forall clean_chunk chunks.
Proof. apply split_loop_clean. constructor. Qed.

Lemma split_text_chunks_are_clean_witness :
  Forall clean_chunk ["hello"; "o world."; ". this is"; "s a test"].
Proof.
  apply (split_text_chunks_are_clean 10
           {| chunk_size := 10; chunk_overlap := 2 |}
           "hello world. this is a test").
  vm_compute. reflexivity.
Defined.

End ChunkerShapeFacts.

Section ChunkerProgressFacts.
Import PyStr Retriever Shapes.

(** ** A text that fits into one chunk *)

Lemma substring_all s : substring 0 (String.length s) s = s.
Proof. induction s as [|c s IH]; cbn; [reflexivity | now rewrite IH]. Qed.

Lemma slice_whole text b : len text <= b -> slice text 0 b = text.
Proof.
  intros Hb. unfold slice, clamp_index. pose proof (len_nonneg text) as Hn.
  cbn [Z.ltb Z.compare].
  destruct (Z.ltb_spec b 0); [lia|].
  rewrite (Z.min_l 0), (Z.min_r b) by lia.
  destruct (Z.ltb_spec 0 (len text)) as [Hpos|Hz].
  - rewrite Z.sub_0_r. unfold len. rewrite Nat2Z.id. apply substring_all.
  - destruct text; [reflexivity | unfold len in Hz; cbn in Hz; lia].
Qed.

(** X2. A text that is not longer than [chunk_size] comes back as one chunk, the
    stripped text, or as no chunk when nothing is left after stripping (in
    particular for the empty text). No boundary is searched. *)
Theorem split_text_short_text
    (fuel : nat) (self : DocumentRetriever) (text : string) :
  len text <= chunk_size self ->
  _split_text (S fuel) self text
  = Some (if nonempty (strip text) then [strip text] else []).
Proof.
  intros Hfit. unfold _split_text. rewrite split_loop_eq. cbn [fst snd].
  pose proof (len_nonneg text) as Hn.
  destruct (Z.ltb_spec 0 (len text)) as [Hpos|Hz].
  - assert (iter_end self text 0 = chunk_size self) as Hend.
    { unfold iter_end, snap_end. rewrite Z.add_0_l.
      destruct (Z.ltb_spec (chunk_size self) (len text)); [lia | reflexivity]. }
    assert (iter_next self text 0 = len text) as Hnext.
    { unfold iter_next. rewrite Hend.
      destruct (Z.ltb_spec (chunk_size self) (len text)); [lia | reflexivity]. }
    assert (iter_chunk self text 0 = strip text) as Hchunk.
    { unfold iter_chunk. rewrite Hend. now rewrite slice_whole. }
    cbn [split_step]. rewrite Hnext, Hchunk.
    rewrite split_loop_eq. cbn [fst snd]. rewrite Z.ltb_irrefl.
    now destruct (nonempty (strip text)).
  - destruct text; [reflexivity | unfold len in Hz; cbn in Hz; lia].
Qed.

Lemma split_text_short_text_witness :
  _split_text 1 default_retriever "  a short note  " = Some ["a short note"].
Proof.
  apply (split_text_short_text 0 default_retriever "  a short note  ").
  vm_compute. discriminate.
Defined.

(** ** Progress on a text without boundaries *)

Lemma substring_get s : forall n m p,
  (p < m)%nat ->
  String.get p (substring n m s) = String.get (p + n) s.
Proof.
  intros n m p Hp. now apply substring_correct1.
Qed.

Lemma rfind_scan_hit s sub lo cnt :
  rfind_scan s sub lo cnt <> -1 ->
  exists i, substring i (String.length sub) s = sub.
Proof.
  induction cnt as [|c IH]; cbn [rfind_scan]; [congruence|].
  destruct (String.eqb_spec (substring (lo + c) (String.length sub) s) sub)
    as [E|_]; [eauto | exact IH].
Qed.

Lemma rfind_hit s sub start end_ :
  rfind s sub start end_ <> -1 ->
  exists i, substring i (String.length sub) s = sub.
Proof.
  unfold rfind. destruct (_ <? _); [congruence | apply rfind_scan_hit].
Qed.

Lemma boundary_free_rfind text start end_ :
  boundary_free text ->
  rfind text para start end_ = -1
  /\ rfind text ". " start end_ = -1
  /\ rfind text " " start end_ = -1.
Proof.
  intros Hfree.
  assert (forall sub p c,
            (p < String.length sub)%nat -> String.get p sub = Some c ->
            (c = " "%char \/ c = nl) ->
            rfind text sub start end_ = -1) as H.
  { intros sub p c Hp Hc Hbad.
    destruct (Z.eq_dec (rfind text sub start end_) (-1)) as [E|E]; [exact E|].
    destruct (rfind_hit _ _ _ _ E) as [i Hi].
    pose proof (substring_get text i (String.length sub) p Hp) as Hg.
    rewrite Hi, Hc in Hg. symmetry in Hg.
    destruct (Hfree _ _ Hg) as [H1 H2]. destruct Hbad; contradiction. }
  split; [|split].
  - apply (H para 0%nat nl); [cbn; lia | reflexivity | now right].
  - apply (H ". " 1%nat " "%char); [cbn; lia | reflexivity | now left].
  - apply (H " " 0%nat " "%char); [cbn; lia | reflexivity | now left].
Qed.

Lemma boundary_free_snap_end text start end_ :
  boundary_free text -> snap_end text start end_ = end_.
Proof.
  intros Hfree. unfold snap_end.
  destruct (boundary_free_rfind text start end_ Hfree) as (-> & -> & ->).
  cbn. now destruct (end_ <? len text).
Qed.

Lemma boundary_free_iter_next self text start :
  boundary_free text ->
  chunk_overlap self < chunk_size self ->
  start < len text ->
  start < iter_next self text start.
Proof.
  intros Hfree Hcfg Hlt. unfold iter_next, iter_end.
  rewrite boundary_free_snap_end by assumption.
  destruct (Z.ltb_spec (start + chunk_size self) (len text)); lia.
Qed.

Lemma boundary_free_split_loop self text :
  boundary_free text ->
  chunk_overlap self < chunk_size self ->
  forall fuel st,
    len text - fst st <= Z.of_nat fuel ->
    exists chunks, split_loop fuel self text st = Some chunks.
Proof.
  intros Hfree Hcfg fuel.
  induction fuel as [|fuel IH]; intros [start acc] Hfuel;
    rewrite split_loop_eq; cbn [fst snd] in *;
    destruct (Z.ltb_spec start (len text)) as [Hlt|Hge]; eauto.
  - lia.
  - apply IH. rewrite split_step_fst.
    pose proof (boundary_free_iter_next self text start Hfree Hcfg Hlt). lia.
Qed.

(** X3. On a text without spaces and line feeds, with an overlap smaller than
    the chunk size, each iteration moves [start] strictly forward and
    [_split_text] returns after at most [len(text)] iterations. *)
Theorem split_text_terminates_without_boundaries
    (self : DocumentRetriever) (text : string) :
  boundary_free text ->
  chunk_overlap self < chunk_size self ->
  (forall start, start < len text -> start < iter_next self text start)
  /\ exists chunks,
       _split_text (Z.to_nat (len text)) self text = Some chunks.
Proof.
  intros Hfree Hcfg. split.
  - intros start Hlt.
    exact (boundary_free_iter_next self text start Hfree Hcfg Hlt).
  - unfold _split_text. apply boundary_free_split_loop; try assumption.
    cbn [fst]. pose proof (len_nonneg text). lia.
Qed.

Lemma split_text_terminates_without_boundaries_witness :
  exists chunks,
    _split_text 5 {| chunk_size := 3; chunk_overlap := 1 |} "abcde"
    = Some chunks.
Proof.
  apply (split_text_terminates_without_boundaries
           {| chunk_size := 3; chunk_overlap := 1 |} "abcde").
  - intros i c H.
    do 5 (destruct i as [|i];
          [cbn in H; injection H as <-; split; discriminate|]).
    cbn in H. discriminate H.
  - cbn. lia.
Defined.

End ChunkerProgressFacts.

(* ===================================================================== *)
(** * More about the vector store: appends, nearest neighbours *)
(* ===================================================================== *)

Section VectorStoreMoreFacts.
Import VectorStore Invariants.
Context {kernel : Faiss.DistanceKernel}.

(** ** What a successful [add_documents] leaves *)

(** X4. Whenever [add_documents] returns normally on a non-empty batch, the
    documents and the vectors stored before are still there, at the same
    positions; the new documents and their embeddings follow them, in the
    order of the batch; every new vector has the dimension of the index; and
    the store is initialised. *)
Theorem add_documents_appends
    (emb : Embedder) (docs : list Document) (self self' : t) :
  docs <> [] ->
  add_documents emb docs self = (Ok tt, self') ->
  exists embeddings ix',
    generate_embeddings_batch emb (map content docs) = Ok embeddings
    /\ index self' = Some ix'
    /\ Faiss.xb ix'
       = match index self with Some ix => Faiss.xb ix | None => [] end
         ++ embeddings
    /\ Forall (fun v => length v = Faiss.d ix') embeddings
    /\ documents self' = documents self ++ docs
    /\ is_initialized self' = true
    /\ (forall i doc, documents self !! i = Some doc ->
                      documents self' !! i = Some doc).
Proof.
  intros Hdocs. unfold add_documents.
  destruct docs as [|doc docs']; [contradiction|].
  destruct (generate_embeddings_batch emb _) as [embeddings|e] eqn:Hemb;
    [|discriminate].
  destruct (Faiss.np_array embeddings) as [arr|e] eqn:Harr; [|discriminate].
  destruct (np_array_Ok _ _ Harr) as [[-> ->]|(cols & -> & _ & Hall)].
  - destruct (index self); cbn; discriminate.
  - destruct (index self) as [ix|] eqn:Hix; cbn.
    + destruct (Nat.eqb_spec cols (Faiss.d ix)) as [->|Hne]; [|discriminate].
      intros [= <-]. exists embeddings, {| Faiss.d := Faiss.d ix;
                                          Faiss.xb := Faiss.xb ix ++ embeddings |}.
      cbn. repeat split; try assumption.
      intros i d Hd. now apply lookup_app_l_Some.
    + rewrite Nat.eqb_refl. intros [= <-].
      exists embeddings, {| Faiss.d := cols; Faiss.xb := embeddings |}.
      cbn. repeat split; try assumption.
      intros i d Hd. now apply lookup_app_l_Some.
Qed.

Lemma add_documents_appends_witness :
  documents Examples.store3 = Examples.three_docs
  /\ is_initialized Examples.store3 = true.
Proof.
  destruct (add_documents_appends (Examples.length_embedder 1)
              Examples.three_docs init Examples.store3)
    as (embeddings & ix' & _ & _ & _ & _ & Hdocs & Hinit & _).
  - discriminate.
  - vm_compute. reflexivity.
  - split; [exact Hdocs | exact Hinit].
Defined.

(** ** The hits of [search] when every distance is in range *)

Lemma slots_read_rows (docs : list Document) (best : list (nat * Q)) :
  forall res,
    Forall2 (fun h r => py_index docs (fst h) = Ok (fst r) /\ snd r = snd h)
      (map slot best) res ->
    Forall2 (fun p r => docs !! fst p = Some (fst r) /\ snd r = snd p)
      best res.
Proof.
  induction best as [|p best IH]; intros res Hrows;
    inversion Hrows as [|h r hits res' [Hd Hs] Hrest]; subst; constructor.
  - split; [now apply py_index_nat | exact Hs].
  - now apply IH.
Qed.

(** On a well-formed, non-empty store, when every stored row has a distance
    to the query that is in range, the result of [search] follows, pair by
    pair, the [min k count] first rows in the order of increasing
    distance. *)
Lemma search_follows_sorted_rows settings emb self query k qv ix :
  store_wf self ->
  index self = Some ix ->
  generate_embedding emb query = Ok qv ->
  length qv = Faiss.d ix ->
  0 < k_or_default settings k ->
  Faiss.all_in_range ix qv = true ->
  exists res,
    search settings emb query k self = Ok res
    /\ Forall2 (fun p r => documents self !! fst p = Some (fst r)
                           /\ snd r = snd p)
         (take (Z.to_nat (Z.min (k_or_default settings k)
                            (Z.of_nat (length (documents self)))))
            (Faiss.sort_by_distance (scored ix qv)))
         res.
Proof.
  intros Hwf Hix Hqv Hdim Hk Hall.
  destruct (search_hits settings emb self query k qv ix Hwf Hix Hqv Hdim Hk)
    as (res & Hres & Hrows).
  exists res. split; [exact Hres|].
  rewrite (candidates_all_in_range ix qv Hall) in Hrows.
  unfold store_wf in Hwf. rewrite Hix in Hwf. destruct Hwf as (Hn & Hne & _).
  set (n := Z.to_nat (Z.min (k_or_default settings k)
                        (Z.of_nat (length (documents self))))) in *.
  assert (length (take n (Faiss.sort_by_distance (scored ix qv))) = n) as Hlen.
  { rewrite length_take,
      (Permutation_length (sort_by_distance_Permutation _)), scored_length.
    subst n. lia. }
  rewrite Hlen, Nat.sub_diag in Hrows. cbn [replicate] in Hrows.
  rewrite app_nil_r in Hrows.
  now apply slots_read_rows.
Qed.

(** ** The nearest come first *)

Lemma scored_distances ix q :
  Faiss.all_in_range ix q = true ->
  map Some (map snd (scored ix q)) = map (Faiss.fvec_L2sqr q) (Faiss.xb ix).
Proof.
  unfold Faiss.all_in_range, scored. generalize (Faiss.xb ix). intros l.
  assert (forall (g : nat -> nat),
            forallb (fun v => match Faiss.in_range (Faiss.fvec_L2sqr q v) with
                              | Some _ => true
                              | None => false
                              end) l = true ->
            map Some
              (map snd
                 (imap (fun i v =>
                          (g i, default 0%Q
                                  (Faiss.in_range (Faiss.fvec_L2sqr q v)))) l))
            = map (Faiss.fvec_L2sqr q) l) as H.
  { induction l as [|v l IH]; intros g; cbn [forallb imap map];
      [reflexivity|].
    destruct (Faiss.in_range (Faiss.fvec_L2sqr q v)) as [x|] eqn:E;
      [|discriminate].
    cbn [andb default snd]. intros Hall.
    apply in_range_Some in E as [-> _]. f_equal.
    apply (IH (fun i => g (S i)) Hall). }
  apply (H (fun i => i)).
Qed.

Lemma sorted_app_elem {A} (R : A -> A -> Prop) l1 l2 x1 x2 :
  StronglySorted R (l1 ++ l2) -> x1 ∈ l1 -> x2 ∈ l2 -> R x1 x2.
Proof.
  induction l1 as [|y l1 IH]; cbn; intros Hs H1 H2; [inversion H1|].
  inversion Hs as [|? ? Hs' Hall]; subst.
  apply elem_of_cons in H1 as [->|H1]; [|now apply IH].
  rewrite Forall_forall in Hall. apply Hall, elem_of_app. now right.
Qed.

(** X5. When every stored row has a distance to the query that is in range
    (no overflow), the distances returned by [search] are the
    [min k count] smallest of the distances that faiss computes from the
    query to the stored vectors: together with the distances left out they
    make up all of them, and none left out is smaller than one returned. *)
Theorem search_returns_smallest_distances
    (settings : Settings) (emb : Embedder) (self : t)
    (query : string) (k : option Z) (qv : vector) (ix : Faiss.IndexFlatL2) :
  store_wf self ->
  index self = Some ix ->
  generate_embedding emb query = Ok qv ->
  length qv = Faiss.d ix ->
  0 < k_or_default settings k ->
  Faiss.all_in_range ix qv = true ->
  exists res left_out,
    search settings emb query k self = Ok res
    /\ map Some (map snd res ++ left_out)
       ≡ₚ map (Faiss.fvec_L2sqr qv) (Faiss.xb ix)
    /\ forall near far,
         near ∈ map snd res -> far ∈ left_out -> (near <= far)%Q.
Proof.
  intros Hwf Hix Hqv Hdim Hk Hall.
  destruct (search_follows_sorted_rows settings emb self query k qv ix
              Hwf Hix Hqv Hdim Hk Hall) as (res & Hres & Hrows).
  set (n := Z.to_nat (Z.min (k_or_default settings k)
                        (Z.of_nat (length (documents self))))) in *.
  set (sorted := Faiss.sort_by_distance (scored ix qv)) in *.
  exists res, (map snd (drop n sorted)).
  split; [exact Hres|].
  rewrite (Forall2_distances _ _ _ Hrows). split.
  - rewrite <- map_app, take_drop. subst sorted.
    rewrite <- (scored_distances ix qv Hall).
    apply Permutation_map, Permutation_map, sort_by_distance_Permutation.
  - intros near far Hnear Hfar.
    apply list_elem_of_In, in_map_iff in Hnear as (p1 & <- & Hp1).
    apply list_elem_of_In, in_map_iff in Hfar as (p2 & <- & Hp2).
    apply list_elem_of_In in Hp1, Hp2.
    pose proof (sort_by_distance_sorted (scored ix qv)) as Hs.
    fold sorted in Hs. rewrite <- (take_drop n sorted) in Hs.
    exact (sorted_app_elem _ _ _ p1 p2 Hs Hp1 Hp2).
Qed.

(** ** Asking for everything *)

Lemma map_Some_inj {A} (l1 l2 : list A) :
  map Some l1 = map Some l2 -> l1 = l2.
Proof.
  revert l2. induction l1 as [|x l1 IH]; intros [|y l2]; cbn; try discriminate;
    [reflexivity|].
  intros [= -> H]. f_equal. now apply IH.
Qed.

Lemma lookups_of_scored (docs : list Document) ix q :
  Faiss.ntotal ix = length docs ->
  map (fun p : nat * Q => docs !! fst p) (scored ix q) = map Some docs.
Proof.
  unfold Faiss.ntotal, scored. generalize (Faiss.xb ix). intros l.
  revert docs. induction l as [|v l IH] using rev_ind; intros docs Hlen.
  - destruct docs; [reflexivity | discriminate].
  - rewrite length_app in Hlen. cbn in Hlen.
    destruct (exists_last (l := docs)) as (docs' & doc & ->).
    { intros ->. cbn in Hlen. lia. }
    rewrite length_app in Hlen. cbn in Hlen.
    assert (length l = length docs') as Hl by lia.
    rewrite imap_app, !map_app. cbn.
    rewrite Nat.add_0_r, Hl, list_lookup_middle by reflexivity.
    f_equal. rewrite <- (IH docs' Hl).
    apply map_ext_in. intros [i d] Hin. cbn.
    apply list_elem_of_In, elem_of_lookup_imap in Hin
      as (j & w & [= -> ->] & Hj).
    apply lookup_lt_Some in Hj. apply lookup_app_l. lia.
Qed.

(** X6. When at least as many results are requested as documents are stored
    and every stored row has a distance to the query that is in range (no
    overflow), [search] returns every stored document exactly once. *)
Theorem search_all_returns_every_document
    (settings : Settings) (emb : Embedder) (self : t)
    (query : string) (k : option Z) (qv : vector) (ix : Faiss.IndexFlatL2) :
  store_wf self ->
  index self = Some ix ->
  generate_embedding emb query = Ok qv ->
  length qv = Faiss.d ix ->
  Z.of_nat (length (documents self)) <= k_or_default settings k ->
  Faiss.all_in_range ix qv = true ->
  exists res,
    search settings emb query k self = Ok res
    /\ map fst res ≡ₚ documents self.
Proof.
  intros Hwf Hix Hqv Hdim Hk Hall.
  assert (Faiss.ntotal ix = length (documents self)
          /\ documents self <> []) as [Hn Hne].
  { unfold store_wf in Hwf. rewrite Hix in Hwf. now destruct Hwf as (? & ? & _). }
  assert (0 < length (documents self))%nat as Hpos.
  { destruct (documents self); [contradiction | cbn; lia]. }
  destruct (search_follows_sorted_rows settings emb self query k qv ix
              Hwf Hix Hqv Hdim) as (res & Hres & Hrows); [lia | exact Hall |].
  exists res. split; [exact Hres|].
  rewrite Z.min_r, Nat2Z.id in Hrows by lia.
  rewrite take_ge in Hrows.
  2:{ rewrite (Permutation_length (sort_by_distance_Permutation _)),
        scored_length. lia. }
  assert (map Some (map fst res)
          = map (fun p : nat * Q => documents self !! fst p)
              (Faiss.sort_by_distance (scored ix qv))) as Hmap.
  { clear -Hrows. induction Hrows as [|p r l1 l2 [Hd _] _ IH]; cbn;
      [reflexivity | now rewrite Hd, IH]. }
  pose proof (Permutation_map (fun p : nat * Q => documents self !! fst p)
                (sort_by_distance_Permutation (scored ix qv))) as Hperm.
  rewrite <- Hmap, (lookups_of_scored _ ix qv Hn) in Hperm.
  apply Permutation_map_inv in Hperm as (l3 & Hl3 & Hp3).
  apply map_Some_inj in Hl3. subst l3. now symmetry.
Qed.

(** ** Distances *)

Lemma FLT_MAX_pos : (0 < Faiss.FLT_MAX)%Q.
Proof. reflexivity. Qed.

(** X7. No distance returned by [search] is negative, and when the embedding of
    the query is one of the stored vectors the first result is at distance
    zero. *)
Theorem search_exact_match_comes_first
    (settings : Settings) (emb : Embedder) (self : t)
    (query : string) (k : option Z) (qv : vector) (ix : Faiss.IndexFlatL2) :
  store_wf self ->
  index self = Some ix ->
  generate_embedding emb query = Ok qv ->
  length qv = Faiss.d ix ->
  0 < k_or_default settings k ->
  exists res,
    search settings emb query k self = Ok res
    /\ Forall (fun r => (0 <= snd r)%Q) res
    /\ (qv ∈ Faiss.xb ix ->
        exists doc dist rest,
          res = (doc, dist) :: rest /\ (dist == 0)%Q).
Proof.
  intros Hwf Hix Hqv Hdim Hk.
  destruct (search_hits settings emb self query k qv ix Hwf Hix Hqv Hdim Hk)
    as (res & Hres & Hrows).
  set (n := Z.to_nat (Z.min (k_or_default settings k)
                        (Z.of_nat (length (documents self))))) in *.
  set (sorted := Faiss.sort_by_distance (Faiss.candidates ix qv)) in *.
  assert (forall p, p ∈ sorted -> (0 <= snd p)%Q) as Hcand.
  { intros [j x] Hin. subst sorted.
    rewrite (sort_by_distance_Permutation _) in Hin.
    apply candidates_elem in Hin as (v & _ & Hx & _). cbn.
    exact (Faiss.fvec_L2sqr_nonneg qv v x Hx). }
  assert (Forall (fun h : Z * Q => (0 <= snd h)%Q)
            (map slot (take n sorted)
             ++ replicate (n - length (take n sorted))%nat
                  (-1, Faiss.FLT_MAX))) as Hhits.
  { apply Forall_app. split.
    - apply Forall_forall. intros h Hh.
      apply list_elem_of_fmap in Hh as (p & -> & Hp).
      apply subseteq_take in Hp. exact (Hcand p Hp).
    - apply Forall_forall. intros h Hh.
      apply elem_of_replicate in Hh as [-> _].
      apply Qlt_le_weak, FLT_MAX_pos. }
  exists res. split; [exact Hres|]. split.
  - clear -Hrows Hhits. induction Hrows as [|h r hits res [_ Hd] _ IH];
      [constructor|].
    inversion Hhits; subst. constructor; [now rewrite Hd | now apply IH].
  - intros Hin. clear Hhits.
    apply list_elem_of_lookup in Hin as [i Hi].
    destruct (Faiss.fvec_L2sqr_self qv) as (zero & Hself & Hzero).
    assert ((i, zero) ∈ sorted) as Hmem.
    { subst sorted. rewrite (sort_by_distance_Permutation _).
      apply (candidates_from_complete qv (Faiss.xb ix) 0 i qv zero Hi Hself).
      apply Qle_lt_trans with 0%Q; [|apply FLT_MAX_pos].
      rewrite Hzero. apply Qle_refl. }
    pose proof (sort_by_distance_sorted (Faiss.candidates ix qv)) as Hsorted.
    fold sorted in Hsorted.
    assert (0 < n)%nat as Hn.
    { unfold store_wf in Hwf. rewrite Hix in Hwf.
      destruct Hwf as (_ & Hne & _). subst n.
      destruct (documents self); [contradiction | cbn; lia]. }
    destruct sorted as [|[j x] others]; [inversion Hmem|].
    destruct n as [|n']; [lia|]. cbn [take map app] in Hrows.
    inversion Hrows as [|h [doc dist] hits rest [_ Hd] _]; subst.
    exists doc, dist, rest. split; [reflexivity|]. cbn in Hd. subst dist.
    assert (x <= zero)%Q as Hup.
    { apply elem_of_cons in Hmem as [[= <- <-]|Hmem]; [apply Qle_refl|].
      inversion Hsorted as [|? ? _ Hfirst]; subst.
      rewrite Forall_forall in Hfirst. exact (Hfirst _ Hmem). }
    apply Qle_antisym.
    + rewrite <- Hzero. exact Hup.
    + apply (Hcand (j, x)). apply elem_of_cons. now left.
Qed.

End VectorStoreMoreFacts.

Section VectorStoreInstances.
Import VectorStore Invariants.

Lemma search_returns_smallest_distances_witness :
  exists res left_out,
    search (kernel := Float32.kernel) default_settings
      (Examples.length_embedder 1) "qq" (Some 2) Examples.store3 = Ok res
    /\ length (map snd res ++ left_out) = 3%nat.
Proof.
  destruct (search_returns_smallest_distances (kernel := Float32.kernel)
              default_settings
              (Examples.length_embedder 1) Examples.store3 "qq" (Some 2)
              (Examples.length_vector 1 "qq")
              {| Faiss.d := 1;
                 Faiss.xb := map (Examples.length_vector 1) ["a"; "bb"; "ccc"] |})
    as (res & left_out & Hres & Hperm & _).
  - vm_compute. repeat split. discriminate.
  - reflexivity.
  - reflexivity.
  - reflexivity.
  - vm_compute. reflexivity.
  - vm_compute. reflexivity.
  - exists res, left_out. split; [exact Hres|].
    apply Permutation_length in Hperm. rewrite !length_map in Hperm.
    exact Hperm.
Defined.

Lemma search_all_returns_every_document_witness :
  exists res,
    search (kernel := Float32.kernel) default_settings
      (Examples.length_embedder 1) "qq" None Examples.store3 = Ok res
    /\ map fst res ≡ₚ Examples.three_docs.
Proof.
  apply (search_all_returns_every_document (kernel := Float32.kernel)
           default_settings
           (Examples.length_embedder 1) Examples.store3 "qq" None
           (Examples.length_vector 1 "qq")
           {| Faiss.d := 1;
              Faiss.xb := map (Examples.length_vector 1) ["a"; "bb"; "ccc"] |}).
  - vm_compute. repeat split. discriminate.
  - reflexivity.
  - reflexivity.
  - reflexivity.
  - vm_compute. discriminate.
  - vm_compute. reflexivity.
Defined.

Lemma search_exact_match_comes_first_witness :
  exists doc dist rest,
    search (kernel := Float32.kernel) default_settings
      (Examples.length_embedder 1) "bb" (Some 1) Examples.store3
    = Ok ((doc, dist) :: rest)
    /\ (dist == 0)%Q.
Proof.
  destruct (search_exact_match_comes_first (kernel := Float32.kernel)
              default_settings
              (Examples.length_embedder 1) Examples.store3 "bb" (Some 1)
              (Examples.length_vector 1 "bb")
              {| Faiss.d := 1;
                 Faiss.xb := map (Examples.length_vector 1) ["a"; "bb"; "ccc"] |})
    as (res & Hres & _ & Hfirst).
  - vm_compute. repeat split. discriminate.
  - reflexivity.
  - reflexivity.
  - reflexivity.
  - vm_compute. reflexivity.
  - destruct Hfirst as (doc & dist & rest & -> & Hzero).
    + cbn. apply elem_of_cons. right. apply elem_of_cons. now left.
    + exists doc, dist, rest. split; [exact Hres | exact Hzero].
Defined.

(** With float32 arithmetic the squared distance from [[0]] to [[2^64]]
    overflows: the row takes no slot, the slot keeps the label [-1] and
    [FLT_MAX], and [search] reads the last document for it. *)
Lemma search_overflow_reads_last_document :
  search (kernel := Float32.kernel) default_settings Cases.wide_embedder
    "q" (Some 2) Cases.wide_store
  = Ok [(Examples.chunk "bb" "b.txt", 0%Q);
        (Examples.chunk "bb" "b.txt", Faiss.FLT_MAX)].
Proof. vm_compute. reflexivity. Qed.

Lemma float32_rounds_to_even :
  Float32.l2sqr [4097%Q] [0%Q] = Some 16785408%Q.
Proof. vm_compute. reflexivity. Qed.

End VectorStoreInstances.

(* ===================================================================== *)
(** * More about the session store *)
(* ===================================================================== *)

Section SessionMoreFacts.
Import Memory Runtime SessionMemory Sweep Invariants.

(** ** The sweep *)

Lemma expired_sessions_elem self now sid :
  sid ∈ expired_sessions self now
  <-> exists t, session_timestamps self !! sid = Some t /\ ttl self < now - t.
Proof.
  unfold expired_sessions. rewrite list_elem_of_fmap. split.
  - intros ([sid' t] & -> & Hin). cbn.
    apply list_elem_of_In, List.filter_In in Hin as [Hin Hexp].
    apply list_elem_of_In, elem_of_map_to_list in Hin. cbn in Hexp.
    apply Z.ltb_lt in Hexp. eauto.
  - intros (t & Ht & Hexp). exists (sid, t). split; [reflexivity|].
    apply list_elem_of_In, List.filter_In. split.
    + now apply list_elem_of_In, elem_of_map_to_list.
    + cbn. now apply Z.ltb_lt.
Qed.

Lemma foldl_cleanup_lookup (ids : list string) :
  forall self sid,
    let self' := foldl (fun m i => cleanup_session i m) self ids in
    sessions self' !! sid
    = (if decide (sid ∈ ids) then None else sessions self !! sid)
    /\ session_timestamps self' !! sid
       = (if decide (sid ∈ ids) then None else session_timestamps self !! sid)
    /\ ttl self' = ttl self
    /\ max_history self' = max_history self.
Proof.
  induction ids as [|i ids IH]; intros self sid; cbn.
  - destruct (decide (sid ∈ [])) as [H|_]; [inversion H | now repeat split].
  - destruct (IH (cleanup_session i self) sid) as (H1 & H2 & H3 & H4).
    rewrite H1, H2, H3, H4. cbn.
    destruct (decide (sid ∈ ids)) as [Hin|Hnot].
    + destruct (decide (sid ∈ i :: ids)) as [_|Hn]; [now repeat split|].
      exfalso. apply Hn, elem_of_cons. now right.
    + destruct (decide (sid = i)) as [->|Hne].
      * rewrite !lookup_delete_eq.
        destruct (decide (i ∈ i :: ids)) as [_|Hn]; [now repeat split|].
        exfalso. apply Hn, elem_of_cons. now left.
      * rewrite !lookup_delete_ne by congruence.
        destruct (decide (sid ∈ i :: ids)) as [Hin|_]; [|now repeat split].
        apply elem_of_cons in Hin as [?|?]; contradiction.
Qed.

(** X8. [cleanup_expired_sessions] reads the clock once and removes, with their
    time stamps, exactly the sessions whose time stamp is older than [ttl]
    at that reading; every other session, and every other time stamp, is
    left as it was, so that afterwards no remaining time stamp is older than
    [ttl]. *)
Theorem cleanup_expired_sessions_removes_exactly_expired
    (env : Env) (w : World) (sid : string) :
  let self := session_memory w in
  let now := time_at env (clock_reads w) in
  let self' := session_memory (snd (cleanup_expired_sessions env w)) in
  ((exists t, session_timestamps self !! sid = Some t /\ ttl self < now - t) ->
   sessions self' !! sid = None /\ session_timestamps self' !! sid = None)
  /\ (~ (exists t, session_timestamps self !! sid = Some t
                   /\ ttl self < now - t) ->
      sessions self' !! sid = sessions self !! sid
      /\ session_timestamps self' !! sid = session_timestamps self !! sid)
  /\ (forall t, session_timestamps self' !! sid = Some t ->
                now - t <= ttl self).
Proof.
  intros self now self'.
  assert (self' = foldl (fun m i => cleanup_session i m) self
                    (expired_sessions self now)) as -> by reflexivity.
  destruct (foldl_cleanup_lookup (expired_sessions self now) self sid)
    as (H1 & H2 & _). cbn zeta in H1, H2. rewrite H1, H2.
  destruct (decide (sid ∈ expired_sessions self now)) as [Hin|Hnot].
  - split; [now split|]. split; [|discriminate].
    intros Hn. exfalso. apply Hn. now apply expired_sessions_elem.
  - split; [|split].
    + intros Hex. exfalso. apply Hnot. now apply expired_sessions_elem.
    + now split.
    + intros t Ht. destruct (Z.le_gt_cases (now - t) (ttl self)) as [|Hgt];
        [assumption|].
      exfalso. apply Hnot, expired_sessions_elem. exists t. split; [exact Ht | lia].
Qed.

(** ** Creating a session *)

(** X9. A session created under an identifier that is not in use adds one to
    the session count; as long as the clock has not advanced by more than
    [ttl] it exists and its history is empty. *)
Theorem create_session_then_use (env : Env) (w : World) :
  sessions (session_memory w) !! uuid_at env (uuid_draws w) = None ->
  time_at env (S (clock_reads w)) - time_at env (clock_reads w)
  <= ttl (session_memory w) ->
  exists w1,
    create_session env w = (Ok (uuid_at env (uuid_draws w)), w1)
    /\ fst (get_session_count w1)
       = Ok (S (size (sessions (session_memory w))))
    /\ session_exists env (uuid_at env (uuid_draws w)) w1 = (Ok true, tick w1)
    /\ get_history env (uuid_at env (uuid_draws w)) w1 = (Ok [], tick w1).
Proof.
  intros Hfresh Hclock. rewrite create_session_spec. eexists.
  split; [reflexivity|].
  set (new := uuid_at env (uuid_draws w)) in *.
  set (w1 := set_memory _ _).
  assert (session_live (session_memory w1) new (time_at env (clock_reads w1)))
    as Hlive by (apply session_live_stored; exact Hclock).
  split; [|split].
  - cbn. f_equal. now apply map_size_insert_None.
  - unfold session_exists. now apply is_session_valid_live.
  - rewrite (get_history_live env new w1 []); [reflexivity | | exact Hlive].
    apply lookup_insert_eq.
Qed.

Lemma create_session_then_use_witness :
  exists w1,
    create_session Examples.direct_env Examples.world0 = (Ok "session-0", w1)
    /\ get_history Examples.direct_env "session-0" w1 = (Ok [], tick w1).
Proof.
  destruct (create_session_then_use Examples.direct_env Examples.world0)
    as (w1 & Hc & _ & _ & Hh).
  - vm_compute. reflexivity.
  - vm_compute. discriminate.
  - exists w1. split; [exact Hc | exact Hh].
Defined.

(** ** Appending *)

(** X10. After [add_message] has appended to a live session (with a positive
    [max_history]), the session holds at most [2 * max_history] messages
    that are not system messages, and every system message it held, and the
    new one if it is a system message, is still there. *)
Theorem add_message_bounds_history
    (env : Env) (w : World) (sid role content : string) (msgs : list Message) :
  0 < max_history (session_memory w) ->
  sessions (session_memory w) !! sid = Some msgs ->
  session_live (session_memory w) sid (time_at env (clock_reads w)) ->
  exists msgs',
    sessions (session_memory (snd (add_message env sid role content w))) !! sid
    = Some msgs'
    /\ Z.of_nat (length (non_system_messages msgs'))
       <= 2 * max_history (session_memory w)
    /\ system_messages msgs'
       = system_messages
           (msgs ++ [{| Memory.role := role; Memory.content := content;
                        timestamp := time_at env (S (clock_reads w)) |}]).
Proof.
  intros Hmax Hmsgs Hlive.
  rewrite (add_message_live env sid role content w msgs Hmsgs Hlive).
  set (m := {| Memory.role := role; Memory.content := content;
               timestamp := time_at env (S (clock_reads w)) |}).
  exists (trim_history (max_history (session_memory w)) (msgs ++ [m])).
  split; [apply lookup_insert_eq|].
  unfold trim_history.
  destruct (Z.ltb_spec (max_history (session_memory w) * 2)
              (Z.of_nat (length (msgs ++ [m])))) as [Hover|Hfit].
  - rewrite trimmed_eq by assumption.
    set (n := Z.to_nat (2 * max_history (session_memory w))).
    destruct (suffix_of_non_system _ _
                (last_n_suffix n (non_system_messages (msgs ++ [m]))))
      as [Hs Hn].
    set (x := msgs ++ [m]) in *. split.
    + rewrite non_system_messages_app, non_system_of_system, Hn. cbn [app].
      rewrite last_n_length. lia.
    + now rewrite system_messages_app, system_of_system, Hs, app_nil_r.
  - split; [|reflexivity].
    pose proof (non_system_length (msgs ++ [m])). lia.
Qed.

Lemma add_message_bounds_history_witness :
  exists msgs',
    sessions
      (session_memory
         (snd (add_message Examples.short_env "s" "user" "c"
                 (Examples.world_with Examples.short_settings
                    Examples.one_exchange 1000)))) !! "s"
    = Some msgs'
    /\ Z.of_nat (length (non_system_messages msgs')) <= 2.
Proof.
  destruct (add_message_bounds_history Examples.short_env
              (Examples.world_with Examples.short_settings
                 Examples.one_exchange 1000)
              "s" "user" "c" Examples.one_exchange)
    as (msgs' & H1 & H2 & _).
  - vm_compute. reflexivity.
  - reflexivity.
  - split; [vm_compute; eexists; reflexivity | vm_compute; discriminate].
  - exists msgs'. split; [exact H1 | exact H2].
Defined.

(** X11. Whatever [add_message] does to the session it is called for (append,
    silent drop, eviction), the history and the time stamp of every other
    session are untouched. *)
Theorem add_message_leaves_other_sessions
    (env : Env) (w : World) (sid role content other : string) :
  other <> sid ->
  let self' := session_memory (snd (add_message env sid role content w)) in
  sessions self' !! other = sessions (session_memory w) !! other
  /\ session_timestamps self' !! other
     = session_timestamps (session_memory w) !! other.
Proof.
  intros Hne self'. subst self'.
  destruct (is_session_valid_cases env sid w)
    as [[Habs Hv]|[[Hlive Hv]|(Hsome & Hexp & Hv)]].
  - assert (add_message env sid role content w = (Ok tt, w)) as ->.
    { unfold add_message. unfold bind at 1. now rewrite Hv. }
    now split.
  - destruct Hlive as [[msgs Hmsgs] Hlive].
    rewrite (add_message_live env sid role content w msgs Hmsgs)
      by (split; [rewrite Hmsgs; eauto | exact Hlive]).
    cbn. now rewrite !lookup_insert_ne by congruence.
  - assert (add_message env sid role content w
            = (Ok tt, set_memory (cleanup_session sid (session_memory w))
                        (tick w))) as ->.
    { unfold add_message. unfold bind at 1. now rewrite Hv. }
    cbn. now rewrite !lookup_delete_ne by congruence.
Qed.

Lemma add_message_leaves_other_sessions_witness :
  sessions
    (session_memory
       (snd (add_message Examples.direct_env "other" "user" "x"
               (Examples.world_with default_settings
                  Examples.one_exchange 1000)))) !! "s"
  = Some Examples.one_exchange.
Proof.
  destruct (add_message_leaves_other_sessions Examples.direct_env
              (Examples.world_with default_settings Examples.one_exchange 1000)
              "other" "user" "x" "s") as [H _].
  - discriminate.
  - rewrite H. vm_compute. reflexivity.
Defined.

(** X12. For an identifier that is not known, [add_message] and [get_history]
    return normally without reading the clock and without changing anything;
    the history is the empty list. *)
Theorem unknown_session_is_ignored
    (env : Env) (w : World) (sid role content : string) :
  sessions (session_memory w) !! sid = None ->
  add_message env sid role content w = (Ok tt, w)
  /\ get_history env sid w = (Ok [], w)
  /\ session_exists env sid w = (Ok false, w).
Proof.
  intros Habs. unfold add_message, get_history, session_exists.
  unfold bind. now rewrite (is_session_valid_absent env sid w Habs).
Qed.

Lemma unknown_session_is_ignored_witness :
  add_message Examples.direct_env "nobody" "user" "hello" Examples.world0
  = (Ok tt, Examples.world0).
Proof.
  destruct (unknown_session_is_ignored Examples.direct_env Examples.world0
              "nobody" "user" "hello") as [H _].
  - vm_compute. reflexivity.
  - exact H.
Defined.

(** X13. What [add_message] appends to a live session is what [get_history]
    returns next, as long as the clock stays within [ttl]: the list after
    the trimming test, and, when that test does not fire, the previous
    history followed by the new message. *)
Theorem add_message_then_get_history
    (env : Env) (w : World) (sid role content : string) (msgs : list Message) :
  sessions (session_memory w) !! sid = Some msgs ->
  session_live (session_memory w) sid (time_at env (clock_reads w)) ->
  time_at env (3 + clock_reads w) - time_at env (2 + clock_reads w)
  <= ttl (session_memory w) ->
  let m := {| Memory.role := role; Memory.content := content;
              timestamp := time_at env (S (clock_reads w)) |} in
  let w1 := snd (add_message env sid role content w) in
  fst (get_history env sid w1)
  = Ok (map to_dict (trim_history (max_history (session_memory w))
                       (msgs ++ [m])))
  /\ (Z.of_nat (length msgs) < 2 * max_history (session_memory w) ->
      fst (get_history env sid w1)
      = Ok (map to_dict msgs ++ [DictMessage role content])).
Proof.
  intros Hmsgs Hlive Hclock m w1. subst w1.
  rewrite (add_message_live env sid role content w msgs Hmsgs Hlive).
  fold m. cbn [snd].
  set (l1 := trim_history (max_history (session_memory w)) (msgs ++ [m])).
  rewrite (get_history_live env sid _ l1).
  - split; [reflexivity|]. intros Hfit. cbn [fst]. subst l1.
    unfold trim_history.
    destruct (Z.ltb_spec (max_history (session_memory w) * 2)
                (Z.of_nat (length (msgs ++ [m])))) as [Hover|_].
    + rewrite length_app in Hover. cbn in Hover. lia.
    + now rewrite map_app.
  - apply lookup_insert_eq.
  - apply session_live_stored. exact Hclock.
Qed.

Lemma add_message_then_get_history_witness :
  fst (get_history Examples.direct_env "s"
         (snd (add_message Examples.direct_env "s" "user" "c"
                 (Examples.world_with default_settings
                    Examples.one_exchange 1000))))
  = Ok [DictMessage "user" "a"; DictMessage "assistant" "b";
        DictMessage "user" "c"].
Proof.
  destruct (add_message_then_get_history Examples.direct_env
              (Examples.world_with default_settings Examples.one_exchange 1000)
              "s" "user" "c" Examples.one_exchange) as [_ H].
  - reflexivity.
  - split; [vm_compute; eexists; reflexivity | vm_compute; discriminate].
  - vm_compute. discriminate.
  - apply H. vm_compute. reflexivity.
Defined.

End SessionMoreFacts.

(* ===================================================================== *)
(** * More about the orchestrator *)
(* ===================================================================== *)

Section AgentMoreFacts.
Import Memory Runtime SessionMemory Retrieval Agent Invariants Citations.

(** ** Where search results come from *)

Lemma collect_results_members (docs : list VectorStore.Document) hits :
  forall res,
    VectorStore.collect_results docs hits = Ok res ->
    Forall (fun r => fst r ∈ docs) res.
Proof.
  induction hits as [|[idx dist] hits IH]; intros res; cbn.
  - intros [= <-]. constructor.
  - destruct (idx <? _); [|apply IH].
    destruct (VectorStore.py_index docs idx) as [doc|e] eqn:E; [|discriminate].
    destruct (VectorStore.collect_results docs hits) as [rest|e];
      [|discriminate].
    intros [= <-]. constructor; [now apply py_index_elem in E | now apply IH].
Qed.

Lemma search_members {kernel : Faiss.DistanceKernel}
    settings emb query k self res :
  VectorStore.search settings emb query k self = Ok res ->
  Forall (fun r => fst r ∈ VectorStore.documents self) res.
Proof.
  unfold VectorStore.search.
  destruct (VectorStore.is_initialized self); [|intros [= <-]; constructor].
  destruct (VectorStore.index self) as [ix|]; [|intros [= <-]; constructor].
  destruct (generate_embedding emb query) as [qv|e]; [|discriminate].
  destruct (Faiss.search ix qv _) as [hits|e]; [|discriminate].
  apply collect_results_members.
Qed.

Lemma retrieve_members env query k w docs :
  fst (retrieve env query k w) = Ok docs ->
  forall src,
    src ∈ map doc_source docs ->
    exists doc,
      doc ∈ VectorStore.documents (vector_store w) /\ reported_source doc = src.
Proof.
  unfold retrieve, bind, vector_store_search.
  destruct (VectorStore.search _ _ query k (vector_store w)) as [res|e] eqn:E;
    [|discriminate].
  cbn. intros [= <-] src Hin.
  apply search_members in E. rewrite Forall_forall in E.
  rewrite map_map in Hin. apply list_elem_of_fmap in Hin as ([doc dist] & -> & Hr).
  exists doc. split; [exact (E _ Hr) | reflexivity].
Qed.

Lemma retrieve_uninitialized env query k w :
  VectorStore.is_initialized (vector_store w) = false ->
  fst (retrieve env query k w) = Ok [].
Proof.
  intros Hinit. unfold retrieve, bind, vector_store_search, VectorStore.search.
  now rewrite Hinit.
Qed.

(** ** The sources of an answer are those of retrievals *)

Lemma handle_tool_call_sources_from_retrieval env (P : list string -> Prop)
    store query tool_call st st' w :
  (forall q k w1 docs,
     vector_store w1 = store ->
     fst (retrieve env q k w1) = Ok docs -> P (distinct_sources docs)) ->
  vector_store w = store ->
  P (snd st) ->
  fst (handle_tool_call env query tool_call st w) = Ok st' ->
  P (snd st').
Proof.
  intros HP Hstore Hst. unfold handle_tool_call. destruct st as [messages sources].
  unfold bind at 1, lift_result.
  destruct (json_loads env (function_arguments tool_call)) as [args|e];
    [|discriminate].
  destruct (String.eqb (function_name tool_call) "search_documents").
  - set (q := default query (arg_query args)).
    set (n := Some (default 3 (arg_num_results args))).
    unfold bind at 1.
    pose proof (search_documents_world env q n w) as Hw.
    destruct (_search_documents env q n w) as [[text|e] w1]; [|discriminate].
    cbn [snd] in Hw. unfold bind at 1.
    remember (retrieve env q n w1) as rr eqn:E.
    destruct rr as [[docs|e] w2]; [|discriminate].
    intros [= <-]. cbn [snd]. apply (HP q n w1 docs).
    + subst w1. exact Hstore.
    + now rewrite <- E.
  - intros [= <-]. exact Hst.
Qed.

Lemma handle_tool_calls_sources_from_retrieval env (P : list string -> Prop)
    store query calls :
  (forall q k w1 docs,
     vector_store w1 = store ->
     fst (retrieve env q k w1) = Ok docs -> P (distinct_sources docs)) ->
  forall st st' w,
    vector_store w = store ->
    P (snd st) ->
    fst (handle_tool_calls env query calls st w) = Ok st' ->
    P (snd st').
Proof.
  intros HP. induction calls as [|tool_call rest IH]; intros st st' w Hstore Hst;
    cbn [handle_tool_calls].
  - now intros [= <-].
  - unfold bind at 1.
    destruct (handle_tool_call_world env query tool_call st w) as (s1 & H1 & _).
    destruct (handle_tool_call env query tool_call st w) as [[st1|e] w1] eqn:E;
      [|discriminate].
    cbn [snd] in H1. apply IH.
    + subst w1. exact Hstore.
    + apply (handle_tool_call_sources_from_retrieval env P store query
               tool_call st st1 w HP Hstore Hst). now rewrite E.
Qed.

Lemma process_query_sources_from_retrieval env (P : list string -> Prop)
    query session_id w res w' :
  P [] ->
  (forall q k w1 docs,
     vector_store w1 = vector_store w ->
     fst (retrieve env q k w1) = Ok docs -> P (distinct_sources docs)) ->
  process_query env query session_id w = (Ok res, w') ->
  P (sources res).
Proof.
  intros Hnil HP E. unfold process_query in E.
  unfold bind at 1 in E.
  destruct (resolve_session_memory_step env session_id w)
    as (sid & w1 & Hr & Hv1 & _).
  rewrite Hr in E. unfold bind at 1 in E.
  destruct (add_message_memory_step env sid "user" query w1)
    as (w2 & Ha & Hv2 & _).
  rewrite Ha in E. unfold bind at 1 in E.
  destruct (get_history_memory_step env sid w2) as (h & w3 & Hg & Hv3 & _).
  rewrite Hg in E. unfold bind at 1 in E.
  assert (vector_store w3 = vector_store w) as Hstore by congruence.
  assert (forall outcome,
            fst (complete_with_tools env query h w3) = Ok outcome ->
            P (snd outcome)) as Hout.
  { intros outcome. unfold complete_with_tools.
    unfold bind at 1, chat_completions_create at 1.
    destruct (completions_create env _ h true) as [reply|e]; [|discriminate].
    destruct (tool_calls reply) as [|c cs] eqn:Hcalls.
    - intros [= <-]. exact Hnil.
    - unfold bind at 1.
      destruct (handle_tool_calls env query (c :: cs) _ _) as [[st|e] w4] eqn:Et;
        [|discriminate].
      unfold bind, chat_completions_create, ret.
      destruct (completions_create env _ (fst st) false); [|discriminate].
      intros [= <-]. cbn [snd].
      apply (handle_tool_calls_sources_from_retrieval env P (vector_store w)
               query (c :: cs) HP
               (h ++ [AssistantMessage reply], []) st
               (extend_trace [Completion h true] w3));
        [exact Hstore | exact Hnil | now rewrite Et]. }
  destruct (complete_with_tools env query h w3) as [[outcome|e] w4];
    [|discriminate].
  specialize (Hout outcome eq_refl).
  unfold bind at 1 in E.
  destruct (add_message_memory_step env sid "assistant" (fst outcome) w4)
    as (w5 & Ha5 & _).
  rewrite Ha5 in E. unfold ret in E. injection E as <- <-. exact Hout.
Qed.

(** X14. The sources returned with an answer never repeat, and each of them is
    the source (or ["unknown"], when it has none) of a document held by the
    vector store. *)
Theorem process_query_sources_are_distinct_and_stored
    (env : Env) (query : string) (session_id : option string)
    (w : World) (res : QueryResult) (w' : World) :
  process_query env query session_id w = (Ok res, w') ->
  cites (vector_store w) (sources res).
Proof.
  apply (process_query_sources_from_retrieval env (cites (vector_store w))).
  - split; [constructor | intros src H; inversion H].
  - intros q k w1 docs Hstore Hdocs.
    destruct (distinct_sources_spec docs) as [Hnd Hmem].
    split; [exact Hnd|]. intros src Hsrc.
    rewrite <- Hstore. apply (retrieve_members env q k w1 docs Hdocs).
    apply Hmem in Hsrc as (doc & Hdoc & <-). apply list_elem_of_fmap. eauto.
Qed.

Lemma process_query_sources_are_distinct_and_stored_witness :
  cites Examples.store3 ["b.txt"].
Proof.
  pose (p := process_query Examples.two_call_env "question" None Examples.world0).
  assert (p = (Ok {| answer := "final answer"; sources := ["b.txt"];
                     Agent.session_id := "session-0" |}, snd p)) as Hrun.
  { transitivity (fst p, snd p); [apply surjective_pairing|].
    apply (f_equal (fun x => (x, snd p))). vm_compute. reflexivity. }
  exact (process_query_sources_are_distinct_and_stored Examples.two_call_env
           "question" None Examples.world0 _ _ Hrun).
Defined.

(** X15. As long as the vector store is not initialised, no answer names a
    source, however many searches the completer asks for. *)
Theorem process_query_without_index_cites_nothing
    (env : Env) (query : string) (session_id : option string)
    (w : World) (res : QueryResult) (w' : World) :
  VectorStore.is_initialized (vector_store w) = false ->
  process_query env query session_id w = (Ok res, w') ->
  sources res = [].
Proof.
  intros Hinit.
  apply (process_query_sources_from_retrieval env (fun l => l = [])).
  - reflexivity.
  - intros q k w1 docs Hstore Hdocs.
    rewrite retrieve_uninitialized in Hdocs by now rewrite Hstore.
    now injection Hdocs as <-.
Qed.

Lemma process_query_without_index_cites_nothing_witness :
  sources {| answer := "final answer"; sources := [];
             Agent.session_id := "session-0" |} = [].
Proof.
  pose (p := process_query Examples.two_call_env "question" None
               Cases.world_without_index).
  assert (p = (Ok {| answer := "final answer"; sources := [];
                     Agent.session_id := "session-0" |}, snd p)) as Hrun.
  { transitivity (fst p, snd p); [apply surjective_pairing|].
    apply (f_equal (fun x => (x, snd p))). vm_compute. reflexivity. }
  apply (process_query_without_index_cites_nothing Examples.two_call_env
           "question" None Cases.world_without_index _ _ eq_refl Hrun).
Defined.

(** ** The index is only read *)

Lemma process_query_vector_store env query session_id w :
  vector_store (snd (process_query env query session_id w)) = vector_store w.
Proof.
  unfold process_query. unfold bind at 1.
  destruct (resolve_session_memory_step env session_id w)
    as (sid & w1 & -> & Hv1 & _).
  unfold bind at 1.
  destruct (add_message_memory_step env sid "user" query w1)
    as (w2 & -> & Hv2 & _).
  unfold bind at 1.
  destruct (get_history_memory_step env sid w2) as (h & w3 & -> & Hv3 & _).
  unfold bind at 1.
  destruct (complete_with_tools_world env query h w3) as (rest & Hw & _ & _).
  destruct (complete_with_tools env query h w3) as [[outcome|e] w4];
    cbn [snd] in Hw; subst w4.
  - unfold bind at 1.
    destruct (add_message_memory_step env sid "assistant" (fst outcome)
                (extend_trace (Completion h true :: rest) w3))
      as (w5 & -> & Hv5 & _).
    cbn in *. congruence.
  - cbn in *. congruence.
Qed.

(** X16. Whatever its outcome, [process_query] leaves the vector store as it
    was: the index, the documents and the initialised flag. *)
Theorem process_query_leaves_vector_store
    (env : Env) (query : string) (session_id : option string) (w : World) :
  let w' := snd (process_query env query session_id w) in
  VectorStore.index (vector_store w') = VectorStore.index (vector_store w)
  /\ VectorStore.documents (vector_store w')
     = VectorStore.documents (vector_store w)
  /\ VectorStore.is_initialized (vector_store w')
     = VectorStore.is_initialized (vector_store w).
Proof.
  intros w'. subst w'. now rewrite process_query_vector_store.
Qed.

End AgentMoreFacts.

(* ===================================================================== *)
(** * The orchestrator on a live session *)
(* ===================================================================== *)

Section AgentSessionFacts.
Import Memory Runtime SessionMemory Retrieval Agent Invariants.

Lemma resolve_session_live env sid w :
  PyStr.nonempty sid = true ->
  session_live (session_memory w) sid (time_at env (clock_reads w)) ->
  resolve_session env (Some sid) w = (Ok sid, tick w).
Proof.
  intros Hne Hlive. unfold resolve_session, session_exists. rewrite Hne.
  unfold bind at 1. now rewrite (is_session_valid_live env sid w Hlive).
Qed.

(** The head of [process_query] on a live session: five readings of the
    clock, the question stored, the history read back. *)
Lemma process_query_live_head env query sid w base :
  PyStr.nonempty sid = true ->
  sessions (session_memory w) !! sid = Some base ->
  session_live (session_memory w) sid (time_at env (clock_reads w)) ->
  session_live (session_memory w) sid (time_at env (1 + clock_reads w)) ->
  time_at env (4 + clock_reads w) - time_at env (3 + clock_reads w)
  <= ttl (session_memory w) ->
  let user := {| role := "user"; content := query;
                 timestamp := time_at env (2 + clock_reads w) |} in
  let history := trim_history (max_history (session_memory w)) (base ++ [user]) in
  let w3 := tick (set_memory
                    (stored sid history (time_at env (3 + clock_reads w))
                       (session_memory w))
                    (tick (tick (tick (tick w))))) in
  process_query env query (Some sid) w
  = (do outcome <- complete_with_tools env query (map to_dict history);
     run add_message env sid "assistant" (fst outcome);
     ret {| answer := fst outcome; sources := snd outcome;
            Agent.session_id := sid |}) w3.
Proof.
  intros Hne Hbase Hlive0 Hlive1 Hclock user history w3.
  unfold process_query. unfold bind at 1.
  rewrite (resolve_session_live env sid w Hne Hlive0).
  unfold bind at 1.
  rewrite (add_message_live env sid "user" query (tick w) base Hbase Hlive1).
  unfold bind at 1.
  rewrite (get_history_live env sid _ history).
  - reflexivity.
  - apply lookup_insert_eq.
  - apply session_live_stored. exact Hclock.
Qed.

(** X17. A query that comes with the identifier of a live session is answered
    in that session, and the first completion call receives, with the tools
    offered, the conversation stored so far followed by the question (after
    the trimming test), whatever happens next. *)
Theorem process_query_sends_stored_conversation
    (env : Env) (query sid : string) (w : World) (base : list Message) :
  PyStr.nonempty sid = true ->
  sessions (session_memory w) !! sid = Some base ->
  session_live (session_memory w) sid (time_at env (clock_reads w)) ->
  session_live (session_memory w) sid (time_at env (1 + clock_reads w)) ->
  time_at env (4 + clock_reads w) - time_at env (3 + clock_reads w)
  <= ttl (session_memory w) ->
  let user := {| role := "user"; content := query;
                 timestamp := time_at env (2 + clock_reads w) |} in
  let history := trim_history (max_history (session_memory w)) (base ++ [user]) in
  let out := process_query env query (Some sid) w in
  (exists rest,
     trace (snd out)
     = trace w ++ Completion (map to_dict history) true :: rest)
  /\ forall res, fst out = Ok res -> Agent.session_id res = sid.
Proof.
  intros Hne Hbase Hlive0 Hlive1 Hclock user history out. subst out.
  rewrite (process_query_live_head env query sid w base Hne Hbase Hlive0 Hlive1
             Hclock).
  fold user. fold history.
  set (w3 := tick (set_memory _ _)).
  set (h := map to_dict history).
  unfold bind at 1. unfold bind at 2.
  destruct (complete_with_tools_world env query h w3) as (rest & Hw & _ & _).
  destruct (complete_with_tools env query h w3) as [[outcome|e] w4];
    cbn [snd] in Hw; subst w4.
  - unfold bind at 1. unfold bind at 1.
    destruct (add_message_memory_step env sid "assistant" (fst outcome)
                (extend_trace (Completion h true :: rest) w3))
      as (w5 & -> & _ & Ht).
    cbn [fst snd ret]. split.
    + exists rest. rewrite Ht. reflexivity.
    + now intros res [= <-].
  - cbn [fst snd]. split; [exists rest; reflexivity | discriminate].
Qed.

Lemma process_query_sends_stored_conversation_witness :
  exists rest,
    trace (snd (process_query Examples.direct_env "c" (Some "s")
                  (Examples.world_with default_settings
                     Examples.one_exchange 1000)))
    = Completion [DictMessage "user" "a"; DictMessage "assistant" "b";
                  DictMessage "user" "c"] true :: rest.
Proof.
  destruct (process_query_sends_stored_conversation Examples.direct_env "c" "s"
              (Examples.world_with default_settings Examples.one_exchange 1000)
              Examples.one_exchange) as [H _].
  - reflexivity.
  - reflexivity.
  - split; [vm_compute; eexists; reflexivity | vm_compute; discriminate].
  - split; [vm_compute; eexists; reflexivity | vm_compute; discriminate].
  - vm_compute. discriminate.
  - exact H.
Defined.

(** X18. When the first completion call fails on a live session, [process_query]
    raises the same exception after one completion call; the question
    stays in the session, without an answer. *)
Theorem process_query_failed_completion_keeps_question
    (env : Env) (query sid : string) (w : World) (base : list Message)
    (e : exn) :
  PyStr.nonempty sid = true ->
  sessions (session_memory w) !! sid = Some base ->
  session_live (session_memory w) sid (time_at env (clock_reads w)) ->
  session_live (session_memory w) sid (time_at env (1 + clock_reads w)) ->
  time_at env (4 + clock_reads w) - time_at env (3 + clock_reads w)
  <= ttl (session_memory w) ->
  let user := {| role := "user"; content := query;
                 timestamp := time_at env (2 + clock_reads w) |} in
  let history := trim_history (max_history (session_memory w)) (base ++ [user]) in
  let out := process_query env query (Some sid) w in
  completions_create env (length (trace w)) (map to_dict history) true
  = Raise e ->
  fst out = Raise e
  /\ sessions (session_memory (snd out)) !! sid = Some history
  /\ trace (snd out) = trace w ++ [Completion (map to_dict history) true].
Proof.
  intros Hne Hbase Hlive0 Hlive1 Hclock user history out Hfail. subst out.
  rewrite (process_query_live_head env query sid w base Hne Hbase Hlive0 Hlive1
             Hclock).
  fold user. fold history.
  set (w3 := tick (set_memory _ _)).
  set (h := map to_dict history) in *.
  assert ((do outcome <- complete_with_tools env query h;
           run add_message env sid "assistant" (fst outcome);
           ret {| answer := fst outcome; sources := snd outcome;
                  Agent.session_id := sid |}) w3
          = (Raise e, extend_trace [Completion h true] w3)) as ->.
  { unfold bind at 1. unfold complete_with_tools. unfold bind at 1.
    unfold chat_completions_create at 1.
    change (trace w3) with (trace w). now rewrite Hfail. }
  cbn [fst snd]. split; [reflexivity|]. split; [|reflexivity].
  cbn. apply lookup_insert_eq.
Qed.

Lemma process_query_failed_completion_keeps_question_witness :
  sessions (session_memory
              (snd (process_query Cases.failing_env "c" (Some "s")
                      (Examples.world_with default_settings
                         Examples.one_exchange 1000)))) !! "s"
  = Some (Examples.one_exchange ++ [Examples.message "user" "c"]).
Proof.
  destruct (process_query_failed_completion_keeps_question Cases.failing_env
              "c" "s"
              (Examples.world_with default_settings Examples.one_exchange 1000)
              Examples.one_exchange (ServiceError "completer unavailable"))
    as (_ & H & _).
  - reflexivity.
  - reflexivity.
  - split; [vm_compute; eexists; reflexivity | vm_compute; discriminate].
  - split; [vm_compute; eexists; reflexivity | vm_compute; discriminate].
  - vm_compute. discriminate.
  - reflexivity.
  - exact H.
Defined.

End AgentSessionFacts.

(* ===================================================================== *)
(** * Facts about the embeddings generator *)
(* ===================================================================== *)

Section EmbeddingsFacts.
Import Embeddings.

(** Successive slices of width [b] tile the list. *)
Lemma list_slice_step {A} (l : list A) (a b : Z) :
  0 <= a -> 0 <= b ->
  take (Z.to_nat a) l ++ list_slice l a (a + b) = take (Z.to_nat (a + b)) l.
Proof.
  intros Ha Hb. unfold list_slice, PyStr.clamp_index.
  destruct (Z.ltb_spec a 0); [lia|]. destruct (Z.ltb_spec (a + b) 0); [lia|].
  destruct (Z.le_gt_cases a (Z.of_nat (length l))).
  - rewrite (Z.min_l a) by lia. rewrite take_take_drop.
    destruct (Z.le_gt_cases (a + b) (Z.of_nat (length l))).
    + rewrite Z.min_l by lia. f_equal. lia.
    + rewrite Z.min_r by lia. rewrite !take_ge by lia. reflexivity.
  - rewrite (Z.min_r a), (Z.min_r (a + b)) by lia. rewrite Z.sub_diag.
    cbn [Z.to_nat take]. rewrite app_nil_r. rewrite !take_ge by lia.
    reflexivity.
Qed.

Lemma range_covers (n b : Z) :
  0 <= n -> 0 < b -> 0 <= (n - 0 + b - 1) / b /\ n <= (n - 0 + b - 1) / b * b.
Proof.
  intros Hn Hb. split.
  - apply Z.div_pos; lia.
  - pose proof (Z.mul_succ_div_gt (n - 0 + b - 1) b Hb). lia.
Qed.

Lemma embed_batches_pointwise self texts b (f : string -> vector) :
  0 < b ->
  (forall batch, embeddings_create self batch = Ok (map f batch)) ->
  forall c k,
    embed_batches self texts b
      (map (fun j => 0 + Z.of_nat j * b) (seq k c))
      (map f (take (Z.to_nat (Z.of_nat k * b)) texts))
    = Ok (map f (take (Z.to_nat (Z.of_nat (k + c) * b)) texts)).
Proof.
  intros Hb Hf. induction c as [|c IH]; intros k; cbn [seq map embed_batches].
  - now rewrite Nat.add_0_r.
  - rewrite Hf, <- map_app, Z.add_0_l.
    rewrite list_slice_step by nia.
    replace (Z.of_nat k * b + b) with (Z.of_nat (S k) * b) by nia.
    rewrite IH. now replace (S k + c)%nat with (k + S c)%nat by lia.
Qed.

(** X19. With the service, the texts are sent in batches of [batch_size]; when
    the service embeds every text of a batch on its own, the result is the
    embedding of every text, in the order of the texts: the batches leave
    nothing out and repeat nothing. *)
Theorem generate_embeddings_batch_covers_all_texts
    (self : EmbeddingsGenerator) (texts : list string) (batch_size : Z)
    (f : string -> vector) :
  use_local self = false ->
  0 < batch_size ->
  (forall batch, embeddings_create self batch = Ok (map f batch)) ->
  generate_embeddings_batch self texts batch_size = Ok (map f texts).
Proof.
  intros Hcloud Hb Hf. unfold generate_embeddings_batch, py_range.
  rewrite Hcloud. destruct (Z.eqb_spec batch_size 0); [lia|].
  destruct (Z.ltb_spec 0 batch_size); [|lia].
  destruct (range_covers (Z.of_nat (length texts)) batch_size) as [Hc Hn];
    [lia | lia |].
  set (count := (Z.of_nat (length texts) - 0 + batch_size - 1) / batch_size) in *.
  pose proof (embed_batches_pointwise self texts batch_size f Hb Hf
                (Z.to_nat count) 0) as Hrun.
  change (map f (take (Z.to_nat (Z.of_nat 0 * batch_size)) texts))
    with (@nil vector) in Hrun.
  rewrite Hrun. cbn [Nat.add].
  rewrite take_ge by lia. reflexivity.
Qed.

Lemma generate_embeddings_batch_covers_all_texts_witness :
  generate_embeddings_batch Cases.cloud_generator Cases.five_texts 2
  = Ok (map (Examples.length_vector 2) Cases.five_texts).
Proof.
  apply (generate_embeddings_batch_covers_all_texts Cases.cloud_generator
           Cases.five_texts 2 (Examples.length_vector 2)).
  - reflexivity.
  - lia.
  - intros batch. reflexivity.
Defined.

Lemma embed_batches_length self texts b :
  0 < b ->
  (forall batch out,
     embeddings_create self batch = Ok out -> length out = length batch) ->
  forall c k acc out,
    length acc = length (take (Z.to_nat (Z.of_nat k * b)) texts) ->
    embed_batches self texts b
      (map (fun j => 0 + Z.of_nat j * b) (seq k c)) acc = Ok out ->
    length out = length (take (Z.to_nat (Z.of_nat (k + c) * b)) texts).
Proof.
  intros Hb Hlen. induction c as [|c IH]; intros k acc out Hacc;
    cbn [seq map embed_batches].
  - intros [= <-]. now rewrite Nat.add_0_r.
  - destruct (embeddings_create self _) as [batch_embeddings|e] eqn:E;
      [|discriminate].
    intros Hrun. apply IH in Hrun.
    + rewrite Hrun. now replace (S k + c)%nat with (k + S c)%nat by lia.
    + apply Hlen in E. rewrite length_app, Hacc, E, <- length_app.
      rewrite Z.add_0_l. rewrite list_slice_step by nia.
      now replace (Z.of_nat k * b + b) with (Z.of_nat (S k) * b) by nia.
Qed.

(** X20. When the local model and the service return one vector for each text
    they are given, [generate_embeddings_batch] with its default batch size
    returns one vector for each text: the generator meets the contract under
    which [add_documents] keeps the index and the documents aligned. *)
Theorem generator_meets_batch_contract (self : EmbeddingsGenerator) :
  (forall texts out, encode_all self texts = Ok out -> length out = length texts) ->
  (forall batch out,
     embeddings_create self batch = Ok out -> length out = length batch) ->
  Invariants.batch_contract (as_embedder self).
Proof.
  intros Hlocal Hcloud texts out.
  change (generate_embeddings_batch self texts 100 = Ok out ->
          length out = length texts).
  unfold generate_embeddings_batch, py_range.
  destruct (use_local self); [apply Hlocal|].
  change (100 =? 0) with false. change (0 <? 100) with true. cbv iota.
  destruct (range_covers (Z.of_nat (length texts)) 100) as [Hc Hn]; [lia | lia |].
  set (count := (Z.of_nat (length texts) - 0 + 100 - 1) / 100) in *.
  intros Hrun.
  apply (embed_batches_length self texts 100 ltac:(lia) Hcloud
           (Z.to_nat count) 0 [] out eq_refl) in Hrun.
  rewrite Hrun, take_ge by lia. reflexivity.
Qed.

Lemma generator_meets_batch_contract_witness :
  Invariants.batch_contract (as_embedder Cases.cloud_generator).
Proof.
  apply (generator_meets_batch_contract Cases.cloud_generator).
  - intros texts out H. discriminate H.
  - intros batch out [= <-]. apply length_map.
Defined.

(** X21. With the service, a batch size of zero makes [range] raise
    [ValueError], and a negative one makes the loop run no pass: the call
    returns the empty list whatever the texts. *)
Theorem generate_embeddings_batch_bad_batch_size
    (self : EmbeddingsGenerator) (texts : list string) (batch_size : Z) :
  use_local self = false ->
  (batch_size = 0 ->
   generate_embeddings_batch self texts batch_size = Raise ValueError)
  /\ (batch_size < 0 ->
      generate_embeddings_batch self texts batch_size = Ok []).
Proof.
  intros Hcloud. unfold generate_embeddings_batch, py_range. rewrite Hcloud.
  split.
  - intros ->. reflexivity.
  - intros Hneg. destruct (Z.eqb_spec batch_size 0); [lia|].
    destruct (Z.ltb_spec 0 batch_size); [lia|].
    assert ((0 - Z.of_nat (length texts) - batch_size - 1) / - batch_size <= 0)
      as Hcount.
    { assert (0 - Z.of_nat (length texts) - batch_size - 1
              < (- batch_size) * Z.succ 0) as Hlt by lia.
      destruct (Z.le_gt_cases
                  ((0 - Z.of_nat (length texts) - batch_size - 1) / - batch_size)
                  0) as [Hle|Hgt]; [exact Hle|].
      pose proof (Z.mul_div_le (0 - Z.of_nat (length texts) - batch_size - 1)
                    (- batch_size) ltac:(lia)).
      nia. }
    replace (Z.to_nat _) with 0%nat by lia. reflexivity.
Qed.

Lemma generate_embeddings_batch_bad_batch_size_witness :
  generate_embeddings_batch Cases.cloud_generator Cases.five_texts (-2) = Ok [].
Proof.
  destruct (generate_embeddings_batch_bad_batch_size Cases.cloud_generator
              Cases.five_texts (-2)) as [_ H].
  - reflexivity.
  - apply H. lia.
Defined.

End EmbeddingsFacts.

(* ===================================================================== *)
(** * Facts about saving and loading the vector store *)
(* ===================================================================== *)

Section PersistenceFacts.
Import VectorStore Persistence.
Context {kernel : Faiss.DistanceKernel}.

Lemma append_inv_head (p a b : string) : p +:+ a = p +:+ b -> a = b.
Proof. induction p as [|c p IH]; cbn; [auto | intros [= H]; auto]. Qed.

Lemma path_join_inj path a b : path_join path a = path_join path b -> a = b.
Proof.
  unfold path_join. destruct (String.rev path) as [|c r]; [auto|].
  destruct (Ascii.eqb c "/"); intros H.
  - now apply append_inv_head in H.
  - apply append_inv_head in H. now apply (append_inv_head "/") in H.
Qed.

Lemma store_paths_differ path :
  path_join path "documents.pkl" <> path_join path "faiss.index".
Proof. intros H. apply path_join_inj in H. discriminate H. Qed.

Lemma load_after_save vector_store_path path self other disk disk' :
  save vector_store_path path self disk = Saved disk'
  \/ save vector_store_path path self disk = SavedNullIndex disk' ->
  load vector_store_path path other disk'
  = Returned true {| index := index self; documents := documents self;
                     dimension := dimension other; is_initialized := true |}.
Proof.
  unfold save, load.
  destruct (is_initialized self); [|intros [H|H]; discriminate H].
  destruct (index self) as [ix|]; cbn [negb]; intros [H|H];
    try discriminate H; injection H as <-;
    rewrite lookup_insert_ne by apply store_paths_differ;
    rewrite !lookup_insert_eq; reflexivity.
Qed.

Lemma save_initialized vector_store_path path self disk disk' :
  save vector_store_path path self disk = Saved disk' ->
  is_initialized self = true.
Proof. unfold save. now destruct (is_initialized self). Qed.

(** X22. What [save] wrote, [load] reads back, into any instance: the index and
    the documents of the saved store, with the initialised flag set, so that
    the loaded store answers every search as the saved one does. The
    [dimension] attribute is not part of what is saved. All other files are
    left as they were. (Writing the two files is taken to succeed.) *)
Theorem save_then_load_restores_store
    (vector_store_path : string) (path : option string) (self other : t)
    (disk disk' : Disk) :
  save vector_store_path path self disk = Saved disk' ->
  let loaded := {| index := index self; documents := documents self;
                   dimension := dimension other; is_initialized := true |} in
  load vector_store_path path other disk' = Returned true loaded
  /\ (forall settings emb query k,
        search settings emb query k loaded
        = search settings emb query k self)
  /\ (forall p,
        p <> path_join (path_or vector_store_path path) "faiss.index" ->
        p <> path_join (path_or vector_store_path path) "documents.pkl" ->
        disk' !! p = disk !! p).
Proof.
  intros Hsave loaded. subst loaded.
  split; [apply (load_after_save _ _ _ other disk); now left|]. split.
  - intros settings emb query k. unfold search.
    cbn [is_initialized index documents].
    now rewrite (save_initialized _ _ _ _ _ Hsave).
  - intros p Hindex Hdocs. revert Hsave. unfold save.
    destruct (is_initialized self); [|discriminate].
    destruct (index self) as [ix|]; [|discriminate].
    cbn [negb]. intros [= <-].
    now rewrite !lookup_insert_ne by congruence.
Qed.

(** X23. A [load] that returns [False] with documents that are still a list
    leaves the documents, the initialised flag and the dimension as they
    were. It leaves the index as it was too, except when the index file
    could be read and the documents file exists: then reading the documents
    has failed and the instance keeps the index just read beside its old
    documents. The other way to fail is a documents file that holds
    another object: it is assigned with the flag before the call ends, and
    the call returns [False] exactly when [len] rejects the object. *)
Theorem failed_load_keeps_documents
    (vector_store_path : string) (path : option string) (self : t)
    (disk : Disk) :
  let index_path := path_join (path_or vector_store_path path) "faiss.index" in
  let docs_path := path_join (path_or vector_store_path path) "documents.pkl" in
  (forall self',
     load vector_store_path path self disk = Returned false self' ->
     documents self' = documents self
     /\ is_initialized self' = is_initialized self
     /\ dimension self' = dimension self
     /\ (index self' = index self
         \/ exists index_file docs_file,
              disk !! index_path = Some index_file
              /\ disk !! docs_path = Some docs_file
              /\ (forall docs, docs_file <> PickleFile docs)
              /\ read_index index_file = Some (index self')))
  /\ (forall flag ix,
        load vector_store_path path self disk = ForeignDocuments flag ix <->
        exists index_file,
          disk !! index_path = Some index_file
          /\ read_index index_file = Some ix
          /\ disk !! docs_path = Some (PickleObject flag)).
Proof.
  intros index_path docs_path. unfold load. fold index_path docs_path.
  destruct (disk !! index_path) as [index_file|].
  2:{ split; [intros self' [= <-]; repeat split; now left|].
      intros flag ix. split; [discriminate | intros (f & H & _); discriminate]. }
  destruct (disk !! docs_path) as [docs_file|].
  2:{ split; [intros self' [= <-]; repeat split; now left|].
      intros flag ix.
      split; [discriminate | intros (f & _ & _ & H); discriminate]. }
  destruct (read_index index_file) as [ix0|] eqn:Hread.
  2:{ split; [intros self' [= <-]; repeat split; now left|].
      intros flag ix.
      split; [discriminate | intros (f & [= <-] & H & _); congruence]. }
  split.
  - intros self'.
    destruct docs_file; try discriminate; intros [= <-]; cbn;
      repeat split; right; exists index_file; eexists;
      (split; [reflexivity|]); (split; [reflexivity|]);
      (split; [discriminate | exact Hread]).
  - intros flag ix. split.
    + destruct docs_file; try discriminate. intros [= <- <-].
      exists index_file. auto.
    + intros (f & [= <-] & Hix & [= ->]). rewrite Hread in Hix.
      now injection Hix as <-.
Qed.

Lemma failed_load_flag vector_store_path path self disk self' :
  load vector_store_path path self disk = Returned false self' ->
  is_initialized self' = is_initialized self.
Proof.
  unfold load.
  destruct (disk !! path_join _ "faiss.index") as [index_file|];
    [|now intros [= <-]].
  destruct (disk !! path_join _ "documents.pkl") as [docs_file|];
    [|now intros [= <-]].
  destruct (read_index index_file) as [ix|]; [|now intros [= <-]].
  destruct docs_file; try discriminate; now intros [= <-].
Qed.

Lemma load_any_instance vector_store_path path self other disk self' :
  load vector_store_path path self disk = Returned true self' ->
  load vector_store_path path other disk
  = Returned true {| index := index self'; documents := documents self';
                     dimension := dimension other; is_initialized := true |}.
Proof.
  unfold load.
  destruct (disk !! path_join _ "faiss.index") as [index_file|];
    [|discriminate].
  destruct (disk !! path_join _ "documents.pkl") as [docs_file|];
    [|discriminate].
  destruct (read_index index_file) as [ix|]; [|discriminate].
  destruct docs_file; try discriminate.
  intros [= <-]. reflexivity.
Qed.

End PersistenceFacts.

Section PersistenceInstances.
Import VectorStore Persistence.

Lemma save_then_load_restores_store_witness :
  load "unused" (Some "store") init
    (<["store/documents.pkl" := PickleFile Examples.three_docs]>
       (<["store/faiss.index" :=
            IndexFile (default (Faiss.new 1) (index Examples.store3))]>
          Cases.empty_disk))
  = Returned true
      {| index := index Examples.store3; documents := Examples.three_docs;
         dimension := None; is_initialized := true |}.
Proof.
  destruct (save_then_load_restores_store (kernel := Float32.kernel)
              "unused" (Some "store")
              Examples.store3 init Cases.empty_disk
              (<["store/documents.pkl" := PickleFile Examples.three_docs]>
                 (<["store/faiss.index" :=
                      IndexFile (default (Faiss.new 1) (index Examples.store3))]>
                    Cases.empty_disk)))
    as (H & _).
  - reflexivity.
  - exact H.
Defined.

End PersistenceInstances.

(* ===================================================================== *)
(** * Facts about loading a directory and about start-up *)
(* ===================================================================== *)

Section IngestionFacts.
Import VectorStore Persistence Ingestion Provenance Shapes.

Lemma chunk_documents_elem filename chunks doc :
  doc ∈ chunk_documents filename chunks <->
  exists i,
    chunks !! i = Some (content doc)
    /\ metadata doc
       = {| source := Some filename; chunk_id := Some (Z.of_nat i);
            total_chunks := Some (Z.of_nat (length chunks)) |}.
Proof.
  unfold chunk_documents. rewrite elem_of_lookup_imap. split.
  - intros (i & chunk & -> & Hi). exists i. now split.
  - intros (i & Hi & Hm). exists i, (content doc). split; [|exact Hi].
    destruct doc as [c m]. cbn in *. now subst m.
Qed.

(** The loop appends, entry after entry, what each entry contributes; it
    ends only if [_split_text] returns on every text it is given. *)
Lemma load_entries_spec fuel self :
  forall entries acc docs,
    load_entries fuel self entries acc = Some docs ->
    docs = acc ++ flat_map (entry_documents fuel self) entries
    /\ forall filename text,
         (filename, Some text) ∈ entries ->
         endswith filename ".txt" = true ->
         is_Some (Retriever._split_text fuel self text).
Proof.
  induction entries as [|[filename file] rest IH]; intros acc docs;
    cbn [load_entries flat_map entry_documents].
  - intros [= <-]. rewrite app_nil_r. split; [reflexivity|].
    intros f t H. inversion H.
  - assert (forall docs',
              load_entries fuel self rest acc = Some docs' ->
              (endswith filename ".txt" = false \/ file = None) ->
              docs' = acc ++ [] ++ flat_map (entry_documents fuel self) rest
              /\ forall f t,
                   (f, Some t) ∈ (filename, file) :: rest ->
                   endswith f ".txt" = true ->
                   is_Some (Retriever._split_text fuel self t)) as Hskip.
    { intros docs' Hrun Hwhy. apply IH in Hrun as [-> Hsplit].
      split; [reflexivity|]. intros f t Hin Hext.
      apply elem_of_cons in Hin as [[= -> <-]|Hin];
        [|exact (Hsplit f t Hin Hext)].
      destruct Hwhy; congruence. }
    destruct file as [text|]; destruct (endswith filename ".txt") eqn:Hext;
      try (intros Hrun; apply Hskip; [exact Hrun | auto]).
    destruct (Retriever._split_text fuel self text) as [chunks|] eqn:Hsplit;
      [|discriminate].
    intros Hrun. apply IH in Hrun as [-> Hrest]. cbn [default].
    split; [now rewrite <- app_assoc|].
    intros f t Hin Hf.
    apply elem_of_cons in Hin as [[= -> ->]|Hin];
      [|exact (Hrest f t Hin Hf)].
    rewrite Hsplit. eauto.
Qed.

Lemma entry_documents_elem fuel self entries doc :
  (forall filename text,
     (filename, Some text) ∈ entries ->
     endswith filename ".txt" = true ->
     is_Some (Retriever._split_text fuel self text)) ->
  doc ∈ flat_map (entry_documents fuel self) entries <->
  from_directory fuel self entries doc.
Proof.
  intros Hsplit. rewrite list_elem_of_In, in_flat_map. split.
  - intros ([filename [text|]] & Hin & Hdoc); cbn in Hdoc; [|contradiction].
    apply list_elem_of_In in Hin.
    destruct (endswith filename ".txt") eqn:Hext; [|contradiction].
    destruct (Hsplit filename text Hin Hext) as [chunks Hchunks].
    rewrite Hchunks in Hdoc. cbn in Hdoc.
    apply list_elem_of_In, chunk_documents_elem in Hdoc as (i & Hi & Hm).
    exists filename, text, chunks, i. auto.
  - intros (filename & text & chunks & i & Hin & Hext & Hchunks & Hi & Hm).
    exists (filename, Some text). split; [now apply list_elem_of_In|].
    cbn. rewrite Hext, Hchunks. cbn.
    apply list_elem_of_In, chunk_documents_elem. eauto.
Qed.

(** X24. The documents that [load_documents_from_directory] returns are
    exactly the chunks of the readable entries of the directory whose
    name ends in [.txt]: the content of each is one of the chunks into
    which [_split_text] cuts the text of its file, its metadata carries
    that file name as source, the position of the chunk as [chunk_id] and
    the number of chunks of the file as [total_chunks], and every chunk of
    every such file is among them. Each content is non-empty and stripped.
    Entries of other kinds and files that cannot be read contribute
    nothing, and a missing directory gives the empty list. *)
Theorem loaded_documents_come_from_text_files
    (fuel : nat) (self : Retriever.DocumentRetriever)
    (directory : option Directory) (docs : list Document) :
  load_documents_from_directory fuel self directory = Some docs ->
  (forall doc,
     doc ∈ docs <-> from_directory fuel self (default [] directory) doc)
  /\ Forall (fun doc => clean_chunk (content doc)) docs
  /\ docs = flat_map (entry_documents fuel self) (default [] directory).
Proof.
  intros Hrun.
  assert (docs = flat_map (entry_documents fuel self) (default [] directory)
          /\ forall filename text,
               (filename, Some text) ∈ default [] directory ->
               endswith filename ".txt" = true ->
               is_Some (Retriever._split_text fuel self text))
    as [Hdocs Hsplit].
  { destruct directory as [entries|];
      cbn [load_documents_from_directory default] in *.
    - now apply load_entries_spec in Hrun.
    - injection Hrun as <-. split; [reflexivity|]. intros f t H. inversion H. }
  assert (forall doc,
            doc ∈ docs <-> from_directory fuel self (default [] directory) doc)
    as Hiff.
  { intros doc. rewrite Hdocs. now apply entry_documents_elem. }
  split; [exact Hiff|]. split; [|exact Hdocs].
  apply Forall_forall. intros doc Hdoc.
  apply Hiff in Hdoc as (filename & text & chunks & i & _ & _ & Hchunks & Hi & _).
  assert (Forall clean_chunk chunks) as Hclean.
  { apply (split_loop_clean fuel self text (0, []) chunks);
      [constructor | exact Hchunks]. }
  rewrite Forall_lookup in Hclean. exact (Hclean i _ Hi).
Qed.

Lemma loaded_documents_come_from_text_files_witness :
  map content
    (default []
       (load_documents_from_directory 10 Cases.small_retriever
          (Some Cases.small_directory)))
  = ["hello"; "o world."; ". this is"; "s a test"; "short"].
Proof.
  pose (docs := default []
                  (load_documents_from_directory 10 Cases.small_retriever
                     (Some Cases.small_directory))).
  destruct (loaded_documents_come_from_text_files 10 Cases.small_retriever
              (Some Cases.small_directory) docs) as (_ & _ & H).
  - vm_compute. reflexivity.
  - fold docs. rewrite H. vm_compute. reflexivity.
Defined.

(** X25. After a start-up that began with an uninitialised store, ended
    without an exception and left the store initialised with a list of
    documents, the next start-up on the files left behind loads that store
    (its index and its documents) from disk: it reads no document, calls no
    embedder and writes no file, whatever the directory then holds. *)
Theorem initialize_vector_store_restart
    (fuel : nat) (self : Retriever.DocumentRetriever)
    (vector_store_path : string) (emb : Embedder)
    (directory : option Directory) (vector_store : VectorStore.t)
    (files : Disk) (first : StartUp) :
  is_initialized vector_store = false ->
  initialize_vector_store fuel self vector_store_path emb directory
    vector_store files = Some (Started first) ->
  outcome first = Ok tt ->
  is_initialized (store first) = true ->
  forall fuel' self' emb' directory' fresh,
    initialize_vector_store fuel' self' vector_store_path emb' directory'
      fresh (disk first)
    = Some (Started
              {| outcome := Ok tt;
                 store := {| index := index (store first);
                             documents := documents (store first);
                             dimension := dimension fresh;
                             is_initialized := true |};
                 disk := disk first |}).
Proof.
  intros Hfresh Hrun Hok Hinit fuel' self' emb' directory' fresh.
  unfold initialize_vector_store in Hrun.
  destruct (load vector_store_path None vector_store files)
    as [[|] store1|flag ix] eqn:Hload; [| |discriminate].
  - injection Hrun as <-. cbn [store disk] in *.
    unfold initialize_vector_store.
    now rewrite (load_any_instance _ _ _ fresh _ _ Hload).
  - apply failed_load_flag in Hload. rewrite Hfresh in Hload.
    destruct (load_documents_from_directory fuel self directory)
      as [[|doc docs]|]; [| |discriminate].
    + injection Hrun as <-. cbn [store] in Hinit. congruence.
    + destruct (add_documents emb (doc :: docs) store1) as [[n|e] store2].
      * destruct (save vector_store_path None store2 files)
          as [files'| |files'] eqn:Hsave; injection Hrun as <-;
          cbn [store disk outcome] in *.
        -- unfold initialize_vector_store.
           rewrite (load_after_save _ _ store2 fresh files files');
             [reflexivity | now left].
        -- unfold save in Hsave. rewrite Hinit in Hsave. cbn [negb] in Hsave.
           now destruct (index store2).
        -- unfold initialize_vector_store.
           rewrite (load_after_save _ _ store2 fresh files files');
             [reflexivity | now right].
      * injection Hrun as <-. discriminate.
Qed.

Lemma initialize_vector_store_restart_witness :
  initialize_vector_store 0 Retriever.default_retriever
    "./data/vector_store" (Examples.length_embedder 7) None init
    (disk Cases.after_first_start)
  = Some (Started
            {| outcome := Ok tt;
               store := {| index := index (store Cases.after_first_start);
                           documents := documents (store Cases.after_first_start);
                           dimension := None;
                           is_initialized := true |};
               disk := disk Cases.after_first_start |}).
Proof.
  apply (initialize_vector_store_restart 10 Cases.small_retriever
           "./data/vector_store" (Examples.length_embedder 2)
           (Some Cases.small_directory) init Cases.empty_disk
           Cases.after_first_start).
  - reflexivity.
  - vm_compute. reflexivity.
  - vm_compute. reflexivity.
  - vm_compute. reflexivity.
Defined.

End IngestionFacts.

(* ===================================================================== *)
(** * Facts about the credentials *)
(* ===================================================================== *)

Section ConfigFacts.
Import Config.

Lemma lstrip_slash_head s : String.prefix "/" (lstrip_slash s) = false.
Proof.
  induction s as [|c s IH]; [reflexivity|]. cbn [lstrip_slash].
  destruct (Ascii.eqb c "/") eqn:E; [exact IH|].
  cbn [String.prefix]. destruct (ascii_dec "/" c) as [<-|_]; [|reflexivity].
  now rewrite Ascii.eqb_refl in E.
Qed.

(** X26. Credentials that pass the checks of [Settings.__init__] always give the
    client of the agent a non-empty API key. When an Azure endpoint is set,
    the Azure settings are the ones used, even beside an OpenAI key, and
    the base URL is the endpoint without its trailing slashes followed by
    [/openai/v1]; otherwise no base URL is passed. *)
Theorem validated_credentials_reach_the_client (c c' : Credentials) :
  validate c = Ok c' ->
  c' = c
  /\ truthy (api_key (agent_setup c)) = true
  /\ (truthy (azure_openai_endpoint c) = true ->
      api_key (agent_setup c) = azure_openai_api_key c
      /\ exists stem,
           base_url (agent_setup c) = Some (stem +:+ "/openai/v1")
           /\ Ingestion.endswith stem "/" = false
           /\ stem
              = rstrip_slash (default EmptyString (azure_openai_endpoint c)))
  /\ (truthy (azure_openai_endpoint c) = false ->
      api_key (agent_setup c) = openai_api_key c
      /\ base_url (agent_setup c) = None).
Proof.
  unfold validate, agent_setup, is_azure_openai.
  destruct (truthy (openai_api_key c)) eqn:Ho;
    destruct (truthy (azure_openai_endpoint c)) eqn:He;
    destruct (truthy (azure_openai_api_key c)) eqn:Ha;
    cbn [negb andb]; try discriminate; intros [= <-];
    (split; [reflexivity|]); cbn [api_key base_url];
    (split; [assumption|]); (split; [|now intros]); intros Hset;
    try discriminate Hset.
  all: split; [reflexivity|]; eexists; split; [reflexivity|];
    split; [|reflexivity]; unfold Ingestion.endswith, rstrip_slash;
    rewrite string_rev_involutive; apply lstrip_slash_head.
Qed.

Lemma validated_credentials_reach_the_client_witness :
  base_url (agent_setup Cases.azure_pair)
  = Some "https://example.test/openai/v1".
Proof.
  destruct (validated_credentials_reach_the_client Cases.azure_pair
              Cases.azure_pair) as (_ & _ & H & _).
  - reflexivity.
  - destruct (H eq_refl) as (_ & stem & -> & _ & ->). reflexivity.
Defined.

End ConfigFacts.

(* ===================================================================== *)
(** * Facts about the routes *)
(* ===================================================================== *)

Section RouteFacts.
Import Runtime Agent Routes.

(** X27. The [/ask] route never changes what [/health] reports. A request whose
    query is empty or longer than 2000 characters is refused by the request
    model before the agent runs: no session is created and nothing is
    stored. Every other request reaches the agent, and its response is the
    answer or the server error built from the exception. *)
Theorem ask_question_outcomes (env : Env) (request : QueryRequest) (w : World) :
  let out := ask_question env request w in
  health_check (snd out) = health_check w
  /\ (PyStr.len (query request) < 1 \/ 2000 < PyStr.len (query request) ->
      out = (Unprocessable, w))
  /\ (1 <= PyStr.len (query request) <= 2000 ->
      fst out <> Unprocessable
      /\ snd out
         = snd (process_query env (query request) (request_session_id request)
                  w)).
Proof.
  intros out. subst out. unfold ask_question, valid_request, health_check.
  pose proof (process_query_vector_store env (query request)
                (request_session_id request) w) as Hstore.
  destruct (Z.leb_spec 1 (PyStr.len (query request)));
    destruct (Z.leb_spec (PyStr.len (query request)) 2000); cbn [andb];
    try (split; [reflexivity|]; split; [reflexivity | lia]).
  destruct (process_query env (query request) (request_session_id request) w)
    as [[body|e] w']; cbn [fst snd] in *.
  all: split; [now rewrite Hstore|].
  all: split; [lia|].
  all: intros _; split; [discriminate | reflexivity].
Qed.

End RouteFacts.

(* ===================================================================== *)
(** * The orchestrator: searches of a tool round, sessions that expire *)
(* ===================================================================== *)

Section AgentEdgeFacts.
Import Memory Runtime SessionMemory Retrieval Agent Invariants ToolRound.

Lemma handle_tool_call_trace env query tool_call st st' w :
  fst (handle_tool_call env query tool_call st w) = Ok st' ->
  snd (handle_tool_call env query tool_call st w)
  = extend_trace (searches_of_call env query tool_call) w.
Proof.
  destruct st as [messages sources].
  destruct (handle_tool_call env query tool_call (messages, sources) w)
    as [r w'] eqn:E.
  cbn [fst snd]. intros ->. unfold searches_of_call.
  unfold handle_tool_call in E. unfold bind at 1 in E. unfold lift_result in E.
  destruct (json_loads env (function_arguments tool_call)) as [args|e];
    [|discriminate].
  destruct (String.eqb (function_name tool_call) "search_documents").
  2:{ injection E as _ <-. now rewrite extend_trace_nil. }
  set (q := default query (arg_query args)) in *.
  set (n := Some (default 3 (arg_num_results args))) in *.
  unfold bind at 1 in E.
  pose proof (search_documents_world env q n w) as H1.
  destruct (_search_documents env q n w) as [[text|e] w1]; cbn [snd] in H1;
    subst w1; [|discriminate].
  unfold bind at 1 in E.
  pose proof (retrieve_world env q n (extend_trace [IndexSearch q n] w)) as H2.
  destruct (retrieve env q n _) as [[docs|e] w2]; cbn [snd] in H2; subst w2;
    [|discriminate].
  injection E as _ <-. now rewrite extend_trace_app.
Qed.

Lemma handle_tool_calls_trace env query calls :
  forall st st' w,
    fst (handle_tool_calls env query calls st w) = Ok st' ->
    snd (handle_tool_calls env query calls st w)
    = extend_trace (searches_of_calls env query calls) w.
Proof.
  induction calls as [|tool_call rest IH]; intros st st' w;
    cbn [handle_tool_calls searches_of_calls flat_map].
  - intros _. now rewrite extend_trace_nil.
  - unfold bind.
    pose proof (fun st1 => handle_tool_call_trace env query tool_call st st1 w)
      as H1.
    destruct (handle_tool_call env query tool_call st w) as [[st1|e] w1];
      [|discriminate].
    specialize (H1 st1 eq_refl). cbn [snd] in H1. subst w1.
    intros Hrun. rewrite (IH st1 st' _ Hrun). now rewrite extend_trace_app.
Qed.

(** X28. In a query that succeeds, the external calls are, in this order: the
    first completion call; for every tool call of its reply that names
    [search_documents], two searches of the index with the same query and
    the same number of results (one for the text given to the completer, one
    for the sources); and, when the reply held tool calls, one completion
    call without the tools. *)
Theorem tool_round_searches_index_twice_per_call
    (env : Env) (query : string) (messages : list ApiMessage) (w : World)
    (reply : ChatMessage) (outcome : string * list string) (w' : World) :
  completions_create env (length (trace w)) messages true = Ok reply ->
  complete_with_tools env query messages w = (Ok outcome, w') ->
  exists tail,
    trace w'
    = trace w
      ++ Completion messages true
         :: searches_of_calls env query (tool_calls reply) ++ tail
    /\ (tool_calls reply = [] -> tail = [])
    /\ (tool_calls reply <> [] -> exists m2, tail = [Completion m2 false]).
Proof.
  intros Hreply. unfold complete_with_tools.
  unfold bind at 1, chat_completions_create at 1. rewrite Hreply.
  destruct (tool_calls reply) as [|c cs] eqn:Hcalls.
  - intros [= <- <-]. exists []. split; [reflexivity|].
    split; [reflexivity | congruence].
  - unfold bind at 1.
    pose proof (fun st =>
                  handle_tool_calls_trace env query (c :: cs)
                    (messages ++ [AssistantMessage reply], []) st
                    (extend_trace [Completion messages true] w)) as Ht.
    destruct (handle_tool_calls env query (c :: cs) _ _) as [[st|e] w2];
      [|discriminate].
    specialize (Ht st eq_refl). cbn [snd] in Ht. subst w2.
    unfold bind, chat_completions_create, ret.
    destruct (completions_create env _ (fst st) false); [|discriminate].
    intros [= <- <-]. exists [Completion (fst st) false]. split; [|split].
    + cbn [trace extend_trace searches_of_calls flat_map].
      now rewrite <- !app_assoc.
    + discriminate.
    + intros _. eauto.
Qed.

Lemma tool_round_searches_index_twice_per_call_witness :
  exists tail,
    trace (snd (complete_with_tools Examples.two_call_env "question" []
                  Examples.world0))
    = Completion [] true
      :: IndexSearch "a" (Some 1) :: IndexSearch "a" (Some 1)
      :: IndexSearch "bb" (Some 1) :: IndexSearch "bb" (Some 1) :: tail.
Proof.
  pose (p := complete_with_tools Examples.two_call_env "question" []
               Examples.world0).
  assert (p = (Ok ("final answer", ["b.txt"]), snd p)) as Hrun.
  { transitivity (fst p, snd p); [apply surjective_pairing|].
    apply (f_equal (fun x => (x, snd p))). vm_compute. reflexivity. }
  destruct (tool_round_searches_index_twice_per_call Examples.two_call_env
              "question" [] Examples.world0
              {| reply_content := ""; tool_calls := [Examples.call_a; Examples.call_b] |}
              _ _ eq_refl Hrun) as (tail & Htrace & _).
  exists tail. exact Htrace.
Defined.

(** The head of [process_query] when the session is live at the check of
    [session_exists] and past its time to live one reading of the clock
    later: the question is dropped with the session. *)
Lemma process_query_expiring_head env query sid w :
  PyStr.nonempty sid = true ->
  session_live (session_memory w) sid (time_at env (clock_reads w)) ->
  ttl (session_memory w)
  < time_at env (1 + clock_reads w)
    - default 0 (session_timestamps (session_memory w) !! sid) ->
  process_query env query (Some sid) w
  = (do outcome <- complete_with_tools env query [];
     run add_message env sid "assistant" (fst outcome);
     ret {| answer := fst outcome; sources := snd outcome;
            Agent.session_id := sid |})
      (set_memory (cleanup_session sid (session_memory w)) (tick (tick w))).
Proof.
  intros Hne Hlive Hexp. unfold process_query. unfold bind at 1.
  rewrite (resolve_session_live env sid w Hne Hlive).
  destruct Hlive as [[msgs Hmsgs] _].
  unfold bind at 1. unfold add_message at 1. unfold bind at 1.
  rewrite (is_session_valid_expired env sid (tick w) msgs Hmsgs Hexp).
  cbn [negb]. unfold ret at 1.
  unfold bind at 1. unfold get_history. unfold bind at 1.
  rewrite is_session_valid_absent by apply lookup_delete_eq.
  reflexivity.
Qed.

(** X29. A session that is live when [process_query] checks it and expires
    before the question is stored is removed while the query runs: the
    completer is called with an empty list of messages, neither the question
    nor the answer is stored, and an answer that is produced still carries
    the identifier of the removed session. *)
Theorem process_query_session_expiring_midway
    (env : Env) (query sid : string) (w : World) :
  PyStr.nonempty sid = true ->
  session_live (session_memory w) sid (time_at env (clock_reads w)) ->
  ttl (session_memory w)
  < time_at env (1 + clock_reads w)
    - default 0 (session_timestamps (session_memory w) !! sid) ->
  let out := process_query env query (Some sid) w in
  (exists rest, trace (snd out) = trace w ++ Completion [] true :: rest)
  /\ sessions (session_memory (snd out)) !! sid = None
  /\ forall res, fst out = Ok res -> Agent.session_id res = sid.
Proof.
  intros Hne Hlive Hexp out. subst out.
  rewrite (process_query_expiring_head env query sid w Hne Hlive Hexp).
  set (w2 := set_memory _ _).
  assert (sessions (session_memory w2) !! sid = None) as Hgone
    by apply lookup_delete_eq.
  match goal with
  | |- context [trace (snd ?t)] => remember t as out eqn:E
  end.
  unfold bind at 1 in E.
  destruct (complete_with_tools_world env query [] w2) as (rest & Hw & _ & _).
  destruct (complete_with_tools env query [] w2) as [[outcome|e] w4];
    cbn [snd] in Hw; subst w4.
  - unfold bind at 1 in E. unfold add_message in E. unfold bind at 1 in E.
    rewrite is_session_valid_absent in E by exact Hgone.
    cbn [negb] in E. unfold ret in E. subst out. cbn [fst snd].
    split; [exists rest; reflexivity|].
    split; [exact Hgone | now intros res [= <-]].
  - subst out. cbn [fst snd]. split; [exists rest; reflexivity|].
    split; [exact Hgone | discriminate].
Qed.

Lemma process_query_session_expiring_midway_witness :
  sessions (session_memory
              (snd (process_query Cases.jumping_env "c" (Some "s")
                      (Examples.world_with default_settings
                         Examples.one_exchange 1000)))) !! "s"
  = None.
Proof.
  destruct (process_query_session_expiring_midway Cases.jumping_env "c" "s"
              (Examples.world_with default_settings Examples.one_exchange 1000))
    as (_ & H & _).
  - reflexivity.
  - split; [vm_compute; eexists; reflexivity | vm_compute; discriminate].
  - vm_compute. reflexivity.
  - exact H.
Defined.

End AgentEdgeFacts.

(* ===================================================================== *)
(** * The text of a search *)
(* ===================================================================== *)

Section SearchTextFacts.
Import Runtime Retrieval Agent.

Lemma string_app_assoc (a b c : string) : (a +:+ b) +:+ c = a +:+ (b +:+ c).
Proof.
  induction a as [|x a IH]; [reflexivity | exact (f_equal (String x) IH)].
Qed.

Lemma string_app_nil_r (a : string) : a +:+ "" = a.
Proof.
  induction a as [|x a IH]; [reflexivity | exact (f_equal (String x) IH)].
Qed.

Lemma prefix_append (s t : string) : String.prefix s (s +:+ t) = true.
Proof.
  induction s as [|c s IH].
  - now destruct t.
  - change (String.prefix (String c s) (String c (s +:+ t)) = true).
    cbn [String.prefix].
    destruct (ascii_dec c c) as [_|Hne]; [exact IH | now contradiction Hne].
Qed.

Lemma format_result_head r rest :
  String.prefix ("[Document 1 - " +:+ doc_source r +:+ "]")
    (format_result 1 r +:+ rest) = true.
Proof.
  assert (format_result 1 r +:+ rest
          = ("[Document 1 - " +:+ doc_source r +:+ "]")
            +:+ (newline +:+ doc_content r +:+ newline +:+ rest)) as ->.
  { unfold format_result. change (pretty 1%nat) with "1".
    rewrite !string_app_assoc. reflexivity. }
  apply prefix_append.
Qed.

(** X30. The text that [_search_documents] hands to the completer is the notice
    ["No relevant documents found."] exactly when the retrieval found no
    document; otherwise it begins with the header of the first hit,
    [[Document 1 - source]]. *)
Theorem search_documents_reports_no_results
    (env : Env) (query : string) (k : option Z) (w : World) (text : string) :
  fst (_search_documents env query k w) = Ok text ->
  (text = "No relevant documents found."
   <-> fst (retrieve env query k w) = Ok [])
  /\ forall first others,
       fst (retrieve env query k w) = Ok (first :: others) ->
       String.prefix ("[Document 1 - " +:+ doc_source first +:+ "]") text = true.
Proof.
  unfold _search_documents, bind.
  destruct (retrieve env query k w) as [[[|r rs]|e] w1]; cbn [fst];
    [| |discriminate].
  - intros [= <-]. split; [split; reflexivity|]. discriminate.
  - cbn [ret fst imap String.concat]. intros [= <-]. split.
    + split; [|discriminate]. unfold format_result.
      destruct (imap _ rs); discriminate.
    + intros first others [= <- <-].
      destruct (imap _ rs) as [|next blocks].
      * rewrite <- (string_app_nil_r (format_result 1 r)).
        apply format_result_head.
      * apply format_result_head.
Qed.

Lemma search_documents_reports_no_results_witness :
  fst (retrieve Examples.direct_env "a" (Some 1) Cases.world_without_index)
  = Ok [].
Proof.
  destruct (search_documents_reports_no_results Examples.direct_env "a" (Some 1)
              Cases.world_without_index "No relevant documents found.")
    as [H _].
  - vm_compute. reflexivity.
  - apply H. reflexivity.
Defined.

End SearchTextFacts.
